(** * kb_query: pattern matching and SPARQL synthesis

    A shallow embedding of the core of the [kb_query] package
    ([core/entities.py], [core/matcher.py], [core/builder.py],
    [services/query.py]) and the properties its specification states.

    Conventions of the embedding:
    - a Python [str] is a list of characters ([str := list ascii]); the
      texts are ASCII, the characters above 127 are caseless, are no
      whitespace and are no word characters;
    - a Python [float] is a binary64 number, given by its value, a
      rational ([Q]); a literal and every operation on floats give the
      nearest binary64 number ([round64]), and a comparison compares the
      values;
    - a Python [dict] is an association list in insertion order, because
      the code iterates over its items;
    - a raised exception is the [Err] outcome of a function. *)

From Stdlib Require String.
From Stdlib Require Import List Ascii Bool Arith PeanoNat ZArith QArith Lia Lqa.
From Stdlib Require Import Sorted Permutation DecimalString.
From Stdlib Require Import Qround Qpower.
From Stdlib Require Floats.SpecFloat.
From Stdlib Require DecimalPos DecimalZ.
Import ListNotations.
Close Scope Q_scope.

Set Implicit Arguments.

(* ================================================================= *)
(** * Strings *)

Definition str : Set := list ascii.

(** String literals denote lists of characters. *)
Inductive literal : Set :=
| LEnd
| LChar (a : ascii) (s : literal).

Fixpoint literal_of_bytes (l : list Byte.byte) : literal :=
  match l with
  | [] => LEnd
  | b :: l => LChar (ascii_of_byte b) (literal_of_bytes l)
  end.

Fixpoint bytes_of_literal (s : literal) : list Byte.byte :=
  match s with
  | LEnd => []
  | LChar a s => byte_of_ascii a :: bytes_of_literal s
  end.

Declare Scope str_scope.
Delimit Scope str_scope with str.
#[warnings="-via-type-remapping,-via-type-mismatch"]
String Notation str literal_of_bytes bytes_of_literal
  (via literal mapping [[nil] => LEnd, [cons] => LChar]) : str_scope.
Open Scope str_scope.
Open Scope list_scope.

Definition nl : ascii := "010"%char.
Definition tab : ascii := "009"%char.
Definition cr : ascii := "013"%char.
Definition dquote : ascii := "034"%char.
Definition backslash : ascii := "092"%char.

Definition ceqb (a b : ascii) : bool := Ascii.eqb a b.
Arguments ceqb a b : simpl never.

Fixpoint str_eqb (s t : str) : bool :=
  match s, t with
  | [], [] => true
  | a :: s, b :: t => ceqb a b && str_eqb s t
  | _, _ => false
  end.

(** [x in l] for a list of strings. *)
Definition mem (x : str) (l : list str) : bool := existsb (str_eqb x) l.

(** ** Character classes *)

Definition code (c : ascii) : nat := nat_of_ascii c.

Definition between (lo hi : nat) (c : ascii) : bool :=
  (lo <=? code c) && (code c <=? hi).

(** [str.isspace] and the [\s] of [re] on ASCII: tab, line feed, vertical
    tab, form feed, carriage return, the four separators 28-31 and space. *)
Definition isspace (c : ascii) : bool := between 9 13 c || between 28 32 c.

Definition isupper (c : ascii) : bool := between 65 90 c.
Definition islower (c : ascii) : bool := between 97 122 c.
Definition isdigit (c : ascii) : bool := between 48 57 c.

(** The [\w] of [re]. *)
Definition isword (c : ascii) : bool :=
  isupper c || islower c || isdigit c || ceqb c "_".

Definition lower_char (c : ascii) : ascii :=
  if isupper c then ascii_of_nat (code c + 32) else c.

Definition upper_char (c : ascii) : ascii :=
  if islower c then ascii_of_nat (code c - 32) else c.

Arguments isspace c : simpl never.
Arguments isword c : simpl never.
Arguments isdigit c : simpl never.
Arguments lower_char c : simpl never.
Arguments upper_char c : simpl never.

(** ** The methods of [str] the code uses *)

Definition lower (s : str) : str := map lower_char s.
Definition upper (s : str) : str := map upper_char s.

Fixpoint lstrip (s : str) : str :=
  match s with
  | c :: s' => if isspace c then lstrip s' else s
  | [] => []
  end.

Definition rstrip (s : str) : str := rev (lstrip (rev s)).
Definition strip (s : str) : str := rstrip (lstrip s).

Fixpoint startswith (p s : str) : bool :=
  match p, s with
  | [], _ => true
  | a :: p, b :: s => ceqb a b && startswith p s
  | _ :: _, [] => false
  end.

Definition endswith (p s : str) : bool := startswith (rev p) (rev s).

(** [sub in s]. *)
Fixpoint contains (sub s : str) : bool :=
  startswith sub s ||
  match s with
  | [] => false
  | _ :: s' => contains sub s'
  end.

(** [s.count(c)] for a single character. *)
Definition count (c : ascii) (s : str) : nat :=
  length (filter (ceqb c) s).

(** [s.find(sub)]: the least index where [sub] starts, [None] for -1. *)
Fixpoint find (sub s : str) : option nat :=
  if startswith sub s then Some 0
  else match s with
       | [] => None
       | _ :: s' => option_map S (find sub s')
       end.

(** [s.rfind(c)] for a single character. *)
Fixpoint rfind (c : ascii) (s : str) : option nat :=
  match s with
  | [] => None
  | a :: s' =>
      match rfind c s' with
      | Some i => Some (S i)
      | None => if ceqb a c then Some 0 else None
      end
  end.

(** [s.replace(old, new)] for a non-empty [old]: the occurrences are
    replaced from the left and do not overlap; [skip] counts the
    characters of a replaced occurrence that are still to be dropped. *)
Fixpoint replace_from (old new : str) (skip : nat) (s : str) : str :=
  match s with
  | [] => []
  | c :: s' =>
      match skip with
      | S n => replace_from old new n s'
      | 0 =>
          if startswith old s
          then new ++ replace_from old new (length old - 1) s'
          else c :: replace_from old new 0 s'
      end
  end.

Definition replace (old new s : str) : str := replace_from old new 0 s.

(** [s.split(c)] for a single character: at least one part. *)
Fixpoint split_on (c : ascii) (s : str) : list str :=
  match s with
  | [] => [[]]
  | a :: s' =>
      match split_on c s' with
      | p :: ps => if ceqb a c then [] :: p :: ps else (a :: p) :: ps
      | [] => [[a]]
      end
  end.

(** [s.split()]: the maximal runs of characters that are no whitespace. *)
Fixpoint split_ws_from (cur : str) (s : str) : list str :=
  match s with
  | [] => match cur with [] => [] | _ => [cur] end
  | c :: s' =>
      if isspace c
      then match cur with
           | [] => split_ws_from [] s'
           | _ => cur :: split_ws_from [] s'
           end
      else split_ws_from (cur ++ [c]) s'
  end.

Definition split_ws (s : str) : list str := split_ws_from [] s.

(** [sep.join(parts)]. *)
Fixpoint join (sep : str) (parts : list str) : str :=
  match parts with
  | [] => []
  | [p] => p
  | p :: ps => p ++ sep ++ join sep ps
  end.

(** [str(n)] for an [int]. *)
Definition str_of_Z (n : Z) : str :=
  String.list_ascii_of_string (NilEmpty.string_of_int (Z.to_int n)).

(* ================================================================= *)
(** * Regular expressions

    The patterns of the code are sequences of quantified character
    classes, with capture groups around single classes, one optional
    non-capturing group and the anchors [^] and [$].  [rmatch] is the
    backtracking matcher of [re] on such sequences: a greedy quantifier
    tries the longest repetition first, a lazy one the shortest, and the
    first way to match the whole sequence wins. *)

Inductive quant : Set := One | Opt | Star | Plus | LazyStar | LazyPlus.

Definition cls : Set := ascii -> bool.

Inductive item : Set :=
| Cls (p : cls) (q : quant) (cap : bool)
| OptSeq (body : list (cls * quant))
| Bol
| Eol.

(** The outcome of a match: the text after it and the groups captured. *)
Definition mres : Set := option (str * list str).

Section Quantified.
Variable p : cls.
(** What follows the class: [k g bol s] continues at [s], where [g] is
    the text the class has consumed. *)
Variable k : str -> bool -> str -> mres.

Fixpoint greedy (acc : str) (bol : bool) (s : str) : mres :=
  match s with
  | c :: s' =>
      if p c then
        match greedy (acc ++ [c]) false s' with
        | Some r => Some r
        | None => k acc bol s
        end
      else k acc bol s
  | [] => k acc bol s
  end.

Fixpoint reluctant (acc : str) (bol : bool) (s : str) : mres :=
  match k acc bol s with
  | Some r => Some r
  | None =>
      match s with
      | c :: s' => if p c then reluctant (acc ++ [c]) false s' else None
      | [] => None
      end
  end.

Definition quantified (q : quant) (bol : bool) (s : str) : mres :=
  match q, s with
  | One, c :: s' => if p c then k [c] false s' else None
  | One, [] => None
  | Opt, c :: s' =>
      if p c then
        match k [c] false s' with
        | Some r => Some r
        | None => k [] bol s
        end
      else k [] bol s
  | Opt, [] => k [] bol s
  | Star, _ => greedy [] bol s
  | LazyStar, _ => reluctant [] bol s
  | Plus, c :: s' => if p c then greedy [c] false s' else None
  | Plus, [] => None
  | LazyPlus, c :: s' => if p c then reluctant [c] false s' else None
  | LazyPlus, [] => None
  end.
End Quantified.

Fixpoint seq_match (body : list (cls * quant)) (k : bool -> str -> mres)
  : bool -> str -> mres :=
  match body with
  | [] => k
  | (p, q) :: body' => quantified p (fun _ => seq_match body' k) q
  end.

Definition at_end (s : str) : bool := str_eqb s [] || str_eqb s [nl].

(** [bol] tells whether the position is the start of the subject. *)
Fixpoint rmatch (its : list item) (bol : bool) (s : str) : mres :=
  match its with
  | [] => Some (s, [])
  | Cls p q cap :: rest =>
      quantified p
        (fun g b s' =>
           match rmatch rest b s' with
           | Some (r, gs) => Some (r, if cap then g :: gs else gs)
           | None => None
           end) q bol s
  | OptSeq body :: rest =>
      match seq_match body (rmatch rest) bol s with
      | Some r => Some r
      | None => rmatch rest bol s
      end
  | Bol :: rest => if bol then rmatch rest bol s else None
  | Eol :: rest => if at_end s then rmatch rest bol s else None
  end.

(** [re.match(p, s)]: the groups of a match at the start of [s]. *)
Definition re_match (its : list item) (s : str) : option (list str) :=
  option_map snd (rmatch its true s).

Record found : Set := Found {
  before : str;
  matched : str;
  after : str;
  groups : list str
}.

Definition consumed (s rest : str) : str := firstn (length s - length rest) s.

Fixpoint search_from (its : list item) (bol : bool) (pre s : str) : option found :=
  match rmatch its bol s with
  | Some (rest, gs) => Some (Found pre (consumed s rest) rest gs)
  | None =>
      match s with
      | [] => None
      | c :: s' => search_from its false (pre ++ [c]) s'
      end
  end.

(** [re.search(p, s)]: the leftmost match. *)
Definition re_search (its : list item) (s : str) : option found :=
  search_from its true [] s.

(** The matches of [re.finditer(p, s)] and the characters between them,
    in order, for a pattern that matches no empty text; [skip] counts the
    characters of the last match that are still to be passed. *)
Inductive piece : Set :=
| Gap (c : ascii)
| Hit (m : str) (gs : list str).

Fixpoint pieces (its : list item) (bol : bool) (skip : nat) (s : str) : list piece :=
  match s with
  | [] => []
  | c :: s' =>
      match skip with
      | S n => pieces its false n s'
      | 0 =>
          match rmatch its bol s with
          | Some (rest, gs) =>
              match length s - length rest with
              | 0 => Gap c :: pieces its false 0 s'
              | S n => Hit (consumed s rest) gs :: pieces its false n s'
              end
          | None => Gap c :: pieces its false 0 s'
          end
      end
  end.

(** [re.findall(p, s)] for a pattern without a group, and for a pattern
    with one group. *)
Fixpoint hits (ps : list piece) : list (str * list str) :=
  match ps with
  | [] => []
  | Gap _ :: ps => hits ps
  | Hit m gs :: ps => (m, gs) :: hits ps
  end.

Definition re_findall (its : list item) (s : str) : list str :=
  map fst (hits (pieces its true 0 s)).

Definition re_findall1 (its : list item) (s : str) : list str :=
  map (fun h => hd [] (snd h)) (hits (pieces its true 0 s)).

(** [re.sub(p, repl, s)] for a replacement text without back-references. *)
Fixpoint sub_pieces (repl : str) (ps : list piece) : str :=
  match ps with
  | [] => []
  | Gap c :: ps => c :: sub_pieces repl ps
  | Hit _ _ :: ps => repl ++ sub_pieces repl ps
  end.

Definition re_sub (its : list item) (repl s : str) : str :=
  sub_pieces repl (pieces its true 0 s).

(** [re.split(p, s)] for a pattern that is one capture group: the texts
    between the matches, with each match after the text before it. *)
Fixpoint split_pieces (cur : str) (ps : list piece) : list str :=
  match ps with
  | [] => [cur]
  | Gap c :: ps => split_pieces (cur ++ [c]) ps
  | Hit m _ :: ps => cur :: m :: split_pieces [] ps
  end.

Definition re_split (its : list item) (s : str) : list str :=
  split_pieces [] (pieces its true 0 s).

(** ** The classes and patterns *)

Definition just (c : ascii) : cls := fun x => ceqb x c.
Definition other_than (c : ascii) : cls := fun x => negb (ceqb x c).
Definition any : cls := fun _ => true.
(** [.] without [re.DOTALL]. *)
Definition dot : cls := other_than nl.
(** A literal character under [re.IGNORECASE]. *)
Definition ci (c : ascii) : cls := fun x => ceqb (lower_char x) (lower_char c).

Definition chr (p : cls) : item := Cls p One false.
Definition word (s : str) : list item := map (fun c => chr (just c)) s.
Definition word_ci (s : str) : list item := map (fun c => chr (ci c)) s.

(** [\{[^}]+\}], also written [{[^}]+}]. *)
Definition re_placeholder : list item :=
  [chr (just "{"); Cls (other_than "}") Plus false; chr (just "}")].

(** [{([^}]+)}]. *)
Definition re_placeholder_name : list item :=
  [chr (just "{"); Cls (other_than "}") Plus true; chr (just "}")].

(** [\\{([^}]+)\\}]: a placeholder after [re.escape]. *)
Definition re_escaped_placeholder : list item :=
  [chr (just backslash); chr (just "{"); Cls (other_than "}") Plus true;
   chr (just backslash); chr (just "}")].

(** [\w+(?:'\w+)?]. *)
Definition re_token : list item :=
  [Cls isword Plus false; OptSeq [(just "'", One); (isword, Plus)]].

(** ** Regular expressions built at run time *)

Definition char_in (c : ascii) (s : str) : bool := existsb (ceqb c) s.

(** The characters [re.escape] puts a backslash before (Python 3.7 and
    later, the versions the package supports): the apostrophe is not one
    of them. *)
Definition re_special (c : ascii) : bool :=
  char_in c "()[]{}?*+-|^$\.&~# " || between 9 13 c.

Definition re_escape (s : str) : str :=
  flat_map (fun c => if re_special c then [backslash; c] else [c]) s.

(** The characters that are operators of a pattern when not escaped. *)
Definition re_meta (c : ascii) : bool := char_in c ".^$*+?{}[]\|()".

Definition isalnum (c : ascii) : bool := isupper c || islower c || isdigit c.

(** [re.compile(p, re.IGNORECASE)] for the patterns [_template_to_regex]
    and [_extract_entities_positional] build: literal characters, escaped
    or not, each possibly followed by [?], the group [(.+?)] and the two
    anchors.  [None] is a pattern outside this fragment. *)
Fixpoint re_compile (p : str) : option (list item) :=
  match p with
  | [] => Some []
  | c :: p1 =>
      if startswith "(.+?)" p then
        match p1 with
        | _ :: _ :: _ :: _ :: p5 =>
            option_map (cons (Cls dot LazyPlus true)) (re_compile p5)
        | _ => None
        end
      else if ceqb c backslash then
        match p1 with
        | d :: p2 =>
            if isalnum d then None
            else match p2 with
                 | q :: p3 =>
                     if ceqb q "?"
                     then option_map (cons (Cls (ci d) Opt false)) (re_compile p3)
                     else option_map (cons (Cls (ci d) One false)) (re_compile p2)
                 | [] => Some [Cls (ci d) One false]
                 end
        | [] => None
        end
      else if ceqb c "^" then option_map (cons Bol) (re_compile p1)
      else if ceqb c "$" then option_map (cons Eol) (re_compile p1)
      else if re_meta c then None
      else match p1 with
           | q :: p2 =>
               if ceqb q "?"
               then option_map (cons (Cls (ci c) Opt false)) (re_compile p2)
               else option_map (cons (Cls (ci c) One false)) (re_compile p1)
           | [] => Some [Cls (ci c) One false]
           end
  end.

(* ================================================================= *)
(** * Floats

    A Python [float] is a binary64 number.  It is represented by its
    value, a rational; every operation gives the exact result rounded to
    the nearest binary64 number, ties to the even significand, as IEEE 754
    has it.  The numbers of the code are counts, quotients of counts, and
    sums and products of those: none comes near the largest binary64
    number, and infinities are left out. *)

(** [2 ** e]. *)
Definition pow2 (e : Z) : Q := Qpower 2 e.

(** The exponent of a positive number: [pow2 (mag x) <= x < pow2 (mag x + 1)]. *)
Definition mag (x : Q) : Z :=
  let e := (Z.log2 (Qnum x) - Z.log2 (Zpos (Qden x)))%Z in
  if Qle_bool (pow2 e) x then e else (e - 1)%Z.

(** The nearest integer, the even one of two that are as near. *)
Definition nearest_even (x : Q) : Z :=
  let f := Qfloor x in
  match (x - inject_Z f ?= 1 # 2)%Q with
  | Lt => f
  | Gt => (f + 1)%Z
  | Eq => if Z.even f then f else (f + 1)%Z
  end.

(** The exponent of the last bit of the significand: 53 bits, and the
    bits of the subnormal numbers end at [2 ** -1074]. *)
Definition cexp (x : Q) : Z := Z.max (mag x - 52) (-1074).

Definition round64_pos (x : Q) : Q :=
  Qred (inject_Z (nearest_even (x / pow2 (cexp x))) * pow2 (cexp x))%Q.

Definition round64 (x : Q) : Q :=
  match (x ?= 0)%Q with
  | Eq => 0%Q
  | Gt => round64_pos x
  | Lt => (- round64_pos (- x))%Q
  end.

(** A literal, written in decimal. *)
Definition f64 (literal : Q) : Q := round64 literal.

(** [float(n)] for an [int], as an operation on an [int] and a [float]
    does first. *)
Definition float_of_nat (n : nat) : Q := round64 (inject_Z (Z.of_nat n)).

Definition fadd (a b : Q) : Q := round64 (a + b)%Q.
Definition fsub (a b : Q) : Q := round64 (a - b)%Q.
Definition fmul (a b : Q) : Q := round64 (a * b)%Q.
(** [a / b] for a [b] that is not zero. *)
Definition fdiv (a b : Q) : Q := round64 (a / b)%Q.

(** The binary64 numbers of the Standard Library ([SpecFloat], the
    operations of IEEE 754 on significands and exponents), to compare
    [round64] with: the value of such a number, and the number of an
    integer. *)
Definition value_of (f : SpecFloat.spec_float) : Q :=
  match f with
  | SpecFloat.S754_finite s m e =>
      Qred ((if s then -1 else 1) * inject_Z (Zpos m) * pow2 e)%Q
  | _ => 0%Q
  end.

Definition binary64_of_Z (n : Z) : SpecFloat.spec_float :=
  SpecFloat.binary_normalize 53 1024 n 0 false.

(** [sum(l)]: from the [int] zero, one number after the other.  (So do the
    versions of Python the package declares, 3.8 to 3.10; from 3.12 on
    [sum] carries a compensation along.) *)
Definition fsum (l : list Q) : Q := fold_left fadd l 0%Q.

(* ================================================================= *)
(** * [difflib.SequenceMatcher(None, a, b).ratio()]

    The library's algorithm on two sequences: the longest block of equal
    elements that starts earliest in [a], and of those earliest in [b],
    then the same to the left and to the right of it; the ratio is twice
    the number of matched elements over the two lengths.  In a [b] of 200
    elements or more, the elements that make up more than one percent of
    it plus one are "popular": a block is not found through them, only
    extended over them. *)

Section SequenceMatcher.
Variable A : Type.
Variable eqb : A -> A -> bool.
Variable popular : A -> bool.

(** The equal elements at the start of [a] and [b], up to the first
    popular one. *)
Fixpoint chain (a b : list A) : nat :=
  match a, b with
  | x :: a', y :: b' =>
      if eqb x y && negb (popular y) then S (chain a' b') else 0
  | _, _ => 0
  end.

Fixpoint common_prefix (a b : list A) : nat :=
  match a, b with
  | x :: a', y :: b' => if eqb x y then S (common_prefix a' b') else 0
  | _, _ => 0
  end.

Definition block : Set := (nat * nat * nat)%type.
Definition size (m : block) : nat := snd m.

(** The starts [j], [j+1], ... in [b] for the start [i] in [a]: a block
    replaces the best one only when it is longer. *)
Fixpoint scan_b (a b : list A) (i j : nat) (best : block) : block :=
  match b with
  | [] => best
  | _ :: b' =>
      let k := chain a b in
      scan_b a b' i (S j) (if size best <? k then (i, j, k) else best)
  end.

Fixpoint scan_a (a b : list A) (i : nat) (best : block) : block :=
  match a with
  | [] => best
  | _ :: a' => scan_a a' b (S i) (scan_b a b i 0 best)
  end.

Definition find_longest_match (a b : list A) : block :=
  let '(i, j, k) := scan_a a b 0 (0, 0, 0) in
  let left := common_prefix (rev (firstn i a)) (rev (firstn j b)) in
  let right := common_prefix (skipn (i + k) a) (skipn (j + k) b) in
  (i - left, j - left, k + left + right).

(** The sum of the sizes of [get_matching_blocks()]. *)
Fixpoint matching (fuel : nat) (a b : list A) : nat :=
  match fuel with
  | 0 => 0
  | S fuel' =>
      let '(i, j, k) := find_longest_match a b in
      if k =? 0 then 0
      else matching fuel' (firstn i a) (firstn j b) + k
           + matching fuel' (skipn (i + k) a) (skipn (j + k) b)
  end.
End SequenceMatcher.

Definition popular_in (A : Type) (eqb : A -> A -> bool) (b : list A) (x : A) : bool :=
  (200 <=? length b) && (length b / 100 + 1 <? length (filter (eqb x) b)).

Definition matches (A : Type) (eqb : A -> A -> bool) (a b : list A) : nat :=
  matching eqb (popular_in eqb b) (S (length a)) a b.

(** [2.0 * matches / length], and [1.0] for two empty sequences. *)
Definition ratio (A : Type) (eqb : A -> A -> bool) (a b : list A) : Q :=
  match (length a + length b)%nat with
  | O => 1%Q
  | S _ as len =>
      fdiv (fmul 2 (float_of_nat (matches eqb a b))) (float_of_nat len)
  end.

(* ================================================================= *)
(** * Exceptions, dictionaries *)

Inductive exn : Set :=
| ValidationError (message : str)
| SPARQLError (message : str) (sparql_query : option str)
| ReError (pattern : str)
| StopIteration.

(** [str(e)]. *)
Definition exn_message (e : exn) : str :=
  match e with
  | ValidationError m => m
  | SPARQLError m _ => m
  | ReError p => "bad pattern " ++ p
  | StopIteration => []
  end.

Inductive outcome (A : Type) : Type :=
| Ok (a : A)
| Err (e : exn).
Arguments Ok {A} a.
Arguments Err {A} e.

Definition bind (A B : Type) (m : outcome A) (k : A -> outcome B) : outcome B :=
  match m with
  | Ok a => k a
  | Err e => Err e
  end.

Notation "x <- m ;; k" := (bind m (fun x => k))
  (at level 61, m at next level, right associativity).

(** A [Dict[str, str]], in insertion order. *)
Definition dict : Set := list (str * str).

(** [d[k] = v]: a key that is present keeps its place. *)
Fixpoint dict_set (k v : str) (d : dict) : dict :=
  match d with
  | [] => [(k, v)]
  | (k', v') :: d' =>
      if str_eqb k' k then (k, v) :: d' else (k', v') :: dict_set k v d'
  end.

Fixpoint dict_get (k : str) (d : dict) : option str :=
  match d with
  | [] => None
  | (k', v) :: d' => if str_eqb k' k then Some v else dict_get k d'
  end.

(** The loop that keeps the first occurrence of every element. *)
Fixpoint unique_from (seen : list str) (l : list str) : list str :=
  match l with
  | [] => []
  | s :: l' =>
      if mem s seen then unique_from seen l'
      else s :: unique_from (s :: seen) l'
  end.

Definition unique (l : list str) : list str := unique_from [] l.

Definition Qlt_bool (a b : Q) : bool := negb (Qle_bool b a).

Definition Qnat (n : nat) : Q := inject_Z (Z.of_nat n).

(* ================================================================= *)
(** * core/entities.py *)

Record Pattern : Set := {
  pattern_id : str;
  template : str;
  sparql_template : str;
  entity_types : dict;
  examples : list str;
  pattern_confidence : Q;
  domain_class : str;
  property : str;
  keywords : list str
}.

Definition _has_entity_placeholders (template : str) : bool :=
  match re_search re_placeholder template with
  | Some _ => true
  | None => false
  end.

Definition stop_words : list str :=
  ["the"; "and"; "or"; "but"; "in"; "on"; "at"; "to"; "for"; "of"; "with";
   "by"; "a"; "an"].

Definition _extract_keywords (template : str) : list str :=
  let text := re_sub re_placeholder [] template in
  let words :=
    map (fun w => strip (lower w))
        (filter (fun w => negb (str_eqb (strip w) [])) (split_ws text)) in
  filter (fun w => (2 <? length w) && negb (mem w stop_words)) words.

Definition Pattern_validate (p : Pattern) : outcome unit :=
  if str_eqb (pattern_id p) [] then
    Err (ValidationError "Pattern ID cannot be empty")
  else if negb (_has_entity_placeholders (template p)) then
    Err (ValidationError
           ("Pattern " ++ pattern_id p ++ " has no entity placeholders"))
  else if negb (Qle_bool 0 (pattern_confidence p)
                && Qle_bool (pattern_confidence p) 1) then
    Err (ValidationError
           ("Pattern " ++ pattern_id p
            ++ " confidence must be between 0.0 and 1.0"))
  else if match examples p with [] => true | _ => false end then
    Err (ValidationError
           ("Pattern " ++ pattern_id p ++ " must have at least one example"))
  else if str_eqb (strip (sparql_template p)) [] then
    Err (ValidationError
           ("Pattern " ++ pattern_id p ++ " must have SPARQL template"))
  else Ok tt.

(** [Pattern(id, template, ...)]: [__post_init__] derives the keywords and
    validates. *)
Definition new_Pattern (id template sparql_template : str) (entity_types : dict)
    (examples : list str) (confidence : Q) (domain_class property : str)
  : outcome Pattern :=
  let p := {| pattern_id := id; template := template;
              sparql_template := sparql_template;
              entity_types := entity_types; examples := examples;
              pattern_confidence := confidence;
              domain_class := domain_class; property := property;
              keywords := _extract_keywords template |} in
  _ <- Pattern_validate p ;; Ok p.

Record Grammar : Set := {
  patterns : list Pattern;
  ontology_hash : str;
  namespaces : dict;
  created_at : str
}.

Definition str_eq_dec : forall s t : str, {s = t} + {s <> t} :=
  list_eq_dec ascii_dec.

(** [len(pattern_ids) != len(set(pattern_ids))] decides the third check. *)
Definition Grammar_validate (g : Grammar) : outcome unit :=
  match patterns g with
  | [] => Err (ValidationError "Grammar must contain at least one pattern")
  | _ =>
      if str_eqb (ontology_hash g) [] then
        Err (ValidationError "Grammar must have ontology hash")
      else
        let pattern_ids := map pattern_id (patterns g) in
        if negb (length pattern_ids =? length (nodup str_eq_dec pattern_ids))
        then Err (ValidationError "Grammar contains duplicate pattern IDs")
        else Ok tt
  end.

Definition new_Grammar (patterns : list Pattern) (ontology_hash : str)
    (namespaces : dict) (created_at : str) : outcome Grammar :=
  let g := {| patterns := patterns; ontology_hash := ontology_hash;
              namespaces := namespaces; created_at := created_at |} in
  _ <- Grammar_validate g ;; Ok g.

Record MatchResult : Set := {
  pattern : Pattern;
  confidence : Q;
  entities : dict;
  match_type : str
}.

Definition new_MatchResult (pattern : Pattern) (confidence : Q)
    (entities : dict) (match_type : str) : outcome MatchResult :=
  if negb (Qle_bool 0 confidence && Qle_bool confidence 1) then
    Err (ValidationError "Match confidence must be between 0.0 and 1.0")
  else if negb (mem match_type ["exact"; "fuzzy"; "partial"]) then
    Err (ValidationError ("Invalid match type: " ++ match_type))
  else Ok {| pattern := pattern; confidence := confidence;
             entities := entities; match_type := match_type |}.

Record QueryRequest : Set := {
  input_text : str;
  profile : option str;
  debug : bool;
  show_sparql : bool;
  limit : option Z;
  named_graphs : option (list str);
  default_graph : option str
}.

Definition new_QueryRequest (input_text : str) (profile : option str)
    (debug show_sparql : bool) (limit : option Z)
    (named_graphs : option (list str)) (default_graph : option str)
  : outcome QueryRequest :=
  if str_eqb (strip input_text) [] then
    Err (ValidationError "Query input cannot be empty")
  else if match limit with Some n => (n <=? 0)%Z | None => false end then
    Err (ValidationError "Limit must be positive")
  else Ok {| input_text := input_text; profile := profile; debug := debug;
             show_sparql := show_sparql; limit := limit;
             named_graphs := named_graphs; default_graph := default_graph |}.

Record DebugInfo : Set := {
  matched_pattern : str;
  debug_confidence : Q;
  debug_match_type : str;
  extracted_entities : dict;
  debug_pattern_id : str;
  sparql_complexity : nat
}.

Record QueryResponse : Set := {
  success : bool;
  response_sparql_query : option str;
  results : option (list dict);
  execution_time : Q;
  error_message : option str;
  suggestions : option (list str);
  debug_info : option DebugInfo
}.

Record SPARQLQuery : Set := {
  query_text : str;
  variables : list str;
  estimated_complexity : nat;
  optimization_applied : bool
}.

Definition new_SPARQLQuery (query_text : str) (variables : list str)
    (estimated_complexity : nat) (optimization_applied : bool)
  : outcome SPARQLQuery :=
  if str_eqb (strip query_text) [] then
    Err (ValidationError "SPARQL query text cannot be empty")
  else Ok {| query_text := query_text; variables := variables;
             estimated_complexity := estimated_complexity;
             optimization_applied := optimization_applied |}.

(* ================================================================= *)
(** * core/matcher.py *)

Definition _tokenize (text : str) : list str :=
  re_findall re_token (lower text).

Inductive token : Set :=
| PlaceholderTok (name text : str)
| WordTok (text : str).

(** [part[1:-1]]. *)
Definition inner (part : str) : str := removelast (tl part).

Definition is_placeholder_part (part : str) : bool :=
  startswith "{" part && endswith "}" part.

Definition _tokenize_template (template : str) : list token :=
  flat_map
    (fun part =>
       if str_eqb (strip part) [] then []
       else if is_placeholder_part part then [PlaceholderTok (inner part) part]
       else map WordTok (_tokenize part))
    (re_split re_placeholder template).

(** [[t['text'] for t in pattern_tokens if t['type'] == 'word']]. *)
Definition words_of (pattern_tokens : list token) : list str :=
  flat_map (fun t => match t with WordTok w => [w] | _ => [] end)
           pattern_tokens.

Definition placeholders_of (pattern_tokens : list token) : list str :=
  flat_map (fun t => match t with PlaceholderTok n _ => [n] | _ => [] end)
           pattern_tokens.

(** The loop over [enumerate(pattern_words)]: the word at a position past
    the end of the input scores [0.0]. *)
Fixpoint word_similarities (input_tokens pattern_words : list str) : list Q :=
  match pattern_words with
  | [] => []
  | w :: ws =>
      match input_tokens with
      | t :: ts => ratio ceqb t w :: word_similarities ts ws
      | [] => 0%Q :: word_similarities [] ws
      end
  end.

Definition _calculate_token_similarity (input_tokens : list str)
    (pattern_tokens : list token) : Q :=
  let pattern_words := words_of pattern_tokens in
  match pattern_words with
  | [] => 0%Q
  | _ =>
      let seq_similarity :=
        ratio str_eqb (firstn (length pattern_words) input_tokens)
              pattern_words in
      let sims := word_similarities input_tokens pattern_words in
      let avg_word_similarity :=
        match sims with
        | [] => 0%Q
        | _ => fdiv (fsum sims) (float_of_nat (length sims))
        end in
      fadd (fmul (f64 0.4) seq_similarity) (fmul (f64 0.6) avg_word_similarity)
  end.

(** The quotient of two [int]s is the nearest binary64 number to it. *)
Definition _calculate_keyword_similarity (input_tokens keywords : list str) : Q :=
  match keywords with
  | [] => 0%Q
  | _ =>
      let matches := length (filter (fun k => mem k input_tokens) keywords) in
      fdiv (Qnat matches) (Qnat (length keywords))
  end.

Definition _template_to_regex (template : str) : str :=
  let regex := re_escape template in
  let regex := re_sub re_escaped_placeholder "(.+?)" regex in
  let regex := replace "\'s" "'?s?" regex in
  "^" ++ regex ++ "$".

(** The loop that fills [entities] from the groups of a match. *)
Fixpoint fill_entities (placeholders groups : list str) (entities : dict) : dict :=
  match placeholders, groups with
  | ph :: phs, g :: gs => fill_entities phs gs (dict_set ph (strip g) entities)
  | _, _ => entities
  end.

Definition _extract_entities_from_match (groups : list str) (template : str) : dict :=
  let placeholders := re_findall1 re_placeholder_name template in
  fill_entities placeholders groups [].

(** [re.match(regex, text, re.IGNORECASE)] on a pattern text. *)
Definition match_text (regex text : str) : outcome (option (list str)) :=
  match re_compile regex with
  | Some its => Ok (re_match its text)
  | None => Err (ReError regex)
  end.

(** [re.search(regex, text, re.IGNORECASE)] on a pattern text. *)
Definition search_text (regex text : str) : outcome (option (list str)) :=
  match re_compile regex with
  | Some its => Ok (option_map groups (re_search its text))
  | None => Err (ReError regex)
  end.

Definition _extract_entities_positional (input_text : str) (p : Pattern)
  : outcome dict :=
  let template_parts := re_split re_placeholder (template p) in
  let placeholders :=
    flat_map (fun part => if is_placeholder_part part then [inner part] else [])
             template_parts in
  let regex_parts :=
    flat_map (fun part =>
                if is_placeholder_part part then ["(.+?)"]
                else match part with
                     | [] => []
                     | _ => [re_escape part]
                     end)
             template_parts in
  match placeholders with
  | [] => Ok []
  | _ =>
      m <- search_text (concat regex_parts) input_text ;;
      match m with
      | Some gs => Ok (fill_entities placeholders gs [])
      | None => Ok []
      end
  end.

Definition extract_entities (input_text : str) (p : Pattern) : outcome dict :=
  m <- match_text (_template_to_regex (template p)) input_text ;;
  match m with
  | Some gs => Ok (_extract_entities_from_match gs (template p))
  | None => _extract_entities_positional input_text p
  end.

Definition _reconstruct_entity_from_tokens (original_text : str)
    (tokens : list str) : str :=
  let first_token := hd [] tokens in
  let original_lower := lower original_text in
  match find (lower first_token) original_lower with
  | Some token_pos =>
      let remaining_text := skipn token_pos original_text in
      let words := split_ws remaining_text in
      if length tokens <=? length words
      then join " " (firstn (length tokens) words)
      else join " " tokens
  | None => join " " tokens
  end.

(** The two nested loops that look for the input token most similar to a
    word of the pattern: the state is [(best_match_idx, best_similarity)]. *)
Definition best_step (pattern_word : str) (st : option nat * Q)
    (j : nat) (input_token : str) : option nat * Q :=
  let similarity := ratio ceqb input_token pattern_word in
  if Qlt_bool (snd st) similarity && Qlt_bool (f64 0.6) similarity
  then (Some j, similarity) else st.

Fixpoint best_inner (pattern_word : str) (st : option nat * Q) (j : nat)
    (input_tokens : list str) : option nat * Q :=
  match input_tokens with
  | [] => st
  | t :: ts => best_inner pattern_word (best_step pattern_word st j t) (S j) ts
  end.

Definition best_match (pattern_words input_tokens : list str) : option nat * Q :=
  fold_left (fun st w => best_inner w st 0 input_tokens) pattern_words
            (None, 0%Q).

Definition _extract_entities_fuzzy_flexible (input_text : str) (p : Pattern)
  : dict :=
  let input_tokens := _tokenize input_text in
  let pattern_tokens := _tokenize_template (template p) in
  let placeholders := placeholders_of pattern_tokens in
  match placeholders with
  | [] => []
  | ph :: _ =>
      let pattern_words := words_of pattern_tokens in
      if (length placeholders =? 1) && (1 <=? length pattern_words) then
        match fst (best_match pattern_words input_tokens) with
        | Some best_match_idx =>
            if S best_match_idx <? length input_tokens then
              let entity_tokens := skipn (S best_match_idx) input_tokens in
              match entity_tokens with
              | [] => []
              | _ =>
                  [(ph, _reconstruct_entity_from_tokens input_text entity_tokens)]
              end
            else []
        | None => []
        end
      else []
  end.

Definition _extract_entities_fuzzy (input_text : str) (p : Pattern)
  : outcome dict :=
  entities <- _extract_entities_positional input_text p ;;
  match entities with
  | [] => Ok (_extract_entities_fuzzy_flexible input_text p)
  | _ => Ok entities
  end.

Section PatternMatcher.
Variable similarity_threshold : Q.

Definition _try_exact_match (input_text : str) (p : Pattern)
  : outcome (option MatchResult) :=
  let regex_pattern := _template_to_regex (template p) in
  m <- match_text regex_pattern input_text ;;
  match m with
  | Some gs =>
      let entities := _extract_entities_from_match gs (template p) in
      r <- new_MatchResult p 1.0 entities "exact" ;; Ok (Some r)
  | None => Ok None
  end.

Definition _try_fuzzy_match (input_text : str) (p : Pattern)
  : outcome (option MatchResult) :=
  let input_tokens := _tokenize input_text in
  let pattern_tokens := _tokenize_template (template p) in
  let similarity := _calculate_token_similarity input_tokens pattern_tokens in
  if Qle_bool similarity_threshold similarity then
    entities <- _extract_entities_fuzzy input_text p ;;
    r <- new_MatchResult p similarity entities "fuzzy" ;; Ok (Some r)
  else Ok None.

Definition _match_pattern (input_text : str) (p : Pattern)
  : outcome (option MatchResult) :=
  exact_match <- _try_exact_match input_text p ;;
  match exact_match with
  | Some r => Ok (Some r)
  | None => _try_fuzzy_match input_text p
  end.

(** The loop of [find_matches] over [grammar.patterns]. *)
Fixpoint collect_matches (input_text : str) (ps : list Pattern)
  : outcome (list MatchResult) :=
  match ps with
  | [] => Ok []
  | p :: ps' =>
      match_result <- _match_pattern input_text p ;;
      rest <- collect_matches input_text ps' ;;
      Ok match match_result with
         | Some r =>
             if Qle_bool similarity_threshold (confidence r)
             then r :: rest else rest
         | None => rest
         end
  end.

(** [matches.sort(key=lambda m: m.confidence, reverse=True)]: the sort
    is stable, results of equal confidence keep their order. *)
Fixpoint insert_desc (m : MatchResult) (l : list MatchResult)
  : list MatchResult :=
  match l with
  | [] => [m]
  | x :: l' =>
      if Qlt_bool (confidence m) (confidence x)
      then x :: insert_desc m l' else m :: l
  end.

Definition sort_desc (l : list MatchResult) : list MatchResult :=
  fold_right insert_desc [] l.

Definition find_matches (input_text : str) (grammar : Grammar)
  : outcome (list MatchResult) :=
  matches <- collect_matches input_text (patterns grammar) ;;
  Ok (sort_desc matches).

(** The suggestions one pattern adds. *)
Definition suggestions_of (input_tokens : list str) (p : Pattern) : list str :=
  (match keywords p with
   | [] => []
   | _ =>
       if Qlt_bool (f64 0.3) (_calculate_keyword_similarity input_tokens (keywords p))
       then firstn 2 (examples p) else []
   end)
  ++
  (let pattern_words := _tokenize (lower (template p)) in
   if existsb (fun t => mem t pattern_words) input_tokens
   then firstn 1 (examples p) else []).

Definition suggest_corrections (input_text : str) (grammar : Grammar)
  : list str :=
  let input_tokens := _tokenize (lower input_text) in
  let suggestions := flat_map (suggestions_of input_tokens) (patterns grammar) in
  firstn 5 (unique suggestions).
End PatternMatcher.

(* ================================================================= *)
(** * core/builder.py *)

(** The pattern of [_add_graph_clauses] with [re.DOTALL | re.IGNORECASE]:
    WHERE, any whitespace, an opening brace, a greedy group of any
    characters, a closing brace. *)
Definition re_where : list item :=
  word_ci "WHERE"
  ++ [Cls isspace Star false; chr (just "{"); Cls any Star true; chr (just "}")].

(** The pattern "SELECT\s+(.*?)\s+WHERE" with [re.IGNORECASE | re.DOTALL]. *)
Definition re_select : list item :=
  word_ci "SELECT"
  ++ [Cls isspace Plus false; Cls any LazyStar true; Cls isspace Plus false]
  ++ word_ci "WHERE".

(** [\?(\w+)]. *)
Definition re_variable : list item := [chr (just "?"); Cls isword Plus true].

(** [\?[\w]+\s+[\w:]+\s+\?[\w]+]. *)
Definition re_triple : list item :=
  [chr (just "?"); Cls isword Plus false; Cls isspace Plus false;
   Cls (fun c => isword c || ceqb c ":") Plus false; Cls isspace Plus false;
   chr (just "?"); Cls isword Plus false].

(** The pattern "\s+LIMIT\s+\d+\s*$" with [re.IGNORECASE]. *)
Definition re_limit : list item :=
  [Cls isspace Plus false]
  ++ word_ci "LIMIT"
  ++ [Cls isspace Plus false; Cls isdigit Plus false; Cls isspace Star false; Eol].

Definition _escape_sparql_string (value : str) : str :=
  let value := replace [backslash] [backslash; backslash] value in
  let value := replace [dquote] [backslash; dquote] value in
  let value := replace [nl] "\n" value in
  let value := replace [cr] "\r" value in
  let value := replace [tab] "\t" value in
  value.

Definition validate_sparql (sparql : str) : bool :=
  let sparql_upper := upper sparql in
  if negb (existsb (fun keyword => contains keyword sparql_upper)
                   ["SELECT"; "CONSTRUCT"; "ASK"; "DESCRIBE"]) then false
  else if contains "SELECT" sparql_upper && negb (contains "WHERE" sparql_upper)
  then false
  else if negb (count "{" sparql =? count "}" sparql) then false
  else if negb (count "(" sparql =? count ")" sparql) then false
  else true.

Definition add_limit (sparql : str) (limit : Z) : str :=
  let sparql := re_sub re_limit [] sparql in
  let sparql := rstrip sparql in
  let sparql :=
    if negb (endswith "}" sparql) then
      match rfind "}" sparql with
      | Some last_brace => firstn (last_brace + 1) sparql
      | None => sparql
      end
    else sparql in
  sparql ++ [nl] ++ "LIMIT " ++ str_of_Z limit.

(** The three lists the loop of [optimize_query] fills. *)
Fixpoint classify_lines (in_where : bool) (lines : list str)
  : list str * list str * list str :=
  match lines with
  | [] => ([], [], [])
  | line :: lines' =>
      let line_stripped := strip line in
      if contains "WHERE" line_stripped then
        let '(filters, patterns, other) := classify_lines true lines' in
        (filters, patterns, line :: other)
      else if in_where && startswith "FILTER" line_stripped then
        let '(filters, patterns, other) := classify_lines in_where lines' in
        (line :: filters, patterns, other)
      else if in_where && (startswith "?" line_stripped
                           || startswith "<" line_stripped) then
        let '(filters, patterns, other) := classify_lines in_where lines' in
        (filters, line :: patterns, other)
      else
        let '(filters, patterns, other) := classify_lines in_where lines' in
        (filters, patterns, line :: other)
  end.

(** [next(i for i, line in enumerate(other) if 'WHERE' in line)]. *)
Fixpoint where_index (other : list str) : outcome nat :=
  match other with
  | [] => Err StopIteration
  | line :: other' =>
      if contains "WHERE" line then Ok 0
      else i <- where_index other' ;; Ok (S i)
  end.

(** The [while] loop that moves [remaining_start] forward. *)
Fixpoint skip_blank_or_brace (l : list str) : list str :=
  match l with
  | line :: l' =>
      if mem (strip line) [[]; "}"] then skip_blank_or_brace l' else l
  | [] => []
  end.

Definition optimize_query (sparql : str) : outcome str :=
  let lines := split_on nl sparql in
  let '(filters, patterns, other) := classify_lines false lines in
  match filters, patterns with
  | _ :: _, _ :: _ =>
      where_idx <- where_index other ;;
      let result := firstn (where_idx + 1) other ++ patterns ++ filters in
      let remaining := skip_blank_or_brace (skipn (where_idx + 1) other) in
      Ok (join [nl] (result ++ remaining))
  | _, _ => Ok sparql
  end.

Section SPARQLBuilder.
(** [self.namespaces]. *)
Variable builder_namespaces : dict.

Definition _add_namespaces (sparql : str) : str :=
  match builder_namespaces with
  | [] => sparql
  | _ =>
      let has_prefixes := contains "PREFIX" (upper sparql) in
      if negb has_prefixes then
        let prefix_lines :=
          map (fun ns => "PREFIX " ++ fst ns ++ ": <" ++ snd ns ++ ">")
              builder_namespaces in
        join [nl] prefix_lines ++ [nl] ++ sparql
      else sparql
  end.

Definition _extract_variables (sparql : str) : list str :=
  match re_search re_select sparql with
  | Some select_match =>
      let select_clause := hd [] (groups select_match) in
      if contains "*" select_clause
      then unique (re_findall1 re_variable sparql)
      else unique (re_findall1 re_variable select_clause)
  | None => []
  end.

(** A list or a text that is given and not empty. *)
Definition given_list (l : option (list str)) : list str :=
  match l with Some l => l | None => [] end.
Definition given_text (s : option str) : list str :=
  match s with Some (c :: s) => [c :: s] | _ => [] end.

Definition graphs_to_query (named_graphs : option (list str))
    (default_graph : option str) : list str :=
  given_text default_graph ++ given_list named_graphs.

Definition graph_block (where_content graph : str) : str :=
  let indented_content := join ([nl] ++ "    ") (split_on nl where_content) in
  "  {" ++ [nl] ++ "    GRAPH <" ++ graph ++ "> {" ++ [nl] ++ "      "
  ++ indented_content ++ [nl] ++ "    }" ++ [nl] ++ "  }".

Definition _add_graph_clauses (sparql : str) (named_graphs : option (list str))
    (default_graph : option str) : str :=
  match graphs_to_query named_graphs default_graph with
  | [] => sparql
  | graphs =>
      match re_search re_where sparql with
      | None => sparql
      | Some where_match =>
          let where_content := strip (hd [] (groups where_match)) in
          let new_where :=
            match graphs with
            | [graph] =>
                [nl] ++ "  GRAPH <" ++ graph ++ "> {" ++ [nl] ++ "    "
                ++ where_content ++ [nl] ++ "  }" ++ [nl]
            | _ =>
                [nl]
                ++ join ([nl] ++ "  UNION" ++ [nl])
                        (map (graph_block where_content) graphs)
                ++ [nl]
            end in
          before where_match ++ "WHERE {" ++ new_where ++ "}"
          ++ after where_match
      end
  end.

Definition _estimate_complexity (sparql : str) : nat :=
  let complexity := 1 in
  let triple_count := length (re_findall re_triple sparql) in
  let complexity := if 3 <? triple_count then complexity + 1 else complexity in
  let complexity := if 5 <? triple_count then complexity + 1 else complexity in
  let complexity :=
    if contains "FILTER" (upper sparql) then complexity + 1 else complexity in
  let complexity :=
    if contains "OPTIONAL" (upper sparql) then complexity + 1 else complexity in
  let complexity :=
    if existsb (fun func => contains func (upper sparql))
               ["COUNT"; "SUM"; "AVG"; "MIN"; "MAX"]
    then complexity + 1 else complexity in
  Nat.min complexity 5.

(** The loop that puts the entity values into the template. *)
Definition substitute (sparql : str) (entities : dict) : str :=
  fold_left
    (fun sparql e =>
       replace ("{" ++ fst e ++ "}") (_escape_sparql_string (snd e)) sparql)
    entities sparql.

(** The text before the graph clauses: the template with the entity
    values and the prefixes. *)
Definition prefixed_text (match_result : MatchResult) : str :=
  let sparql := sparql_template (pattern match_result) in
  let sparql := substitute sparql (entities match_result) in
  _add_namespaces sparql.

(** The text [build_query] validates. *)
Definition built_text (match_result : MatchResult)
    (named_graphs : option (list str)) (default_graph : option str) : str :=
  let sparql := prefixed_text match_result in
  match graphs_to_query named_graphs default_graph with
  | [] => sparql
  | _ => _add_graph_clauses sparql named_graphs default_graph
  end.

(** The [except] clause: a [SPARQLError] is raised again, any other
    exception is wrapped in one. *)
Definition reraise (A : Type) (r : outcome A) : outcome A :=
  match r with
  | Ok a => Ok a
  | Err (SPARQLError m q) => Err (SPARQLError m q)
  | Err e =>
      Err (SPARQLError ("Failed to build SPARQL query: " ++ exn_message e) None)
  end.

Definition build_query (match_result : MatchResult)
    (named_graphs : option (list str)) (default_graph : option str)
  : outcome SPARQLQuery :=
  reraise
    (let sparql := built_text match_result named_graphs default_graph in
     let variables := _extract_variables sparql in
     if negb (validate_sparql sparql) then
       Err (SPARQLError
              ("Invalid SPARQL generated: " ++ firstn 100 sparql ++ "...")
              None)
     else
       new_SPARQLQuery sparql variables (_estimate_complexity sparql) false).
End SPARQLBuilder.

(* ================================================================= *)
(** * services/query.py *)

(** A [QueryService] that is ready: its grammar is loaded, its matcher has
    the threshold 0.7 and its builder the service's namespaces. *)
Record QueryService : Set := {
  service_namespaces : dict;
  grammar : Grammar
}.

Definition service_threshold : Q := f64 0.7.

(** [clock] is what [time.time()] returns at the start and at the end. *)
Definition process_query (self : QueryService) (clock : Q * Q)
    (request : QueryRequest) : QueryResponse :=
  let elapsed := fsub (snd clock) (fst clock) in
  let body : outcome QueryResponse :=
    matches <- find_matches service_threshold (input_text request) (grammar self) ;;
    match matches with
    | [] =>
        let suggestions := suggest_corrections (input_text request) (grammar self) in
        Ok {| success := false;
              response_sparql_query := None;
              results := None;
              execution_time := elapsed;
              error_message :=
                Some ("Could not understand query: " ++ input_text request);
              suggestions := Some suggestions;
              debug_info := None |}
    | best_match :: _ =>
        sparql_query <- build_query (service_namespaces self) best_match
                          (named_graphs request) (default_graph request) ;;
        let text :=
          match limit request with
          | Some n =>
              if (n =? 0)%Z then query_text sparql_query
              else add_limit (query_text sparql_query) n
          | None => query_text sparql_query
          end in
        let info :=
          if debug request then
            Some {| matched_pattern := template (pattern best_match);
                    debug_confidence := confidence best_match;
                    debug_match_type := match_type best_match;
                    extracted_entities := entities best_match;
                    debug_pattern_id := pattern_id (pattern best_match);
                    sparql_complexity := estimated_complexity sparql_query |}
          else None in
        Ok {| success := true;
              response_sparql_query :=
                if show_sparql request || debug request then Some text else None;
              results := None;
              execution_time := elapsed;
              error_message := None;
              suggestions := None;
              debug_info := info |}
    end in
  match body with
  | Ok response => response
  | Err e =>
      {| success := false;
         response_sparql_query := None;
         results := None;
         execution_time := elapsed;
         error_message := Some (exn_message e);
         suggestions := None;
         debug_info := None |}
  end.

(* ================================================================= *)
(** * Notions the statements use *)

(** A character an item of a pattern can consume. *)
Definition consumes (it : item) (c : ascii) : bool :=
  match it with
  | Cls p _ _ => p c
  | OptSeq body => existsb (fun pq => fst pq c) body
  | _ => false
  end.

Definition allowed (its : list item) (c : ascii) : bool :=
  existsb (fun it => consumes it c) its.

(** [g] is a part of [s]: a slice of it, character for character. *)
Definition infix (g s : str) : Prop := exists a b, s = a ++ g ++ b.

Fixpoint eol_last (its : list item) : bool :=
  match its with
  | [] => false
  | [Eol] => true
  | _ :: rest => eol_last rest
  end.

(** No closing brace in a text. *)
Definition no_brace (s : str) : bool := forallb (fun c => negb (ceqb c "}")) s.

(** How many characters a quantifier lets its class consume. *)
Definition quant_ok (q : quant) (g : str) : Prop :=
  match q with
  | One => length g = 1
  | Opt => length g <= 1
  | Plus | LazyPlus => g <> []
  | Star | LazyStar => True
  end.

(** What [validate_sparql] checks, in the words of the specification; the
    key words are looked for in the text in upper case. *)
Definition structurally_valid (s : str) : Prop :=
  (exists keyword, In keyword ["SELECT"; "CONSTRUCT"; "ASK"; "DESCRIBE"] /\
                   contains keyword (upper s) = true) /\
  (contains "SELECT" (upper s) = true -> contains "WHERE" (upper s) = true) /\
  count "{" s = count "}" s /\
  count "(" s = count ")" s.

(** An error carries a text when the text is its [sparql_query] or a part
    of its message. *)
Definition carries (e : exn) (text : str) : bool :=
  match e with
  | SPARQLError message query =>
      match query with
      | Some q => str_eqb q text
      | None => false
      end || contains text message
  | _ => false
  end.

(** No line feed in a text. *)
Definition one_line (s : str) : bool := forallb (fun c => negb (ceqb c nl)) s.

(** A block that lies within two sequences of the lengths [la] and [lb]. *)
Definition within (la lb : nat) (m : block) : Prop :=
  fst (fst m) + snd m <= la /\ snd (fst m) + snd m <= lb.

(** The three shapes a pattern text goes through in [_template_to_regex]:
    after [re.escape], after the groups are put in, and at the end. *)
Inductive stage : Set := Escaped | Grouped | Final.

Definition has_groups (st : stage) : bool :=
  match st with Escaped => false | _ => true end.

(** The pattern texts: plain characters, escaped special characters,
    the group, and in the final text an optional apostrophe-s and the
    anchors. *)
Inductive regex_text : stage -> str -> Prop :=
| rt_nil st : regex_text st []
| rt_plain st c s :
    re_special c = false -> regex_text st s -> regex_text st (c :: s)
| rt_esc st c s :
    re_special c = true -> regex_text st s ->
    regex_text st (backslash :: c :: s)
| rt_group st s :
    has_groups st = true -> regex_text st s -> regex_text st ("(.+?)" ++ s)
| rt_opt s : regex_text Final s -> regex_text Final (backslash :: "'?s?" ++ s)
| rt_bol s : regex_text Final s -> regex_text Final ("^" ++ s)
| rt_eol s : regex_text Final s -> regex_text Final ("$" ++ s).

(** The results [find_matches] keeps, before it sorts them. *)
Definition kept (thr : Q) (text : str) (p : Pattern) : list MatchResult :=
  match _match_pattern thr text p with
  | Ok (Some r) => if Qle_bool thr (confidence r) then [r] else []
  | _ => []
  end.

(** Results in descending order of confidence. *)
Definition descending (r1 r2 : MatchResult) : Prop :=
  (confidence r2 <= confidence r1)%Q.

(** The placeholders of a template, in the order of the template. *)
Definition placeholders (template : str) : list str :=
  re_findall1 re_placeholder_name template.

(** The result of an exact match with the groups [gs]. *)
Definition exact_result (p : Pattern) (gs : list str) : MatchResult :=
  {| pattern := p; confidence := 1.0;
     entities := fill_entities (placeholders (template p)) gs [];
     match_type := "exact" |}.


(** The suggestions the patterns add, before the duplicates go. *)
Definition raw_suggestions (text : str) (g : Grammar) : list str :=
  flat_map (suggestions_of (_tokenize (lower text))) (patterns g).

(** The response of [process_query] when nothing matches. *)
Definition no_match_response (clock : Q * Q) (text : str)
    (suggested : list str) : QueryResponse :=
  {| success := false;
     response_sparql_query := None;
     results := None;
     execution_time := fsub (snd clock) (fst clock);
     error_message := Some ("Could not understand query: " ++ text);
     suggestions := Some suggested;
     debug_info := None |}.

(* ================================================================= *)
(** * The data of the examples *)

Definition query_with_filter : str :=
  "SELECT ?s WHERE {" ++ [nl] ++ "  ?s ?p ?o ." ++ [nl]
  ++ "  FILTER(?o > 1)" ++ [nl] ++ "}".

(** The patterns of the package's own matcher tests. *)
Definition sample_pattern (id tpl sparql : str) (exs : list str) (conf : Q)
    (class prop : str) : Pattern :=
  {| pattern_id := id; template := tpl; sparql_template := sparql;
     entity_types := [("person", "foaf:Person")]; examples := exs;
     pattern_confidence := conf; domain_class := class; property := prop;
     keywords := _extract_keywords tpl |}.

Definition pattern1 : Pattern :=
  sample_pattern "test_001" "meetings with {person}"
    "SELECT ?meeting WHERE { ?meeting kb:hasAttendee ?person }"
    ["meetings with John Smith"] (f64 0.95) "kb:Meeting" "kb:hasAttendee".

Definition pattern2 : Pattern :=
  sample_pattern "test_002" "{person}'s meetings"
    "SELECT ?meeting WHERE { ?meeting kb:hasAttendee ?person }"
    ["John's meetings"] (f64 0.90) "kb:Meeting" "kb:hasAttendee".

Definition pattern3 : Pattern :=
  sample_pattern "test_003" "todos assigned to {person}"
    "SELECT ?todo WHERE { ?todo kb:assignedTo ?person }"
    ["todos assigned to Sarah"] (f64 0.85) "kb:Todo" "kb:assignedTo".

(** Patterns whose scores are not binary64 numbers before they are
    rounded. *)
Definition pattern_presentation : Pattern :=
  sample_pattern "test_007" "organisation presentation for {person}"
    "SELECT ?p WHERE { ?p kb:presentedTo ?person }"
    ["organisation presentation for Bob"] (f64 0.9) "kb:Presentation"
    "kb:presentedTo".

Definition pattern_par : Pattern :=
  sample_pattern "test_008" "to my par {x}"
    "SELECT ?p WHERE { ?p kb:par ?x }"
    ["to my par three"] (f64 0.9) "kb:Par" "kb:par".

Definition pattern_party : Pattern :=
  sample_pattern "test_009" "tonight my party in {x}"
    "SELECT ?p WHERE { ?p kb:place ?x }"
    ["tonight my party in Rome"] (f64 0.9) "kb:Party" "kb:place".

Definition party_grammar : Grammar :=
  {| patterns := [pattern_par; pattern_party]; ontology_hash := "test_hash";
     namespaces := [("kb", "http://example.org/kb#")];
     created_at := "2025-08-06T12:00:00" |}.

Definition sample_grammar : Grammar :=
  {| patterns := [pattern1; pattern2; pattern3]; ontology_hash := "test_hash";
     namespaces := [("kb", "http://example.org/kb#")];
     created_at := "2025-08-06T12:00:00" |}.

Definition long_template : str :=
  "SELECT ?meeting ?title ?date ?location ?organizer WHERE { "
  ++ "?meeting kb:hasAttendee ?person . ?meeting kb:title ?title . "
  ++ "?meeting kb:date ?date".

Definition long_match : MatchResult :=
  {| pattern :=
       sample_pattern "test_004" "meetings with {person}" long_template
         ["meetings with John Smith"] (f64 0.95) "kb:Meeting" "kb:hasAttendee";
     confidence := 1.0; entities := [("person", "John Smith")];
     match_type := "exact" |}.

(** The query of the graph examples: a WHERE body of two lines. *)
Definition two_line_template : str :=
  "SELECT ?s WHERE {" ++ [nl] ++ "  ?s ?p ?o ." ++ [nl] ++ "  ?s a ?t" ++ [nl] ++ "}".

Definition two_line_match : MatchResult :=
  {| pattern :=
       sample_pattern "test_005" "things like {person}" two_line_template
         ["things like John"] (f64 0.95) "kb:Thing" "kb:like";
     confidence := 1.0; entities := [("person", "John")];
     match_type := "exact" |}.

Definition two_graphs : option (list str) := Some ["http://a"; "http://b"].

Definition two_line_query : SPARQLQuery :=
  {| query_text := built_text [] two_line_match two_graphs None;
     variables := ["s"]; estimated_complexity := 1;
     optimization_applied := false |}.

Definition two_line_found : found :=
  {| before := "SELECT ?s ";
     matched := "WHERE {" ++ [nl] ++ "  ?s ?p ?o ." ++ [nl] ++ "  ?s a ?t"
                ++ [nl] ++ "}";
     after := [];
     groups := [[nl] ++ "  ?s ?p ?o ." ++ [nl] ++ "  ?s a ?t" ++ [nl]] |}.

Definition sample_service : QueryService :=
  {| service_namespaces := [("kb", "http://example.org/kb#")];
     grammar := sample_grammar |}.

Definition sample_request : QueryRequest :=
  {| input_text := "show todos"; profile := None; debug := false;
     show_sparql := false; limit := None; named_graphs := None;
     default_graph := None |}.

(* ================================================================= *)
(** * Further notions *)

(** What [_escape_sparql_string] writes for one character. *)
Definition escaped_char (c : ascii) : str :=
  if ceqb c backslash then [backslash; backslash]
  else if ceqb c dquote then [backslash; dquote]
  else if ceqb c nl then "\n"
  else if ceqb c cr then "\r"
  else if ceqb c tab then "\t"
  else [c].

(** The text up to its last closing brace; the whole text when it ends in
    one or has none. *)
Definition up_to_last_brace (s : str) : str :=
  if negb (endswith "}" s) then
    match rfind "}" s with
    | Some last_brace => firstn (last_brace + 1) s
    | None => s
    end
  else s.

(** No white space at the end of a text. *)
Definition ends_black (s : str) : bool :=
  match rev s with
  | c :: _ => negb (isspace c)
  | [] => true
  end.

(** A character of a token: a word character that is no capital letter. *)
Definition token_char (c : ascii) : bool := isword c && negb (isupper c).

(** The shape of a token: a run of word characters, or two of them with an
    apostrophe in between. *)
Definition token_shape (t : str) : Prop :=
  exists w rest,
    t = w ++ rest /\ w <> [] /\ forallb token_char w = true /\
    (rest = [] \/
     exists w', rest = "'" ++ w' /\ w' <> [] /\ forallb token_char w' = true).

(** What a result of [find_matches] for the pattern [p] is: the result of
    an exact match, or, when the text does not match the pattern of the
    template, a fuzzy result that carries the token similarity. *)
Definition result_kind (text : str) (r : MatchResult) : Prop :=
  let p := pattern r in
  (match_type r = "exact" /\ confidence r = 1.0%Q /\
   exists gs, match_text (_template_to_regex (template p)) text = Ok (Some gs) /\
              entities r = _extract_entities_from_match gs (template p))
  \/
  (match_type r = "fuzzy" /\
   confidence r = _calculate_token_similarity
                    (_tokenize text) (_tokenize_template (template p)) /\
   match_text (_template_to_regex (template p)) text = Ok None /\
   _extract_entities_fuzzy text p = Ok (entities r)).

(* ================================================================= *)
(** * core/entities.py: [Grammar.get_pattern_by_id] *)

Fixpoint get_pattern_by_id_from (ps : list Pattern) (pattern_id' : str)
  : option Pattern :=
  match ps with
  | [] => None
  | pattern :: ps' =>
      if str_eqb (pattern_id pattern) pattern_id' then Some pattern
      else get_pattern_by_id_from ps' pattern_id'
  end.

Definition get_pattern_by_id (self : Grammar) (pattern_id' : str)
  : option Pattern :=
  get_pattern_by_id_from (patterns self) pattern_id'.

(* ================================================================= *)
(** * services/query.py: [suggest_queries] *)

Definition suggest_queries (self : QueryService) (partial_input : str)
  : list str :=
  let input_lower := lower partial_input in
  let suggestions :=
    flat_map
      (fun pattern =>
         if existsb (fun keyword =>
                       startswith input_lower keyword
                       || contains input_lower keyword)
                    (keywords pattern)
         then firstn 1 (examples pattern) else [])
      (patterns (grammar self)) in
  firstn 10 (unique suggestions).

(** The patterns one of whose keywords holds the text. *)
Definition keyword_holds (text : str) (p : Pattern) : bool :=
  existsb (contains text) (keywords p).

(** The text [process_query] builds for the best match. *)
Definition best_text (self : QueryService) (request : QueryRequest)
    (best : MatchResult) : str :=
  built_text (service_namespaces self) best
             (named_graphs request) (default_graph request).

(** The text with the limit of the request. *)
Definition limited (request : QueryRequest) (text : str) : str :=
  match limit request with
  | Some n => if (n =? 0)%Z then text else add_limit text n
  | None => text
  end.

(** The response to a query whose best match gives a text that is
    refused. *)
Definition refused_response (clock : Q * Q) (text : str) : QueryResponse :=
  {| success := false;
     response_sparql_query := None;
     results := None;
     execution_time := fsub (snd clock) (fst clock);
     error_message :=
       Some ("Invalid SPARQL generated: " ++ firstn 100 text ++ "...");
     suggestions := None;
     debug_info := None |}.

(** A request with a limit that shows the query. *)
Definition limited_request : QueryRequest :=
  {| input_text := "meetings with John Smith"; profile := None; debug := false;
     show_sparql := true; limit := Some 5%Z; named_graphs := None;
     default_graph := None |}.

(** A literal part of a template that holds no opening brace and no
    backslash. *)
Definition plain_literal (lit : str) : bool :=
  forallb (fun c => negb (ceqb c "{") && negb (ceqb c backslash)) lit.

(* ================================================================= *)
(** * core/grammar.py: the names and the numbering of the patterns *)

(** [s.split(c)[-1]]. *)
Definition last_part (c : ascii) (s : str) : str := last (split_on c s) [].

Definition _extract_base_name (property_name : str) : str :=
  let local_name :=
    if contains "#" property_name then last_part "#" property_name
    else if contains "/" property_name then last_part "/" property_name
    else if contains ":" property_name then last_part ":" property_name
    else property_name in
  if startswith "has" (lower local_name) then lower (skipn 3 local_name)
  else if startswith "is" (lower local_name) then lower (skipn 2 local_name)
  else lower local_name.

(** [class_uri] is a text or [None]. *)
Definition _simplify_class_name (class_uri : option str) : str :=
  match class_uri with
  | None | Some [] => "entity"
  | Some class_uri =>
      if contains "#" class_uri then last_part "#" class_uri
      else if contains "/" class_uri then last_part "/" class_uri
      else if contains ":" class_uri then last_part ":" class_uri
      else class_uri
  end.

(** The format [{n:03d}] of a counter: at least three digits. *)
Definition format_03d (n : nat) : str :=
  let digits := str_of_Z (Z.of_nat n) in
  repeat "0"%char (3 - length digits) ++ digits.

(** [pattern.id = id]. *)
Definition set_id (p : Pattern) (id : str) : Pattern :=
  {| pattern_id := id; template := template p;
     sparql_template := sparql_template p; entity_types := entity_types p;
     examples := examples p; pattern_confidence := pattern_confidence p;
     domain_class := domain_class p; property := property p;
     keywords := keywords p |}.

Section GeneratePatterns.
(** The description of a property, and [self._generate_property_patterns]. *)
Variable PropInfo : Type.
Variable _generate_property_patterns : PropInfo -> outcome (list Pattern).

(** The inner loop of [generate_patterns], with the counter it moves. *)
Fixpoint add_ids (prop_patterns : list Pattern) (pattern_id_counter : nat)
  : list Pattern * nat :=
  match prop_patterns with
  | [] => ([], pattern_id_counter)
  | pattern :: rest =>
      if str_eqb (pattern_id pattern) []
         || startswith "pattern_" (pattern_id pattern)
      then
        let '(rest', counter) := add_ids rest (pattern_id_counter + 1) in
        (set_id pattern ("pattern_" ++ format_03d pattern_id_counter) :: rest',
         counter)
      else
        let '(rest', counter) := add_ids rest pattern_id_counter in
        (pattern :: rest', counter)
  end.

(** The outer loop, over [ontology_data['properties']]. *)
Fixpoint generate_patterns_from (properties : list PropInfo)
    (patterns : list Pattern) (pattern_id_counter : nat)
  : outcome (list Pattern) :=
  match properties with
  | [] => Ok patterns
  | prop_info :: properties' =>
      prop_patterns <- _generate_property_patterns prop_info ;;
      let '(prop_patterns, counter) := add_ids prop_patterns pattern_id_counter in
      generate_patterns_from properties' (patterns ++ prop_patterns) counter
  end.

Definition generate_patterns (properties : list PropInfo)
  : outcome (list Pattern) :=
  generate_patterns_from properties [] 0.
End GeneratePatterns.

(** A text without the characters of [chars]. *)
Definition free_of (chars s : str) : bool :=
  forallb (fun c => negb (char_in c chars)) s.

(** The local name without a prefix [has] or [is], in lower case. *)
Definition base_of (local_name : str) : str :=
  if startswith "has" (lower local_name) then skipn 3 (lower local_name)
  else if startswith "is" (lower local_name) then skipn 2 (lower local_name)
  else lower local_name.

(** The patterns of the result that carry a number. *)
Definition numbered (ps : list Pattern) : list Pattern :=
  filter (fun p => startswith "pattern_" (pattern_id p)) ps.

(** The id with the number [n]. *)
Definition numbered_id (n : nat) : str := "pattern_" ++ format_03d n.

(** A pattern of the result is a pattern that was generated for a
    property, with its own id or with a new id. *)
Definition generated (PropInfo : Type)
    (gen : PropInfo -> outcome (list Pattern)) (props : list PropInfo)
    (p : Pattern) : Prop :=
  exists info l q,
    In info props /\ gen info = Ok l /\ In q l /\
    (p = q \/ p = set_id q (pattern_id p)).

(** A match whose query is an ASK query without the word WHERE. *)
Definition ask_match : MatchResult :=
  {| pattern :=
       sample_pattern "test_006" "is there {person}"
         "ASK { ?s foaf:name ?person }"
         ["is there John"] (f64 0.95) "foaf:Person" "foaf:name";
     confidence := 1.0; entities := [("person", "John")];
     match_type := "exact" |}.

(* ================================================================= *)
(** * formatters/result_formatter.py: [TableFormatter]
    The bindings of a result are dictionaries from the names of the
    variables to values; [py_str] is [str] on such a value. *)

(** [s[:k]] for an integer [k]: a negative [k] counts from the end. *)
Definition slice_to (k : Z) (s : str) : str :=
  if (0 <=? k)%Z then firstn (Z.to_nat k) s
  else firstn (Z.to_nat (Z.of_nat (length s) + k)) s.

(** [s.ljust(w)]. *)
Definition ljust (w : nat) (s : str) : str := s ++ repeat " "%char (w - length s).

Section TableFormatter.
Variable Value : Type.
Variable py_str : Value -> str.

(** [binding.get(header)]. *)
Fixpoint binding_get (binding : list (str * Value)) (header : str)
  : option Value :=
  match binding with
  | [] => None
  | (k, v) :: binding' =>
      if str_eqb k header then Some v else binding_get binding' header
  end.

(** One cell: [str(binding.get(header, ''))], cut to [max_width]. *)
Definition table_cell (max_width : option Z) (binding : list (str * Value))
    (header : str) : str :=
  let value :=
    match binding_get binding header with
    | Some v => py_str v
    | None => []
    end in
  match max_width with
  | Some w =>
      if negb (w =? 0)%Z && (w <? Z.of_nat (length value))%Z
      then slice_to (w - 3) value ++ "..."
      else value
  | None => value
  end.

Definition table_rows (max_width : option Z)
    (bindings : list (list (str * Value))) (headers : list str)
  : list (list str) :=
  map (fun binding => map (table_cell max_width binding) headers) bindings.

(** The widths of the columns: the loop over [enumerate(headers)]. *)
Definition col_width (rows : list (list str)) (i : nat) (header : str) : nat :=
  fold_left (fun width row => Nat.max width (length (nth i row []))) rows
            (length header).

Fixpoint col_widths_from (rows : list (list str)) (i : nat)
    (headers : list str) : list nat :=
  match headers with
  | [] => []
  | header :: headers' =>
      col_width rows i header :: col_widths_from rows (S i) headers'
  end.

Definition table_line (cells : list str) (col_widths : list nat) : str :=
  "| "
  ++ join " | " (map (fun hw => ljust (snd hw) (fst hw))
                     (combine cells col_widths))
  ++ " |".

Definition table_separator (col_widths : list nat) : str :=
  "|-" ++ join "-|-" (map (fun w => repeat "-"%char w) col_widths) ++ "-|".

(** The lines of the table of bindings that are not empty;
    [bindings[0].keys()] gives the headers. *)
Definition table_lines (max_width : option Z)
    (first : list (str * Value)) (others : list (list (str * Value)))
  : list str :=
  let headers := map fst first in
  let rows := table_rows max_width (first :: others) headers in
  let col_widths := col_widths_from rows 0 headers in
  let separator := table_separator col_widths in
  [separator; table_line headers col_widths; separator]
  ++ map (fun row => table_line row col_widths) rows
  ++ [separator].

(** [TableFormatter.format] on [results['results']['bindings']]. *)
Definition table_format (max_width : option Z)
    (bindings : list (list (str * Value))) : str :=
  match bindings with
  | [] => "No results found."
  | first :: others => join [nl] (table_lines max_width first others)
  end.
End TableFormatter.


(** The tests of the loop of [optimize_query] on one line, after the line
    with WHERE. *)
Definition is_where_line (line : str) : bool := contains "WHERE" (strip line).

Definition is_filter_line (line : str) : bool :=
  negb (is_where_line line) && startswith "FILTER" (strip line).

Definition is_pattern_line (line : str) : bool :=
  negb (is_where_line line) && negb (startswith "FILTER" (strip line))
  && (startswith "?" (strip line) || startswith "<" (strip line)).

Definition is_other_line (line : str) : bool :=
  negb (is_filter_line line) && negb (is_pattern_line line).

(** The text [optimize_query] returns when it moves lines: the lines up to
    the first line with WHERE, the triple patterns, the filters and what
    is left of the other lines. *)
Definition reordered (pre : list str) (w : str) (rest : list str) : list str :=
  pre ++ w :: filter is_pattern_line rest ++ filter is_filter_line rest
  ++ skip_blank_or_brace (filter is_other_line rest).

(* ================================================================= *)
(** * core/grammar.py: the SPARQL templates
    [prop_name] is [prop_info['name']]; the namespace and the local name
    the functions compute from it are not used. *)

Definition _generate_sparql_template (template prop_name domain_simple
    range_simple : str) : str :=
  "SELECT ?" ++ domain_simple ++ " ?" ++ range_simple ++ "_name" ++ [nl]
  ++ "WHERE {" ++ [nl]
  ++ "  ?" ++ domain_simple ++ " <" ++ prop_name ++ "> ?" ++ range_simple
  ++ " ." ++ [nl]
  ++ "  ?" ++ range_simple ++ " <http://xmlns.com/foaf/0.1/name> ?"
  ++ range_simple ++ "_name ." ++ [nl]
  ++ "  FILTER (lcase(str(?" ++ range_simple ++ "_name)) = lcase("
  ++ [dquote] ++ "{" ++ range_simple ++ "}" ++ [dquote] ++ "))" ++ [nl]
  ++ "}".

Definition _generate_sparql_datatype_template (template prop_name
    domain_simple value_name : str) : str :=
  "SELECT ?" ++ domain_simple ++ [nl]
  ++ "WHERE {" ++ [nl]
  ++ "  ?" ++ domain_simple ++ " <" ++ prop_name ++ "> ?" ++ value_name
  ++ " ." ++ [nl]
  ++ "  FILTER (lcase(str(?" ++ value_name ++ ")) = lcase("
  ++ [dquote] ++ "{" ++ value_name ++ "}" ++ [dquote] ++ "))" ++ [nl]
  ++ "}".

(** The generated templates with a text in the place of the placeholder. *)
Definition object_query (prop_name domain_simple range_simple inserted : str)
  : str :=
  "SELECT ?" ++ domain_simple ++ " ?" ++ range_simple ++ "_name" ++ [nl]
  ++ "WHERE {" ++ [nl]
  ++ "  ?" ++ domain_simple ++ " <" ++ prop_name ++ "> ?" ++ range_simple
  ++ " ." ++ [nl]
  ++ "  ?" ++ range_simple ++ " <http://xmlns.com/foaf/0.1/name> ?"
  ++ range_simple ++ "_name ." ++ [nl]
  ++ "  FILTER (lcase(str(?" ++ range_simple ++ "_name)) = lcase("
  ++ [dquote] ++ inserted ++ [dquote] ++ "))" ++ [nl]
  ++ "}".

Definition datatype_query (prop_name domain_simple value_name inserted : str)
  : str :=
  "SELECT ?" ++ domain_simple ++ [nl]
  ++ "WHERE {" ++ [nl]
  ++ "  ?" ++ domain_simple ++ " <" ++ prop_name ++ "> ?" ++ value_name
  ++ " ." ++ [nl]
  ++ "  FILTER (lcase(str(?" ++ value_name ++ ")) = lcase("
  ++ [dquote] ++ inserted ++ [dquote] ++ "))" ++ [nl]
  ++ "}".

(* ================================================================= *)
(** * Theorems *)

(* ================================================================= *)
(** * Facts about strings *)

Lemma str_eqb_eq (s t : str) : str_eqb s t = true <-> s = t.
Proof.
  revert t; induction s as [|a s IH]; intros [|b t]; simpl; split;
    try discriminate; auto.
  - intros H. apply andb_true_iff in H as [H1 H2].
    apply Ascii.eqb_eq in H1. apply IH in H2. congruence.
  - intros H. injection H as -> ->. apply andb_true_iff. split.
    + apply Ascii.eqb_refl.
    + now apply IH.
Qed.

Lemma str_eqb_refl (s : str) : str_eqb s s = true.
Proof. now apply str_eqb_eq. Qed.

Lemma str_eqb_neq (s t : str) : str_eqb s t = false <-> s <> t.
Proof.
  split.
  - intros H E. apply str_eqb_eq in E. congruence.
  - intros H. destruct (str_eqb s t) eqn:E; auto.
    apply str_eqb_eq in E. contradiction.
Qed.

Lemma mem_In (x : str) (l : list str) : mem x l = true <-> In x l.
Proof.
  unfold mem. rewrite existsb_exists. split.
  - intros [y [Hy E]]. apply str_eqb_eq in E. now subst.
  - intros H. exists x. split; auto. apply str_eqb_refl.
Qed.

Example split_on_ex : split_on nl ("a" ++ [nl] ++ [nl] ++ "b") = ["a"; []; "b"].
Proof. reflexivity. Qed.

Example split_ws_ex : split_ws "  ab  c d " = ["ab"; "c"; "d"].
Proof. reflexivity. Qed.

Example replace_ex : replace "aa" "b" "aaaxaa" = "baxb".
Proof. reflexivity. Qed.

Example str_of_Z_ex : str_of_Z 120 = "120".
Proof. reflexivity. Qed.

Example strip_ex : strip "  a b  " = "a b".
Proof. reflexivity. Qed.

Example rfind_ex : rfind "}" "a}b}c" = Some 3.
Proof. reflexivity. Qed.

Example upper_ex : upper "Select {x}" = "SELECT {X}".
Proof. reflexivity. Qed.

Example findall_token :
  re_findall re_token "john's  meetings, o'neil's x'" =
  ["john's"; "meetings"; "o'neil"; "s"; "x"].
Proof. reflexivity. Qed.

Example split_placeholder :
  re_split re_placeholder "meetings with {person} about {topic}" =
  ["meetings with "; "{person}"; " about "; "{topic}"; []].
Proof. reflexivity. Qed.

Example findall_placeholder :
  re_findall1 re_placeholder_name "{a} and {b c}{}" = ["a"; "b c"].
Proof. reflexivity. Qed.

Example ratio_meetigns : ratio ceqb "meetigns" "meetings" = (7 # 8)%Q.
Proof. reflexivity. Qed.

Example ratio_abcd_bcde : ratio ceqb "abcd" "bcde" = (3 # 4)%Q.
Proof. reflexivity. Qed.

Example ratio_tokens :
  ratio str_eqb ["sarahs"; "meetings"] ["s"; "meetings"] = (1 # 2)%Q.
Proof. reflexivity. Qed.

(** * Facts about the matcher of regular expressions *)

Section QuantifiedFacts.
Variable p : cls.
Variable k : str -> bool -> str -> mres.

Lemma greedy_inv acc bol s r :
  greedy p k acc bol s = Some r ->
  exists g bol' s', s = g ++ s' /\ forallb p g = true /\ k (acc ++ g) bol' s' = Some r.
Proof.
  revert acc bol. induction s as [|c s IH]; intros acc bol H; simpl in H.
  - exists [], bol, []. rewrite ?app_nil_r. repeat split; auto.
  - destruct (p c) eqn:Hc.
    + destruct (greedy p k (acc ++ [c]) false s) eqn:Hg.
      * injection H as <-. apply IH in Hg as (g & b' & s' & -> & Hall & Hk).
        exists (c :: g), b', s'. simpl. rewrite Hc, Hall.
        rewrite <- app_assoc in Hk. repeat split; auto.
      * exists [], bol, (c :: s). rewrite ?app_nil_r. repeat split; auto.
    + exists [], bol, (c :: s). rewrite ?app_nil_r. repeat split; auto.
Qed.

Lemma reluctant_inv acc bol s r :
  reluctant p k acc bol s = Some r ->
  exists g bol' s', s = g ++ s' /\ forallb p g = true /\ k (acc ++ g) bol' s' = Some r.
Proof.
  revert acc bol. induction s as [|c s IH]; intros acc bol H; simpl in H.
  - destruct (k acc bol []) eqn:Hk; [|discriminate].
    exists [], bol, []. injection H as <-. rewrite ?app_nil_r. repeat split; auto.
  - destruct (k acc bol (c :: s)) eqn:Hk.
    + exists [], bol, (c :: s). injection H as <-. rewrite ?app_nil_r. repeat split; auto.
    + destruct (p c) eqn:Hc; [|discriminate].
      apply IH in H as (g & b' & s' & -> & Hall & Hk').
      exists (c :: g), b', s'. simpl. rewrite Hc, Hall.
      rewrite <- app_assoc in Hk'. repeat split; auto.
Qed.

Lemma quantified_inv q bol s r :
  quantified p k q bol s = Some r ->
  exists g bol' s', s = g ++ s' /\ forallb p g = true /\ quant_ok q g /\
                    k g bol' s' = Some r.
Proof.
  intros H. destruct q; simpl in H.
  - destruct s as [|c s]; [discriminate|]. destruct (p c) eqn:Hc; [|discriminate].
    exists [c], false, s. simpl. rewrite Hc. repeat split; auto.
  - destruct s as [|c s].
    + exists [], bol, []. repeat split; simpl; auto.
    + destruct (p c) eqn:Hc.
      * destruct (k [c] false s) eqn:Hk.
        -- injection H as <-. exists [c], false, s. simpl. rewrite Hc.
           repeat split; auto.
        -- exists [], bol, (c :: s). repeat split; simpl; auto.
      * exists [], bol, (c :: s). repeat split; simpl; auto.
  - destruct s; apply greedy_inv in H as (g & b' & s' & E & Hall & Hk);
      exists g, b', s'; repeat split; auto.
  - destruct s as [|c s]; [discriminate|]. destruct (p c) eqn:Hc; [|discriminate].
    apply greedy_inv in H as (g & b' & s' & -> & Hall & Hk).
    exists (c :: g), b', s'. simpl. rewrite Hc, Hall. repeat split; auto.
    discriminate.
  - destruct s; apply reluctant_inv in H as (g & b' & s' & E & Hall & Hk);
      exists g, b', s'; repeat split; auto.
  - destruct s as [|c s]; [discriminate|]. destruct (p c) eqn:Hc; [|discriminate].
    apply reluctant_inv in H as (g & b' & s' & -> & Hall & Hk).
    exists (c :: g), b', s'. simpl. rewrite Hc, Hall. repeat split; auto.
    discriminate.
Qed.
End QuantifiedFacts.

Lemma seq_match_inv body k bol s r :
  seq_match body k bol s = Some r ->
  exists m bol' s', s = m ++ s' /\
    forallb (fun c => existsb (fun pq => fst pq c) body) m = true /\
    k bol' s' = Some r.
Proof.
  revert bol s. induction body as [|[p q] body IH]; intros bol s H; simpl in H.
  - exists [], bol, s. repeat split; auto.
  - apply quantified_inv in H as (g & b' & s' & -> & Hall & _ & Hk).
    apply IH in Hk as (m & b'' & s'' & -> & Hall' & Hk).
    exists (g ++ m), b'', s''. rewrite app_assoc. repeat split; auto.
    rewrite forallb_app. apply andb_true_iff. split.
    + rewrite forallb_forall in *. intros c Hc. simpl. rewrite (Hall c Hc). reflexivity.
    + rewrite forallb_forall in *. intros c Hc. simpl. rewrite (Hall' c Hc).
      apply orb_true_r.
Qed.

Lemma forallb_impl (A : Type) (f g : A -> bool) (l : list A) :
  (forall x, f x = true -> g x = true) -> forallb f l = true -> forallb g l = true.
Proof.
  intros Hfg. rewrite !forallb_forall. auto.
Qed.

Lemma infix_app_l (g a s : str) : infix g s -> infix g (a ++ s).
Proof. intros (x & y & ->). exists (a ++ x), y. now rewrite app_assoc. Qed.

Lemma infix_app_r (g s b : str) : infix g s -> infix g (s ++ b).
Proof. intros (x & y & ->). exists x, (y ++ b). now rewrite <- !app_assoc. Qed.

(** What a match consumes: the text splits into the match and the rest,
    the characters of the match are in the classes of the pattern, the
    groups are parts of the match, and a pattern that ends in [$] leaves
    nothing but perhaps a final line feed. *)
Lemma allowed_here it its c : consumes it c = true -> allowed (it :: its) c = true.
Proof. intros H. unfold allowed. simpl. now rewrite H. Qed.

Lemma allowed_later it its c : allowed its c = true -> allowed (it :: its) c = true.
Proof. intros H. unfold allowed in *. simpl. rewrite H. apply orb_true_r. Qed.

Lemma eol_last_tail it its : eol_last (it :: its) = true -> its <> [] -> eol_last its = true.
Proof. intros H Hne. destruct its; [contradiction|]. destruct it; exact H. Qed.

Lemma rmatch_sound its : forall bol s rest gs,
  rmatch its bol s = Some (rest, gs) ->
  exists m, s = m ++ rest /\ forallb (allowed its) m = true /\
    Forall (fun g => infix g m) gs /\
    (eol_last its = true -> at_end rest = true).
Proof.
  induction its as [|it its IH]; intros bol s rest gs H; simpl in H.
  - injection H as <- <-. exists []. simpl. split; [reflexivity|].
    split; [reflexivity|]. split; [constructor|discriminate].
  - assert (Htail : forall b s', rmatch its b s' = Some (rest, gs) ->
              exists m, s' = m ++ rest /\ forallb (allowed (it :: its)) m = true /\
                Forall (fun g => infix g m) gs /\
                (eol_last (it :: its) = true -> its <> [] -> at_end rest = true)).
    { intros b s' Hm. apply IH in Hm as (m & -> & Hall & Hgs & Heol).
      exists m. split; [reflexivity|]. split.
      - eapply forallb_impl; [|exact Hall]. intros c. apply allowed_later.
      - split; [exact Hgs|]. intros E Hne. apply Heol. now apply eol_last_tail with it. }
    destruct it as [p q cap|body| |].
    + apply quantified_inv in H as (g & b' & s' & -> & Hall & _ & Hk).
      destruct (rmatch its b' s') as [[r gs']|] eqn:Hm; [|discriminate].
      injection Hk as <- <-.
      apply IH in Hm as (m & -> & Hall' & Hgs & Heol).
      exists (g ++ m). rewrite app_assoc. split; [reflexivity|]. split.
      * rewrite forallb_app. apply andb_true_iff. split.
        -- eapply forallb_impl; [|exact Hall]. intros c Hc. now apply allowed_here.
        -- eapply forallb_impl; [|exact Hall']. intros c. apply allowed_later.
      * split.
        -- assert (Hgs' : Forall (fun g0 => infix g0 (g ++ m)) gs').
           { eapply Forall_impl; [|exact Hgs]. intros x. apply infix_app_l. }
           destruct cap; auto. constructor; auto. exists [], m. reflexivity.
        -- intros E. apply Heol. destruct its; [discriminate|exact E].
    + destruct (seq_match body (rmatch its) bol s) as [r0|] eqn:Hs.
      * injection H as ->.
        apply seq_match_inv in Hs as (m0 & b' & s' & -> & Hall & Hk).
        apply IH in Hk as (m & -> & Hall' & Hgs & Heol).
        exists (m0 ++ m). rewrite app_assoc. split; [reflexivity|]. split.
        -- rewrite forallb_app. apply andb_true_iff. split.
           ++ eapply forallb_impl; [|exact Hall]. intros c Hc. now apply allowed_here.
           ++ eapply forallb_impl; [|exact Hall']. intros c. apply allowed_later.
        -- split.
           ++ eapply Forall_impl; [|exact Hgs]. intros x. apply infix_app_l.
           ++ intros E. apply Heol. destruct its; [discriminate|exact E].
      * apply Htail in H as (m & -> & Hall' & Hgs & Heol).
        exists m. split; [reflexivity|]. split; [exact Hall'|]. split; [exact Hgs|].
        intros E. apply Heol; auto. intros ->. discriminate.
    + destruct bol; [|discriminate].
      apply Htail in H as (m & -> & Hall' & Hgs & Heol).
      exists m. split; [reflexivity|]. split; [exact Hall'|]. split; [exact Hgs|].
      intros E. apply Heol; auto. intros ->. discriminate.
    + destruct (at_end s) eqn:He; [|discriminate].
      destruct its as [|it' its'].
      * simpl in H. injection H as <- <-. exists []. simpl.
        split; [reflexivity|]. split; [reflexivity|]. split; [constructor|auto].
      * apply Htail in H as (m & -> & Hall' & Hgs & Heol).
        exists m. split; [reflexivity|]. split; [exact Hall'|]. split; [exact Hgs|].
        intros E. apply Heol; auto. discriminate.
Qed.

(* ================================================================= *)
(** * Facts about [add_limit] *)

Lemma consumed_app (m rest : str) : consumed (m ++ rest) rest = m.
Proof.
  unfold consumed. rewrite length_app.
  replace (length m + length rest - length rest) with (length m) by lia.
  rewrite firstn_app, firstn_all. replace (length m - length m) with 0 by lia.
  simpl. apply app_nil_r.
Qed.

Lemma pieces_skip its rest : forall m,
  pieces its false (length m) (m ++ rest) = pieces its false 0 rest.
Proof.
  induction m as [|c m IH]; [reflexivity|]. exact IH.
Qed.

Lemma ceqb_eq (a b : ascii) : ceqb a b = true <-> a = b.
Proof. apply Ascii.eqb_eq. Qed.

Lemma limit_chars_no_brace (m : str) :
  forallb (allowed re_limit) m = true -> no_brace m = true.
Proof.
  apply forallb_impl. intros c Hc. destruct (ceqb c "}") eqn:E; [|reflexivity].
  apply ceqb_eq in E. subst c. discriminate Hc.
Qed.

Lemma space_no_brace (w : str) : forallb isspace w = true -> no_brace w = true.
Proof.
  apply forallb_impl. intros c Hc. destruct (ceqb c "}") eqn:E; [|reflexivity].
  apply ceqb_eq in E. subst c. discriminate Hc.
Qed.

Lemma at_end_cases (s : str) : at_end s = true -> s = [] \/ s = [nl].
Proof.
  unfold at_end. intros H. apply orb_true_iff in H as [H|H];
    apply str_eqb_eq in H; auto.
Qed.

Lemma pieces_cons its b c s :
  pieces its b 0 (c :: s) =
  match rmatch its b (c :: s) with
  | Some (rest, gs) =>
      match length (c :: s) - length rest with
      | 0 => Gap c :: pieces its false 0 s
      | S n => Hit (consumed (c :: s) rest) gs :: pieces its false n s
      end
  | None => Gap c :: pieces its false 0 s
  end.
Proof. reflexivity. Qed.

(** What [re.sub] with the pattern of [add_limit] removes: one part of the
    text without a brace, before nothing or a final line feed. *)
Lemma sub_limit_shape : forall s b,
  exists pre m rest,
    s = pre ++ m ++ rest /\
    sub_pieces [] (pieces re_limit b 0 s) = pre ++ rest /\
    no_brace m = true /\ forallb isspace rest = true.
Proof.
  induction s as [|c s IH]; intros b.
  - exists [], [], []. repeat split; reflexivity.
  - assert (Hgap : exists pre m rest,
               c :: s = pre ++ m ++ rest /\
               sub_pieces [] (Gap c :: pieces re_limit false 0 s) = pre ++ rest /\
               no_brace m = true /\ forallb isspace rest = true).
    { destruct (IH false) as (pre & m & rest & E & Hsub & Hm & Hr).
      exists (c :: pre), m, rest. simpl. rewrite Hsub, <- E. repeat split; auto. }
    rewrite pieces_cons.
    destruct (rmatch re_limit b (c :: s)) as [[rest gs]|] eqn:Hm; [|exact Hgap].
    destruct (rmatch_sound _ _ _ Hm) as (m & E & Hall & _ & Heol).
    replace (length (c :: s) - length rest) with (length m)
      by (rewrite E, length_app; lia).
    destruct m as [|c' m]; [exact Hgap|].
    simpl in E. injection E as <- ->. cbn [length].
    rewrite pieces_skip.
    exists [], (c :: m), rest. split; [reflexivity|].
    specialize (Heol eq_refl). apply at_end_cases in Heol as [-> | ->].
    + repeat split; auto. now apply limit_chars_no_brace.
    + repeat split; auto. now apply limit_chars_no_brace.
Qed.

Lemma lstrip_app_ws (w x : str) :
  forallb isspace w = true -> lstrip (w ++ x) = lstrip x.
Proof.
  induction w as [|c w IH]; [reflexivity|]. simpl. intros H.
  apply andb_true_iff in H as [Hc Hw]. rewrite Hc. auto.
Qed.

Lemma lstrip_split (s : str) :
  exists w, s = w ++ lstrip s /\ forallb isspace w = true.
Proof.
  induction s as [|c s (w & E & Hw)].
  - exists []. auto.
  - simpl. destruct (isspace c) eqn:Hc.
    + exists (c :: w). simpl. rewrite Hc, Hw. rewrite <- E. auto.
    + exists []. auto.
Qed.

Lemma forallb_rev (A : Type) (f : A -> bool) (l : list A) :
  forallb f (rev l) = forallb f l.
Proof.
  induction l as [|x l IH]; [reflexivity|]. simpl. rewrite forallb_app, IH. simpl.
  rewrite andb_true_r. apply andb_comm.
Qed.

Lemma rstrip_app_ws (x w : str) :
  forallb isspace w = true -> rstrip (x ++ w) = rstrip x.
Proof.
  intros H. unfold rstrip. rewrite rev_app_distr, lstrip_app_ws; auto.
  now rewrite forallb_rev.
Qed.

Lemma rstrip_split (s : str) :
  exists w, s = rstrip s ++ w /\ forallb isspace w = true.
Proof.
  unfold rstrip. destruct (lstrip_split (rev s)) as (w & E & Hw).
  exists (rev w). split.
  - rewrite <- rev_app_distr, <- E. now rewrite rev_involutive.
  - now rewrite forallb_rev.
Qed.

Lemma no_brace_app (x y : str) :
  no_brace (x ++ y) = no_brace x && no_brace y.
Proof. apply forallb_app. Qed.

Lemma no_brace_cons_brace (x : str) : no_brace ("}"%char :: x) = false.
Proof. reflexivity. Qed.

(** The last brace of a text is the last brace of any start of it that
    leaves no brace out. *)
Lemma last_brace_unique (a b r t : str) :
  a ++ "}"%char :: b = r ++ t -> no_brace b = true -> no_brace t = true ->
  exists b', r = a ++ "}"%char :: b' /\ b = b' ++ t.
Proof.
  intros E Hb Ht. apply app_eq_app in E as [l [[-> E]|[-> E]]].
  - rewrite E, no_brace_app, no_brace_cons_brace, andb_false_r in Ht. discriminate.
  - destruct l as [|c l].
    + simpl in E. rewrite <- E, no_brace_cons_brace in Ht. discriminate.
    + simpl in E. injection E as <- ->. exists l. auto.
Qed.

Lemma rfind_none (b : str) : no_brace b = true -> rfind "}" b = None.
Proof.
  induction b as [|c b IH]; [reflexivity|]. simpl. intros H.
  apply andb_true_iff in H as [Hc Hb]. rewrite (IH Hb).
  destruct (ceqb c "}"); [discriminate|reflexivity].
Qed.

Lemma rfind_last (a b : str) :
  no_brace b = true -> rfind "}" (a ++ "}"%char :: b) = Some (length a).
Proof.
  intros Hb. induction a as [|c a IH].
  - simpl. now rewrite (rfind_none _ Hb).
  - simpl. simpl in IH. now rewrite IH.
Qed.

Lemma startswith_cons (c d : ascii) (s : str) :
  startswith [c] (d :: s) = ceqb c d.
Proof. simpl. apply andb_true_r. Qed.

Lemma endswith_brace (a b : str) :
  no_brace b = true ->
  endswith "}" (a ++ "}"%char :: b) = match b with [] => true | _ => false end.
Proof.
  intros Hb. unfold endswith. rewrite rev_app_distr.
  change (rev ("}"%char :: b)) with (rev b ++ ["}"%char]).
  destruct b as [|c b _] using rev_ind; [reflexivity|].
  rewrite rev_app_distr. simpl. rewrite andb_true_r.
  rewrite no_brace_app in Hb. apply andb_true_iff in Hb as [_ Hc].
  simpl in Hc. rewrite andb_true_r in Hc.
  destruct (b ++ [c]) eqn:E; [now destruct b|].
  destruct (ceqb "}" c) eqn:E'; [|reflexivity].
  apply ceqb_eq in E'. subst c. discriminate.
Qed.

Lemma firstn_succ_length (a : str) (c : ascii) (b : str) :
  firstn (length a + 1) (a ++ c :: b) = a ++ [c].
Proof.
  rewrite firstn_app. replace (length a + 1 - length a) with 1 by lia.
  rewrite firstn_all2 by lia. reflexivity.
Qed.

(** C10. For every query text with a closing brace, [add_limit] keeps the
    text up to its last closing brace and nothing of what follows it (an
    ORDER BY clause, for one), and appends a line feed and [LIMIT n]:
    the text is [a], its last brace, and [b] without a brace. *)
Theorem add_limit_drops_text_after_last_brace (a b : str) (n : Z) :
  no_brace b = true ->
  add_limit (a ++ "}" ++ b) n = a ++ "}" ++ [nl] ++ "LIMIT " ++ str_of_Z n.
Proof.
  intros Hb. unfold add_limit, re_sub.
  destruct (sub_limit_shape (a ++ "}" ++ b) true) as (pre & m & rest & E & -> & Hm & Hr).
  rewrite (rstrip_app_ws _ _ Hr).
  destruct (rstrip_split pre) as (w & Epre & Hw).
  set (r := rstrip pre) in *.
  assert (Et : a ++ "}"%char :: b = r ++ (w ++ m ++ rest)).
  { simpl in E. rewrite E, Epre at 1. now rewrite <- app_assoc. }
  apply last_brace_unique in Et as (b' & Er & Eb); auto.
  - assert (Hb' : no_brace b' = true).
    { rewrite Eb, no_brace_app in Hb. now apply andb_true_iff in Hb as [Hb _]. }
    rewrite Er, (endswith_brace _ _ Hb').
    destruct b' as [|c b'].
    + simpl. rewrite <- app_assoc. reflexivity.
    + cbn [negb]. rewrite (rfind_last _ _ Hb'), firstn_succ_length.
      rewrite <- app_assoc. reflexivity.
  - rewrite !no_brace_app, Hm, (space_no_brace _ Hw), (space_no_brace _ Hr).
    reflexivity.
Qed.

Lemma add_limit_drops_text_after_last_brace_witness :
  add_limit ("SELECT ?s WHERE { ?s ?p ?o " ++ "}" ++ " ORDER BY ?s LIMIT 5") 10
  = "SELECT ?s WHERE { ?s ?p ?o " ++ "}" ++ [nl] ++ "LIMIT " ++ str_of_Z 10.
Proof.
  apply (add_limit_drops_text_after_last_brace
           "SELECT ?s WHERE { ?s ?p ?o " " ORDER BY ?s LIMIT 5" 10).
  reflexivity.
Defined.

(** One step of a match: a class with its quantifier. *)
Lemma rmatch_cls p q cap its b s r gs :
  rmatch (Cls p q cap :: its) b s = Some (r, gs) ->
  exists g b' s' gs',
    s = g ++ s' /\ forallb p g = true /\ quant_ok q g /\
    rmatch its b' s' = Some (r, gs') /\ gs = if cap then g :: gs' else gs'.
Proof.
  intros H. cbn [rmatch] in H.
  apply quantified_inv in H as (g & b' & s' & -> & Hall & Hq & Hk).
  destruct (rmatch its b' s') as [[r' gs']|] eqn:E; [|discriminate].
  injection Hk as <- <-. exists g, b', s', gs'. repeat split; auto.
Qed.

Lemma length_one (A : Type) (l : list A) : length l = 1 -> exists x, l = [x].
Proof. destruct l as [|x [|y l]]; try discriminate. intros _. now exists x. Qed.

Lemma rmatch_chr c its b s r gs :
  rmatch (chr (just c) :: its) b s = Some (r, gs) ->
  exists b' s', s = c :: s' /\ rmatch its b' s' = Some (r, gs).
Proof.
  intros H. apply rmatch_cls in H as (g & b' & s' & gs' & -> & Hall & Hq & Hm & ->).
  apply length_one in Hq as [x ->]. simpl in Hall. rewrite andb_true_r in Hall.
  apply Ascii.eqb_eq in Hall. subst x. now exists b', s'.
Qed.

(* ================================================================= *)
(** * Facts about the entities *)

Lemma nodup_length_le (l : list str) : length (nodup str_eq_dec l) <= length l.
Proof.
  induction l as [|x l IH]; [reflexivity|]. simpl.
  destruct (in_dec str_eq_dec x l); simpl; lia.
Qed.

Lemma nodup_length_NoDup (l : list str) :
  length (nodup str_eq_dec l) = length l <-> NoDup l.
Proof.
  split.
  - induction l as [|x l IH]; [constructor|]. simpl.
    destruct (in_dec str_eq_dec x l) as [Hin|Hin]; simpl; intros H.
    + pose proof (nodup_length_le l). lia.
    + constructor; auto.
  - intros H. now rewrite nodup_fixed_point.
Qed.

(** C5. A Grammar is constructed exactly when its pattern list is not
    empty, its ontology hash is not empty and the ids of its patterns are
    pairwise distinct; a construction that breaks one of the three raises
    a ValidationError. *)
Theorem Grammar_construction (ps : list Pattern) (h : str) (ns : dict) (t : str) :
  (ps <> [] /\ h <> [] /\ NoDup (map pattern_id ps) /\
   new_Grammar ps h ns t =
   Ok {| patterns := ps; ontology_hash := h; namespaces := ns; created_at := t |})
  \/
  ((ps = [] \/ h = [] \/ ~ NoDup (map pattern_id ps)) /\
   exists message, new_Grammar ps h ns t = Err (ValidationError message)).
Proof.
  unfold new_Grammar, Grammar_validate. simpl.
  destruct ps as [|p ps].
  - right. split; [now left|]. eexists. reflexivity.
  - destruct (str_eqb h []) eqn:Hh.
    + right. apply str_eqb_eq in Hh. split; [now right; left|]. eexists. reflexivity.
    + apply str_eqb_neq in Hh.
      destruct (length (map pattern_id (p :: ps)) =?
                length (nodup str_eq_dec (map pattern_id (p :: ps)))) eqn:Hn.
      * left. apply Nat.eqb_eq in Hn. symmetry in Hn.
        apply nodup_length_NoDup in Hn. repeat split; auto. discriminate.
      * right. apply Nat.eqb_neq in Hn. split.
        -- right; right. intros H. apply nodup_length_NoDup in H. now rewrite H in Hn.
        -- eexists. reflexivity.
Qed.

(** ** Placeholders *)

Lemma search_from_sound its : forall s b pre f,
  search_from its b pre s = Some f ->
  exists s1 b',
    before f = pre ++ s1 /\ s = s1 ++ matched f ++ after f /\
    rmatch its b' (matched f ++ after f) = Some (after f, groups f).
Proof.
  induction s as [|c s IH]; intros b pre f H; simpl in H.
  - destruct (rmatch its b []) as [[rest gs]|] eqn:E; [|discriminate].
    injection H as <-. simpl.
    destruct (rmatch_sound _ _ _ E) as (m & Em & _).
    symmetry in Em. apply app_eq_nil in Em as [-> ->].
    exists [], b. rewrite app_nil_r. repeat split; auto.
  - destruct (rmatch its b (c :: s)) as [[rest gs]|] eqn:E.
    + injection H as <-. simpl.
      destruct (rmatch_sound _ _ _ E) as (m & Em & _).
      rewrite Em, consumed_app. rewrite Em in E.
      exists [], b. rewrite app_nil_r. repeat split; auto.
    + apply IH in H as (s1 & b' & E1 & E2 & E3).
      exists (c :: s1), b'. rewrite E1, <- app_assoc. simpl. rewrite <- E2.
      repeat split; auto.
Qed.

Lemma search_from_none its : forall s b pre,
  search_from its b pre s = None ->
  forall s1 s2, s = s1 ++ s2 ->
    rmatch its (match s1 with [] => b | _ => false end) s2 = None.
Proof.
  induction s as [|c s IH]; intros b pre H s1 s2 E; simpl in H.
  - symmetry in E. apply app_eq_nil in E as [-> ->].
    destruct (rmatch its b []) as [[rest gs]|]; [discriminate|reflexivity].
  - destruct (rmatch its b (c :: s)) as [[rest gs]|] eqn:Em; [discriminate|].
    destruct s1 as [|c1 s1].
    + simpl in E. now subst s2.
    + simpl in E. injection E as <- ->.
      specialize (IH _ _ H s1 s2 eq_refl). now destruct s1.
Qed.

Lemma greedy_longest p k r : forall g acc b d s',
  forallb p g = true -> p d = false ->
  k (acc ++ g) (match g with [] => b | _ => false end) (d :: s') = Some r ->
  greedy p k acc b (g ++ d :: s') = Some r.
Proof.
  induction g as [|c g IH]; intros acc b d s' Hg Hd Hk.
  - simpl. rewrite Hd. now rewrite app_nil_r in Hk.
  - simpl in Hg. apply andb_true_iff in Hg as [Hc Hg]. simpl. rewrite Hc.
    rewrite (IH (acc ++ [c]) false d s' Hg Hd); [reflexivity|].
    rewrite <- app_assoc. simpl. now destruct g.
Qed.

Lemma rmatch_placeholder_sound b s rest gs :
  rmatch re_placeholder b s = Some (rest, gs) ->
  exists name, s = "{" ++ name ++ "}" ++ rest /\ name <> [] /\ no_brace name = true.
Proof.
  intros H. unfold re_placeholder in H.
  apply rmatch_chr in H as (b1 & s1 & -> & H).
  apply rmatch_cls in H as (name & b2 & s2 & gs2 & -> & Hall & Hq & H & _).
  apply rmatch_chr in H as (b3 & s3 & -> & H).
  injection H as <- _. exists name. repeat split; auto.
Qed.

Lemma rmatch_placeholder_complete b name post :
  name <> [] -> no_brace name = true ->
  rmatch re_placeholder b ("{" ++ name ++ "}" ++ post) = Some (post, []).
Proof.
  intros Hne Hnb. destruct name as [|c name]; [contradiction|].
  simpl in Hnb. apply andb_true_iff in Hnb as [Hc Hnb].
  unfold re_placeholder. cbn [rmatch app quantified chr].
  change (just "{" "{"%char) with true. cbv iota.
  unfold other_than at 1. rewrite Hc.
  rewrite (@greedy_longest _ _ (post, [])); auto.
Qed.

(** [_has_entity_placeholders] finds a placeholder exactly when the
    template holds an opening brace, a name of one character or more
    without a closing brace, and a closing brace. *)
Lemma has_entity_placeholders_iff (template : str) :
  _has_entity_placeholders template = true <->
  exists pre name post,
    template = pre ++ "{" ++ name ++ "}" ++ post /\
    name <> [] /\ no_brace name = true.
Proof.
  unfold _has_entity_placeholders, re_search. split.
  - destruct (search_from re_placeholder true [] template) as [f|] eqn:E;
      [|discriminate].
    intros _. apply search_from_sound in E as (s1 & b' & _ & E2 & E3).
    apply rmatch_placeholder_sound in E3 as (name & E3 & Hne & Hnb).
    exists s1, name, (after f). rewrite E2, E3. repeat split; auto.
  - intros (pre & name & post & -> & Hne & Hnb).
    destruct (search_from re_placeholder true [] _) as [f|] eqn:E; [reflexivity|].
    pose proof (search_from_none _ _ _ E pre _ eq_refl) as H.
    rewrite rmatch_placeholder_complete in H; auto. discriminate.
Qed.

Lemma Qle_bool_range (c : Q) :
  Qle_bool 0 c && Qle_bool c 1 = true <-> (0 <= c /\ c <= 1)%Q.
Proof.
  rewrite andb_true_iff, !Qle_bool_iff. reflexivity.
Qed.

(** C4, as the code has it.  A Pattern is constructed exactly when its id
    is not empty, its template holds a placeholder, its confidence lies
    in [0,1], it has an example and its SPARQL template is not blank; a
    construction that breaks one of the five raises a ValidationError. *)
Theorem Pattern_construction (id tpl sparql : str)
    (types : dict) (exs : list str) (conf : Q) (class prop : str) :
  (id <> [] /\ _has_entity_placeholders tpl = true /\
   (0 <= conf /\ conf <= 1)%Q /\ exs <> [] /\ strip sparql <> [] /\
   new_Pattern id tpl sparql types exs conf class prop =
   Ok {| pattern_id := id; template := tpl; sparql_template := sparql;
         entity_types := types; examples := exs; pattern_confidence := conf;
         domain_class := class; property := prop;
         keywords := _extract_keywords tpl |})
  \/
  ((id = [] \/ _has_entity_placeholders tpl = false \/
    ~ (0 <= conf /\ conf <= 1)%Q \/ exs = [] \/ strip sparql = []) /\
   exists message,
     new_Pattern id tpl sparql types exs conf class prop
     = Err (ValidationError message)).
Proof.
  unfold new_Pattern, Pattern_validate.
  cbn [pattern_id template sparql_template examples pattern_confidence].
  destruct (str_eqb id []) eqn:Hid.
  { right. apply str_eqb_eq in Hid. split; [now left|]. eexists. reflexivity. }
  apply str_eqb_neq in Hid.
  destruct (_has_entity_placeholders tpl) eqn:Hph; cbn [negb].
  2:{ right. split; [now right; left|]. eexists. reflexivity. }
  destruct (Qle_bool 0 conf && Qle_bool conf 1) eqn:Hc; cbn [negb].
  2:{ right. split.
      - right; right; left. intros H. apply Qle_bool_range in H. congruence.
      - eexists. reflexivity. }
  apply Qle_bool_range in Hc.
  destruct exs as [|e es].
  { right. split; [now right; right; right; left|]. eexists. reflexivity. }
  destruct (str_eqb (strip sparql) []) eqn:Hsp.
  { right. apply str_eqb_eq in Hsp. split; [now right; right; right; right|].
    eexists. reflexivity. }
  apply str_eqb_neq in Hsp.
  left. repeat split; auto; try apply Hc. discriminate.
Qed.

(** C4, as the specification has it, fails: a Pattern with a placeholder,
    a confidence in [0,1], an example and a SPARQL template, but with an
    empty id, is not constructed. *)
Lemma Pattern_without_id_is_refused :
  _has_entity_placeholders "meetings with {person}" = true /\
  Qle_bool 0 (f64 0.9) && Qle_bool (f64 0.9) 1 = true /\
  ["meetings with John"] <> [] /\
  strip "SELECT ?m WHERE { ?m kb:hasAttendee ?person }" <> [] /\
  new_Pattern [] "meetings with {person}"
              "SELECT ?m WHERE { ?m kb:hasAttendee ?person }" []
              ["meetings with John"] (f64 0.9) "kb:Meeting" "kb:hasAttendee"
  = Err (ValidationError "Pattern ID cannot be empty").
Proof.
  repeat split; try reflexivity; discriminate.
Qed.

(* ================================================================= *)
(** * [optimize_query] *)

(** Without a FILTER line or without a triple line, [optimize_query]
    returns the text as it is. *)
Lemma optimize_query_identity (sparql : str) (filters patterns other : list str) :
  classify_lines false (split_on nl sparql) = (filters, patterns, other) ->
  filters = [] \/ patterns = [] ->
  optimize_query sparql = Ok sparql.
Proof.
  intros E H. unfold optimize_query. rewrite E.
  destruct H as [-> | ->]; [reflexivity|]. now destruct filters.
Qed.

(** C9. On a query whose WHERE block is one triple line and one FILTER
    line, already in that order, [optimize_query] returns the text without
    its last line, the closing brace of the block: the line is not left in
    its place, and the result is no valid query any more. *)
Theorem optimize_query_drops_closing_brace :
  validate_sparql query_with_filter = true /\
  optimize_query query_with_filter =
  Ok ("SELECT ?s WHERE {" ++ [nl] ++ "  ?s ?p ?o ." ++ [nl] ++ "  FILTER(?o > 1)") /\
  validate_sparql
    ("SELECT ?s WHERE {" ++ [nl] ++ "  ?s ?p ?o ." ++ [nl] ++ "  FILTER(?o > 1)")
  = false.
Proof. repeat split; reflexivity. Qed.

(* ================================================================= *)
(** * The possessive template *)

(** C7. The template with an apostrophe-s compiles to a pattern in which
    the apostrophe is required: [re.escape] leaves the apostrophe as it
    is, so the replacement that would make it optional finds nothing to
    replace.  The input with the apostrophe matches, the input without it
    matches no pattern at all. *)
Theorem possessive_needs_apostrophe :
  re_escape "{person}'s meetings" = "\{person\}'s\ meetings" /\
  _template_to_regex "{person}'s meetings" = "^(.+?)'s\ meetings$" /\
  find_matches (f64 0.7) "Sarah's meetings" sample_grammar =
  Ok [ {| pattern := pattern2; confidence := 1.0;
          entities := [("person", "Sarah")]; match_type := "exact" |} ] /\
  match_text (_template_to_regex "{person}'s meetings") "Sarahs meetings" = Ok None /\
  find_matches (f64 0.7) "Sarahs meetings" sample_grammar = Ok [].
Proof. repeat split; vm_compute; reflexivity. Qed.


(* ================================================================= *)
(** * [build_query] and the validation of its result *)

Lemma validate_sparql_iff (s : str) :
  validate_sparql s = true <-> structurally_valid s.
Proof.
  unfold validate_sparql, structurally_valid. split.
  - destruct (existsb _ _) eqn:Hk; cbn [negb]; [|discriminate].
    destruct (contains "SELECT" (upper s) && negb (contains "WHERE" (upper s))) eqn:Hw;
      [discriminate|].
    destruct (count "{" s =? count "}" s) eqn:Hb; cbn [negb]; [|discriminate].
    destruct (count "(" s =? count ")" s) eqn:Hp; cbn [negb]; [|discriminate].
    intros _. apply existsb_exists in Hk as (kw & Hin & Hkw).
    apply Nat.eqb_eq in Hb, Hp. repeat split; eauto.
    intros Hs. rewrite Hs in Hw. simpl in Hw.
    now destruct (contains "WHERE" (upper s)).
  - intros ((kw & Hin & Hkw) & Hw & Hb & Hp).
    assert (Hk : existsb (fun keyword => contains keyword (upper s))
                   ["SELECT"; "CONSTRUCT"; "ASK"; "DESCRIBE"] = true)
      by (apply existsb_exists; eauto).
    rewrite Hk. cbn [negb].
    destruct (contains "SELECT" (upper s)) eqn:Hs.
    + rewrite (Hw eq_refl). cbn [negb andb].
      now rewrite Hb, Hp, !Nat.eqb_refl.
    + cbn [andb]. now rewrite Hb, Hp, !Nat.eqb_refl.
Qed.

Lemma lstrip_nil (s : str) : lstrip s = [] -> forallb isspace s = true.
Proof.
  induction s as [|c s IH]; [reflexivity|]. simpl.
  destruct (isspace c); [exact IH|discriminate].
Qed.

Lemma strip_nil (s : str) : strip s = [] -> forallb isspace s = true.
Proof.
  unfold strip, rstrip. intros H.
  destruct (lstrip_split s) as (w & E & Hw).
  assert (H' : lstrip (rev (lstrip s)) = []).
  { destruct (lstrip (rev (lstrip s))); [reflexivity|].
    apply (f_equal (@length _)) in H. rewrite length_rev in H. discriminate. }
  apply lstrip_nil in H'. rewrite forallb_rev in H'.
  rewrite E, forallb_app, Hw, H'. reflexivity.
Qed.

Lemma startswith_head (k c : ascii) (kw s : str) :
  startswith (k :: kw) (c :: s) = true -> c = k.
Proof.
  simpl. intros H. apply andb_true_iff in H as [H _]. apply ceqb_eq in H. auto.
Qed.

Lemma contains_head (k : ascii) (kw s : str) :
  contains (k :: kw) s = true -> In k s.
Proof.
  induction s as [|c s IH]; intros H.
  - discriminate.
  - cbn [contains] in H. apply orb_true_iff in H as [H|H].
    + apply startswith_head in H. now left.
    + right. auto.
Qed.

Lemma space_is_not_lower (c : ascii) : isspace c = true -> upper_char c = c.
Proof.
  unfold isspace, upper_char, islower, between. intros H.
  destruct ((97 <=? code c) && (code c <=? 122)) eqn:E; [|reflexivity].
  apply andb_true_iff in E as [E1 E2]. apply Nat.leb_le in E1.
  apply orb_true_iff in H as [H|H]; apply andb_true_iff in H as [_ H];
    apply Nat.leb_le in H; lia.
Qed.

Lemma upper_spaces (s : str) :
  forallb isspace s = true -> forallb isspace (upper s) = true.
Proof.
  induction s as [|c s IH]; [reflexivity|]. simpl. intros H.
  apply andb_true_iff in H as [Hc Hs].
  rewrite (space_is_not_lower _ Hc), Hc. auto.
Qed.

Lemma keyword_not_in_spaces (k : ascii) (kw s : str) :
  isspace k = false -> forallb isspace s = true -> contains (k :: kw) s = false.
Proof.
  intros Hk Hs. destruct (contains (k :: kw) s) eqn:E; [|reflexivity].
  apply contains_head in E. rewrite forallb_forall in Hs.
  rewrite (Hs _ E) in Hk. discriminate.
Qed.

Lemma valid_is_not_blank (s : str) : validate_sparql s = true -> strip s <> [].
Proof.
  intros H E. apply strip_nil, upper_spaces in E.
  unfold validate_sparql in H.
  assert (Hk : existsb (fun keyword => contains keyword (upper s))
                 ["SELECT"; "CONSTRUCT"; "ASK"; "DESCRIBE"] = false).
  { simpl. rewrite !keyword_not_in_spaces; auto. }
  rewrite Hk in H. discriminate.
Qed.

(** The two outcomes of [build_query]. *)
Lemma build_query_outcome (ns : dict) (m : MatchResult)
    (named : option (list str)) (default : option str) :
  let text := built_text ns m named default in
  (structurally_valid text /\
   build_query ns m named default =
   Ok {| query_text := text; variables := _extract_variables text;
         estimated_complexity := _estimate_complexity text;
         optimization_applied := false |})
  \/
  (~ structurally_valid text /\
   build_query ns m named default =
   Err (SPARQLError ("Invalid SPARQL generated: " ++ firstn 100 text ++ "...")
                    None)).
Proof.
  intros text. unfold build_query. fold text.
  destruct (validate_sparql text) eqn:Hv; cbn [negb].
  - left. split; [now apply validate_sparql_iff|].
    unfold new_SPARQLQuery.
    pose proof (valid_is_not_blank _ Hv) as Hne. apply str_eqb_neq in Hne.
    rewrite Hne. reflexivity.
  - right. split; [|reflexivity].
    intros H. apply validate_sparql_iff in H. congruence.
Qed.

(** C2, as the code has it.  [build_query] returns a query exactly when
    the text it has built passes the structural validation, and the query
    carries that text; when the text fails the validation it raises a
    SPARQLError whose message carries the first 100 characters of the
    text, and whose [sparql_query] is not set. *)
Theorem build_query_validates (ns : dict) (m : MatchResult)
    (named : option (list str)) (default : option str) :
  let text := built_text ns m named default in
  (structurally_valid text /\
   build_query ns m named default =
   Ok {| query_text := text; variables := _extract_variables text;
         estimated_complexity := _estimate_complexity text;
         optimization_applied := false |})
  \/
  (~ structurally_valid text /\
   build_query ns m named default =
   Err (SPARQLError ("Invalid SPARQL generated: " ++ firstn 100 text ++ "...")
                    None)).
Proof. apply build_query_outcome. Qed.

(** C2, as the specification has it, fails: for a text of more than 100
    characters that fails the validation, the error raised carries the
    first 100 characters only. *)
Lemma build_query_error_carries_a_prefix :
  validate_sparql (built_text [] long_match None None) = false /\
  length (built_text [] long_match None None) = 141 /\
  exists e, build_query [] long_match None None = Err e /\
            carries e (built_text [] long_match None None) = false /\
            carries e (firstn 100 (built_text [] long_match None None)) = true.
Proof.
  split; [reflexivity|]. split; [reflexivity|].
  eexists. split; [reflexivity|]. split; vm_compute; reflexivity.
Qed.


(* ================================================================= *)
(** * Graph clauses *)

Lemma greedy_none p k : forall s acc b,
  greedy p k acc b s = None ->
  forall g s', s = g ++ s' -> forallb p g = true ->
    k (acc ++ g) (match g with [] => b | _ => false end) s' = None.
Proof.
  induction s as [|c s IH]; intros acc b H g s' E Hg.
  - symmetry in E. apply app_eq_nil in E as [-> ->]. simpl in H.
    now rewrite app_nil_r.
  - simpl in H. destruct g as [|c' g].
    + simpl in E. subst s'. rewrite app_nil_r.
      destruct (p c); [|exact H].
      destruct (greedy p k (acc ++ [c]) false s); [discriminate|exact H].
    + simpl in E. injection E as <- ->. simpl in Hg.
      apply andb_true_iff in Hg as [Hc Hg]. rewrite Hc in H.
      destruct (greedy p k (acc ++ [c]) false (g ++ s')) eqn:E'; [discriminate|].
      specialize (IH _ _ E' g s' eq_refl Hg).
      rewrite <- app_assoc in IH. simpl in IH. now destruct g.
Qed.

(** A greedy repetition stops at the longest text after which the rest of
    the pattern matches. *)
Lemma greedy_last p k : forall s acc b r,
  greedy p k acc b s = Some r ->
  exists g b' s',
    s = g ++ s' /\ forallb p g = true /\ k (acc ++ g) b' s' = Some r /\
    forall g2 s2, s' = g2 ++ s2 -> g2 <> [] -> forallb p g2 = true ->
      k (acc ++ g ++ g2) false s2 = None.
Proof.
  induction s as [|c s IH]; intros acc b r H; simpl in H.
  - exists [], b, []. rewrite !app_nil_r.
    split; [reflexivity|]. split; [reflexivity|]. split; [exact H|].
    intros g2 s2 E Hne. symmetry in E. apply app_eq_nil in E as [-> _].
    contradiction.
  - destruct (p c) eqn:Hc.
    + destruct (greedy p k (acc ++ [c]) false s) as [r0|] eqn:Hg.
      * injection H as <-.
        apply IH in Hg as (g & b' & s' & -> & Hall & Hk & Hmax).
        exists (c :: g), b', s'. simpl. rewrite Hc, Hall.
        rewrite <- app_assoc in Hk.
        split; [reflexivity|]. split; [reflexivity|]. split; [exact Hk|].
        intros g2 s2 E Hne Hg2. specialize (Hmax g2 s2 E Hne Hg2).
        now rewrite <- app_assoc in Hmax.
      * exists [], b, (c :: s). rewrite !app_nil_r.
        split; [reflexivity|]. split; [reflexivity|]. split; [exact H|].
        intros g2 s2 E Hne Hg2. destruct g2 as [|c2 g2]; [contradiction|].
        simpl in E. injection E as <- E. simpl in Hg2.
        apply andb_true_iff in Hg2 as [_ Hg2].
        pose proof (@greedy_none p k s (acc ++ [c]) false Hg g2 s2 E Hg2) as Hn.
        rewrite <- app_assoc in Hn. simpl in Hn. simpl. now destruct g2.
    + exists [], b, (c :: s). rewrite !app_nil_r.
      split; [reflexivity|]. split; [reflexivity|]. split; [exact H|].
      intros g2 s2 E Hne Hg2. destruct g2 as [|c2 g2]; [contradiction|].
      simpl in E. injection E as <- E. simpl in Hg2. rewrite Hc in Hg2.
      discriminate.
Qed.

Lemma rmatch_star_last p cap its b s r gs :
  rmatch (Cls p Star cap :: its) b s = Some (r, gs) ->
  exists g b' s' gs',
    s = g ++ s' /\ forallb p g = true /\
    rmatch its b' s' = Some (r, gs') /\ gs = (if cap then g :: gs' else gs') /\
    forall g2 s2, s' = g2 ++ s2 -> g2 <> [] -> forallb p g2 = true ->
      rmatch its false s2 = None.
Proof.
  intros H. cbn [rmatch] in H.
  assert (H' : greedy p
            (fun g b0 s' =>
               match rmatch its b0 s' with
               | Some (r, gs) => Some (r, if cap then g :: gs else gs)
               | None => None
               end) [] b s = Some (r, gs)) by (destruct s; exact H).
  apply greedy_last in H' as (g & b' & s' & -> & Hall & Hk & Hmax).
  simpl in Hk. destruct (rmatch its b' s') as [[r' gs']|] eqn:E; [|discriminate].
  injection Hk as <- <-. exists g, b', s', gs'. repeat split; auto.
  intros g2 s2 E2 Hne Hg2. specialize (Hmax g2 s2 E2 Hne Hg2). simpl in Hmax.
  now destruct (rmatch its false s2) as [[? ?]|].
Qed.

Lemma rmatch_ci c its b s r gs :
  rmatch (chr (ci c) :: its) b s = Some (r, gs) ->
  exists x b' s', s = x :: s' /\ lower_char x = lower_char c /\
                  rmatch its b' s' = Some (r, gs).
Proof.
  intros H. apply rmatch_cls in H as (g & b' & s' & gs' & -> & Hall & Hq & Hm & ->).
  apply length_one in Hq as [x ->]. simpl in Hall. rewrite andb_true_r in Hall.
  apply ceqb_eq in Hall. now exists x, b', s'.
Qed.

Lemma forallb_any (s : str) : forallb any s = true.
Proof. induction s; auto. Qed.

Lemma no_brace_intro (s : str) :
  (forall x y, s <> x ++ "}"%char :: y) -> no_brace s = true.
Proof.
  induction s as [|c s IH]; intros H; [reflexivity|]. simpl.
  destruct (ceqb c "}") eqn:E.
  - apply ceqb_eq in E. subst c. exfalso. now apply (H [] s).
  - simpl. apply IH. intros x y ->. now apply (H (c :: x) y).
Qed.

(** What the pattern of [_add_graph_clauses] finds: the key word in any
    case, whitespace, and the text between the brace that follows and the
    last closing brace of the whole text. *)
Lemma where_match_shape (s : str) (f : found) :
  re_search re_where s = Some f ->
  exists keyword spaces body,
    s = before f ++ keyword ++ spaces ++ "{" ++ body ++ "}" ++ after f /\
    lower keyword = "where" /\ forallb isspace spaces = true /\
    groups f = [body] /\ no_brace (after f) = true.
Proof.
  unfold re_search. intros H.
  apply search_from_sound in H as (s1 & b0 & E1 & E2 & H).
  simpl in E1. subst s1. rewrite E2. clear E2.
  unfold re_where in H. cbn [word_ci map app] in H.
  apply rmatch_ci in H as (x1 & b1 & t1 & E & L1 & H).
  apply rmatch_ci in H as (x2 & b2 & t2 & -> & L2 & H).
  apply rmatch_ci in H as (x3 & b3 & t3 & -> & L3 & H).
  apply rmatch_ci in H as (x4 & b4 & t4 & -> & L4 & H).
  apply rmatch_ci in H as (x5 & b5 & t5 & -> & L5 & H).
  apply rmatch_cls in H as (ws & b6 & t6 & gs6 & -> & Hws & _ & H & ->).
  apply rmatch_chr in H as (b7 & t7 & -> & H).
  apply rmatch_star_last in H as (body & b8 & t8 & gs8 & -> & _ & H & Egs & Hmax).
  apply rmatch_chr in H as (b9 & t9 & -> & H). injection H as Ht Hgs.
  subst t9 gs8. cbn iota in Egs.
  exists [x1; x2; x3; x4; x5], ws, body. rewrite E.
  split; [reflexivity|].
  split; [simpl; now rewrite L1, L2, L3, L4, L5|].
  split; [exact Hws|]. split; [exact Egs|].
  apply no_brace_intro. intros x y Ea.
  specialize (Hmax ("}"%char :: x) ("}"%char :: y)).
  rewrite Ea in Hmax. specialize (Hmax eq_refl).
  discriminate Hmax; [discriminate|apply forallb_any].
Qed.

Lemma split_on_one_line (s : str) : one_line s = true -> split_on nl s = [s].
Proof.
  induction s as [|c s IH]; [reflexivity|]. simpl. intros H.
  apply andb_true_iff in H as [Hc Hs]. rewrite (IH Hs).
  now destruct (ceqb c nl).
Qed.

Lemma build_query_text ns m named default q :
  build_query ns m named default = Ok q ->
  query_text q = built_text ns m named default.
Proof.
  intros H. destruct (build_query_outcome ns m named default) as [[_ E]|[_ E]];
    rewrite E in H; [|discriminate].
  now injection H as <-.
Qed.

(** C8, as the code has it.  When the text has a WHERE clause, its body
    is the text between the brace after WHERE and the last closing brace.
    With one graph URI the trimmed body is wrapped in one GRAPH block;
    with two graph URIs the body becomes two GRAPH blocks with one UNION
    line between them, each holding the trimmed body with four spaces
    added after each of its line feeds: the body itself when it is one
    line. *)
Theorem graph_wrapping (ns : dict) (m : MatchResult)
    (named : option (list str)) (default : option str)
    (q : SPARQLQuery) (f : found) :
  build_query ns m named default = Ok q ->
  re_search re_where (prefixed_text ns m) = Some f ->
  exists keyword spaces body,
    prefixed_text ns m
    = before f ++ keyword ++ spaces ++ "{" ++ body ++ "}" ++ after f /\
    lower keyword = "where" /\ forallb isspace spaces = true /\
    no_brace (after f) = true /\
    (forall g, graphs_to_query named default = [g] ->
       query_text q
       = before f ++ "WHERE {" ++ [nl] ++ "  GRAPH <" ++ g ++ "> {" ++ [nl]
         ++ "    " ++ strip body ++ [nl] ++ "  }" ++ [nl] ++ "}" ++ after f) /\
    (forall g1 g2, graphs_to_query named default = [g1; g2] ->
       query_text q
       = before f ++ "WHERE {" ++ [nl] ++ graph_block (strip body) g1 ++ [nl]
         ++ "  UNION" ++ [nl] ++ graph_block (strip body) g2 ++ [nl] ++ "}"
         ++ after f) /\
    (forall g,
       graph_block (strip body) g
       = "  {" ++ [nl] ++ "    GRAPH <" ++ g ++ "> {" ++ [nl] ++ "      "
         ++ join ([nl] ++ "    ") (split_on nl (strip body))
         ++ [nl] ++ "    }" ++ [nl] ++ "  }") /\
    (one_line (strip body) = true ->
     join ([nl] ++ "    ") (split_on nl (strip body)) = strip body).
Proof.
  intros Hq Hf. apply build_query_text in Hq.
  destruct (where_match_shape _ Hf) as (kw & ws & body & E & Hkw & Hws & Hg & Ha).
  exists kw, ws, body. split; [exact E|]. split; [exact Hkw|].
  split; [exact Hws|]. split; [exact Ha|]. split; [|split; [|split]].
  - intros g Hgs. rewrite Hq. unfold built_text, _add_graph_clauses.
    rewrite Hgs, Hf, Hg. cbn [hd]. now rewrite <- !app_assoc.
  - intros g1 g2 Hgs. rewrite Hq. unfold built_text, _add_graph_clauses.
    rewrite Hgs, Hf, Hg. cbn [hd map join]. now rewrite <- !app_assoc.
  - reflexivity.
  - intros H1. now rewrite (split_on_one_line _ H1).
Qed.

Lemma graph_wrapping_witness :
  build_query [] two_line_match two_graphs None = Ok two_line_query /\
  re_search re_where (prefixed_text [] two_line_match) = Some two_line_found /\
  exists keyword spaces body,
    prefixed_text [] two_line_match
    = before two_line_found ++ keyword ++ spaces ++ "{" ++ body ++ "}"
      ++ after two_line_found /\
    lower keyword = "where" /\ forallb isspace spaces = true /\
    no_brace (after two_line_found) = true /\
    (forall g, graphs_to_query two_graphs None = [g] ->
       query_text two_line_query
       = before two_line_found ++ "WHERE {" ++ [nl] ++ "  GRAPH <" ++ g
         ++ "> {" ++ [nl] ++ "    " ++ strip body ++ [nl] ++ "  }" ++ [nl]
         ++ "}" ++ after two_line_found) /\
    (forall g1 g2, graphs_to_query two_graphs None = [g1; g2] ->
       query_text two_line_query
       = before two_line_found ++ "WHERE {" ++ [nl]
         ++ graph_block (strip body) g1 ++ [nl] ++ "  UNION" ++ [nl]
         ++ graph_block (strip body) g2 ++ [nl] ++ "}"
         ++ after two_line_found) /\
    (forall g,
       graph_block (strip body) g
       = "  {" ++ [nl] ++ "    GRAPH <" ++ g ++ "> {" ++ [nl] ++ "      "
         ++ join ([nl] ++ "    ") (split_on nl (strip body))
         ++ [nl] ++ "    }" ++ [nl] ++ "  }") /\
    (one_line (strip body) = true ->
     join ([nl] ++ "    ") (split_on nl (strip body)) = strip body).
Proof.
  split; [vm_compute; reflexivity|]. split; [vm_compute; reflexivity|].
  apply (@graph_wrapping [] two_line_match two_graphs None two_line_query
           two_line_found); vm_compute; reflexivity.
Defined.

(** C8, as the specification has it, fails: with two graph URIs and a
    WHERE body of two lines, the body is nowhere in the result as it was,
    because its second line is indented by four more spaces. *)
Lemma graph_blocks_reindent_the_body :
  build_query [] two_line_match two_graphs None = Ok two_line_query /\
  re_search re_where (prefixed_text [] two_line_match) = Some two_line_found /\
  strip (hd [] (groups two_line_found)) = "?s ?p ?o ." ++ [nl] ++ "  ?s a ?t" /\
  contains ("?s ?p ?o ." ++ [nl] ++ "  ?s a ?t") (query_text two_line_query)
  = false /\
  contains ("?s ?p ?o ." ++ [nl] ++ "      ?s a ?t") (query_text two_line_query)
  = true.
Proof. repeat split; vm_compute; reflexivity. Qed.


(* ================================================================= *)
(** * The similarity ratio lies between 0 and 1 *)

Section SequenceMatcherFacts.
Variable A : Type.
Variable eqb : A -> A -> bool.
Variable popular : A -> bool.

Lemma chain_le (a b : list A) :
  chain eqb popular a b <= length a /\ chain eqb popular a b <= length b.
Proof.
  revert b. induction a as [|x a IH]; intros [|y b]; simpl; try lia.
  destruct (eqb x y && negb (popular y)); [|lia].
  specialize (IH b). lia.
Qed.

Lemma common_prefix_le (a b : list A) :
  common_prefix eqb a b <= length a /\ common_prefix eqb a b <= length b.
Proof.
  revert b. induction a as [|x a IH]; intros [|y b]; simpl; try lia.
  destruct (eqb x y); [|lia].
  specialize (IH b). lia.
Qed.

Lemma scan_b_within (la lb : nat) (a : list A) (i : nat) :
  i + length a <= la ->
  forall b j best,
    j + length b <= lb -> within la lb best ->
    within la lb (scan_b eqb popular a b i j best).
Proof.
  intros Ha. induction b as [|y b IH]; intros j best Hb Hbest; simpl; auto.
  apply IH; [simpl in Hb; lia|].
  destruct (size best <? chain eqb popular a (y :: b)); auto.
  pose proof (chain_le a (y :: b)). unfold within. simpl in *. lia.
Qed.

Lemma scan_a_within (la lb : nat) (b : list A) :
  length b <= lb ->
  forall a i best,
    i + length a <= la -> within la lb best ->
    within la lb (scan_a eqb popular a b i best).
Proof.
  intros Hb. induction a as [|x a IH]; intros i best Ha Hbest; simpl; auto.
  apply IH; [simpl in Ha; lia|].
  apply scan_b_within; auto.
Qed.

Lemma find_longest_match_within (a b : list A) :
  within (length a) (length b) (find_longest_match eqb popular a b).
Proof.
  unfold find_longest_match.
  pose proof (@scan_a_within (length a) (length b) b (le_n _) a 0 (0, 0, 0)) as H.
  destruct (scan_a eqb popular a b 0 (0, 0, 0)) as [[i j] k].
  assert (Hw : within (length a) (length b) (i, j, k)).
  { apply H; [lia|]. unfold within. simpl. lia. }
  clear H. unfold within in *. simpl in *.
  pose proof (common_prefix_le (rev (firstn i a)) (rev (firstn j b))) as Hl.
  pose proof (common_prefix_le (skipn (i + k) a) (skipn (j + k) b)) as Hr.
  rewrite !length_rev, !length_firstn in Hl. rewrite !length_skipn in Hr.
  lia.
Qed.

Lemma matching_le : forall fuel (a b : list A),
  matching eqb popular fuel a b <= length a /\
  matching eqb popular fuel a b <= length b.
Proof.
  induction fuel as [|fuel IH]; intros a b; simpl; [lia|].
  pose proof (find_longest_match_within a b) as Hw.
  destruct (find_longest_match eqb popular a b) as [[i j] k].
  unfold within in Hw. simpl in Hw.
  destruct (k =? 0); [lia|].
  pose proof (IH (firstn i a) (firstn j b)) as H1.
  pose proof (IH (skipn (i + k) a) (skipn (j + k) b)) as H2.
  rewrite !length_firstn in H1. rewrite !length_skipn in H2. lia.
Qed.
End SequenceMatcherFacts.

(* ================================================================= *)
(** * Rounding to binary64 *)

Section Binary64.
Local Open Scope Q_scope.

Lemma pow2_pos (e : Z) : 0 < pow2 e.
Proof. apply Qpower_0_lt. reflexivity. Qed.

Lemma pow2_add (a b : Z) : pow2 (a + b) == pow2 a * pow2 b.
Proof. apply Qpower_plus. discriminate. Qed.

Lemma pow2_le (a b : Z) : (a <= b)%Z -> pow2 a <= pow2 b.
Proof. intros H. apply Qpower_le_compat_l; [exact H|discriminate]. Qed.

Lemma pow2_lt_inv (a b : Z) : pow2 a < pow2 b -> (a < b)%Z.
Proof. intros H. apply (Qpower_lt_compat_l_inv 2); [exact H|reflexivity]. Qed.

Lemma pow2_Z (a : Z) : (0 <= a)%Z -> pow2 a == inject_Z (2 ^ a).
Proof. intros H. unfold pow2. rewrite (Zpower_Qpower 2 a H). reflexivity. Qed.

Lemma pow2_shift (a b : Z) : pow2 a == pow2 (a - b) * pow2 b.
Proof. rewrite <- pow2_add. replace (a - b + b)%Z with a by lia. reflexivity. Qed.

Lemma Q_as_quotient (x : Q) : x * inject_Z (Zpos (Qden x)) == inject_Z (Qnum x).
Proof.
  destruct x as [n d]. unfold Qeq, Qmult, inject_Z. simpl. lia.
Qed.

Lemma mag_spec (x : Q) : 0 < x -> pow2 (mag x) <= x /\ x < pow2 (mag x + 1).
Proof.
  intros Hx.
  assert (Hn : (0 < Qnum x)%Z).
  { destruct x as [n d]. unfold Qlt in Hx. simpl in *. lia. }
  pose proof (Z.log2_spec _ Hn) as [Ha1 Ha2].
  pose proof (Z.log2_spec (Zpos (Qden x)) eq_refl) as [Hb1 Hb2].
  pose proof (Z.log2_nonneg (Qnum x)) as Ha0.
  pose proof (Z.log2_nonneg (Zpos (Qden x))) as Hb0.
  set (a := Z.log2 (Qnum x)) in *. set (b := Z.log2 (Zpos (Qden x))) in *.
  pose proof (Q_as_quotient x) as Hq.
  assert (Hd : 0 < inject_Z (Zpos (Qden x))) by reflexivity.
  rewrite Zle_Qle in Ha1, Hb1. rewrite Zlt_Qlt in Ha2, Hb2.
  rewrite <- (pow2_Z Ha0) in Ha1. rewrite <- (pow2_Z Hb0) in Hb1.
  rewrite <- pow2_Z in Ha2 by lia. rewrite <- pow2_Z in Hb2 by lia.
  set (D := inject_Z (Zpos (Qden x))) in *.
  set (N := inject_Z (Qnum x)) in *.
  unfold mag. fold a b.
  destruct (Qle_bool (pow2 (a - b)) x) eqn:E.
  - apply Qle_bool_iff in E. split; [exact E|].
    apply (Qmult_lt_r _ _ D Hd). rewrite Hq.
    apply Qlt_le_trans with (1 := Ha2).
    replace (Z.succ a) with ((a - b + 1) + b)%Z by lia. rewrite pow2_add.
    apply Qmult_le_l; [apply pow2_pos|exact Hb1].
  - assert (E' : x < pow2 (a - b)).
    { apply Qnot_le_lt. intros H. apply Qle_bool_iff in H. congruence. }
    split.
    + apply (Qmult_le_r _ _ D Hd). rewrite Hq.
      apply Qle_trans with (2 := Ha1).
      rewrite (pow2_shift a (Z.succ b)).
      replace (a - Z.succ b)%Z with (a - b - 1)%Z by lia.
      apply Qmult_le_l; [apply pow2_pos|]. apply Qlt_le_weak. exact Hb2.
    + replace (a - b - 1 + 1)%Z with (a - b)%Z by lia. exact E'.
Qed.

Lemma mag_unique (x : Q) (e : Z) :
  0 < x -> pow2 e <= x -> x < pow2 (e + 1) -> mag x = e.
Proof.
  intros Hx H1 H2. destruct (mag_spec Hx) as [M1 M2].
  assert (A : (mag x < e + 1)%Z).
  { apply pow2_lt_inv. apply Qle_lt_trans with (1 := M1). exact H2. }
  assert (B : (e < mag x + 1)%Z).
  { apply pow2_lt_inv. apply Qle_lt_trans with (1 := H1). exact M2. }
  lia.
Qed.

Lemma mag_le (x y : Q) : 0 < x -> x <= y -> (mag x <= mag y)%Z.
Proof.
  intros Hx Hxy.
  assert (Hy : 0 < y) by (apply Qlt_le_trans with (1 := Hx); exact Hxy).
  destruct (mag_spec Hx) as [M1 _]. destruct (mag_spec Hy) as [_ N2].
  assert (A : (mag x < mag y + 1)%Z).
  { apply pow2_lt_inv. apply Qle_lt_trans with (1 := M1).
    apply Qle_lt_trans with (1 := Hxy). exact N2. }
  lia.
Qed.

Lemma mag_comp (x y : Q) : 0 < x -> x == y -> mag x = mag y.
Proof.
  intros Hx E. assert (Hy : 0 < y) by (rewrite <- E; exact Hx).
  destruct (mag_spec Hy) as [N1 N2].
  apply mag_unique; [exact Hx|rewrite E; exact N1|rewrite E; exact N2].
Qed.

Lemma nearest_even_Z (k : Z) : nearest_even (inject_Z k) = k.
Proof.
  unfold nearest_even. rewrite Qfloor_Z.
  replace (inject_Z k - inject_Z k ?= 1 # 2) with Lt; [reflexivity|].
  symmetry. apply Qlt_alt. setoid_replace (inject_Z k - inject_Z k) with 0 by ring.
  reflexivity.
Qed.

Lemma nearest_even_comp (x y : Q) : x == y -> nearest_even x = nearest_even y.
Proof.
  intros E. unfold nearest_even. rewrite (Qfloor_comp _ _ E).
  replace (x - inject_Z (Qfloor y) ?= 1 # 2)
    with (y - inject_Z (Qfloor y) ?= 1 # 2); [reflexivity|].
  apply Qcompare_comp; [lra|reflexivity].
Qed.

Lemma nearest_even_bounds (x : Q) :
  (Qfloor x <= nearest_even x <= Qfloor x + 1)%Z.
Proof.
  unfold nearest_even.
  destruct (x - inject_Z (Qfloor x) ?= 1 # 2); [destruct (Z.even _)| |]; lia.
Qed.

Lemma nearest_even_le (x y : Q) : x <= y -> (nearest_even x <= nearest_even y)%Z.
Proof.
  intros H. pose proof (Qfloor_resp_le _ _ H) as Hf.
  pose proof (nearest_even_bounds x) as Bx.
  pose proof (nearest_even_bounds y) as By.
  destruct (Z.eq_dec (Qfloor x) (Qfloor y)) as [E|NE]; [|lia].
  unfold nearest_even. rewrite <- E.
  destruct (Qcompare_spec (x - inject_Z (Qfloor x)) (1 # 2)) as [X|X|X];
    destruct (Qcompare_spec (y - inject_Z (Qfloor x)) (1 # 2)) as [Y|Y|Y];
    try (destruct (Z.even (Qfloor x))); try lia; exfalso; lra.
Qed.

Lemma cexp_comp (x y : Q) : 0 < x -> x == y -> cexp x = cexp y.
Proof. intros Hx E. unfold cexp. rewrite (mag_comp Hx E). reflexivity. Qed.

Lemma round64_pos_value (x : Q) :
  round64_pos x == inject_Z (nearest_even (x / pow2 (cexp x))) * pow2 (cexp x).
Proof. unfold round64_pos. apply Qred_correct. Qed.

Lemma round64_pos_comp (x y : Q) :
  0 < x -> x == y -> round64_pos x = round64_pos y.
Proof.
  intros Hx E. unfold round64_pos. apply Qred_complete.
  rewrite <- (cexp_comp Hx E).
  rewrite (@nearest_even_comp (x / pow2 (cexp x)) (y / pow2 (cexp x))).
  - reflexivity.
  - unfold Qdiv. apply Qmult_comp; [exact E|reflexivity].
Qed.

(** The significand of a positive number before it is rounded. *)
Lemma scaled_bounds (x : Q) :
  0 < x ->
  0 < x / pow2 (cexp x) /\ x / pow2 (cexp x) < inject_Z (2 ^ 53) /\
  ((-1022 <= mag x)%Z -> inject_Z (2 ^ 52) <= x / pow2 (cexp x)).
Proof.
  intros Hx. destruct (mag_spec Hx) as [M1 M2].
  pose proof (pow2_pos (cexp x)) as Hc.
  repeat split.
  - apply Qlt_shift_div_l; [exact Hc|]. rewrite Qmult_0_l. exact Hx.
  - apply Qlt_shift_div_r; [exact Hc|].
    apply Qlt_le_trans with (1 := M2).
    rewrite <- (pow2_Z (a := 53)) by lia. rewrite <- pow2_add.
    apply pow2_le. unfold cexp. lia.
  - intros Hn. apply Qle_shift_div_l; [exact Hc|].
    apply Qle_trans with (2 := M1).
    rewrite <- (pow2_Z (a := 52)) by lia. rewrite <- pow2_add.
    apply pow2_le. unfold cexp. lia.
Qed.

Lemma significand_bounds (x : Q) :
  0 < x ->
  (0 <= nearest_even (x / pow2 (cexp x)) <= 2 ^ 53)%Z /\
  ((-1022 <= mag x)%Z -> (2 ^ 52 <= nearest_even (x / pow2 (cexp x)))%Z).
Proof.
  intros Hx. destruct (scaled_bounds Hx) as (S0 & S1 & S2).
  repeat split.
  - rewrite <- (nearest_even_Z 0). apply nearest_even_le.
    apply Qlt_le_weak. exact S0.
  - rewrite <- (nearest_even_Z (2 ^ 53)). apply nearest_even_le.
    apply Qlt_le_weak. exact S1.
  - intros Hn. rewrite <- (nearest_even_Z (2 ^ 52)). apply nearest_even_le.
    exact (S2 Hn).
Qed.

Lemma round64_pos_nonneg (x : Q) : 0 < x -> 0 <= round64_pos x.
Proof.
  intros Hx. rewrite round64_pos_value.
  destruct (significand_bounds Hx) as [[K0 _] _].
  apply Qmult_le_0_compat.
  - rewrite Zle_Qle in K0. exact K0.
  - apply Qlt_le_weak, pow2_pos.
Qed.

Lemma round64_pos_le (x y : Q) :
  0 < x -> x <= y -> round64_pos x <= round64_pos y.
Proof.
  intros Hx Hxy.
  assert (Hy : 0 < y) by (apply Qlt_le_trans with (1 := Hx); exact Hxy).
  pose proof (mag_le Hx Hxy) as Hm.
  rewrite !round64_pos_value.
  destruct (significand_bounds Hx) as [[_ Kx] _].
  destruct (significand_bounds Hy) as [[Ky0 _] Ky].
  set (kx := nearest_even (x / pow2 (cexp x))) in *.
  set (ky := nearest_even (y / pow2 (cexp y))) in *.
  destruct (Z.eq_dec (cexp x) (cexp y)) as [E|NE].
  - unfold kx, ky. rewrite <- E.
    apply Qmult_le_compat_r; [|apply Qlt_le_weak, pow2_pos].
    rewrite <- Zle_Qle.
    apply nearest_even_le. apply Qmult_le_compat_r; [exact Hxy|].
    apply Qlt_le_weak, Qinv_lt_0_compat, pow2_pos.
  - assert (Hc : (cexp x + 1 <= cexp y)%Z) by (unfold cexp in *; lia).
    assert (Hn : (-1022 <= mag y)%Z) by (unfold cexp in *; lia).
    specialize (Ky Hn).
    apply Qle_trans with (inject_Z (2 ^ 53) * pow2 (cexp x)).
    + apply Qmult_le_compat_r; [|apply Qlt_le_weak, pow2_pos].
      rewrite <- Zle_Qle. exact Kx.
    + apply Qle_trans with (inject_Z (2 ^ 52) * pow2 (cexp y)).
      * rewrite <- (pow2_Z (a := 53)), <- (pow2_Z (a := 52)) by lia.
        rewrite <- !pow2_add. apply pow2_le. lia.
      * apply Qmult_le_compat_r; [|apply Qlt_le_weak, pow2_pos].
        rewrite <- Zle_Qle. exact Ky.
Qed.

(** A number of at most 53 bits times a power of two is kept. *)
Lemma round64_pos_representable (k ex : Z) :
  (1 <= k <= 2 ^ 53)%Z -> (-1074 <= ex)%Z ->
  round64_pos (inject_Z k * pow2 ex) == inject_Z k * pow2 ex.
Proof.
  intros Hk Hex. set (x := inject_Z k * pow2 ex).
  assert (Hx : 0 < x).
  { unfold x. apply Qmult_lt_0_compat; [|apply pow2_pos].
    change 0 with (inject_Z 0). rewrite <- Zlt_Qlt. lia. }
  assert (Hk0 : (0 < k)%Z) by lia.
  pose proof (Z.log2_spec _ Hk0) as [L1 L2].
  pose proof (Z.log2_nonneg k) as L0.
  set (l := Z.log2 k) in *.
  assert (Hm : mag x = (l + ex)%Z).
  { apply mag_unique; [exact Hx| |]; unfold x.
    - rewrite pow2_add. apply Qmult_le_compat_r; [|apply Qlt_le_weak, pow2_pos].
      rewrite (pow2_Z L0), <- Zle_Qle. exact L1.
    - replace (l + ex + 1)%Z with (Z.succ l + ex)%Z by lia. rewrite pow2_add.
      apply Qmult_lt_compat_r; [apply pow2_pos|].
      rewrite pow2_Z by lia. rewrite <- Zlt_Qlt. exact L2. }
  rewrite round64_pos_value. fold x.
  assert (Hl : (l <= 53)%Z).
  { destruct (Z_lt_le_dec 53 l) as [H|H]; [|exact H]. exfalso.
    assert (2 ^ 54 <= 2 ^ l)%Z by (apply Z.pow_le_mono_r; lia).
    assert (2 ^ 53 < 2 ^ 54)%Z by reflexivity. lia. }
  destruct (Z_le_lt_eq_dec _ _ Hl) as [Hlt|Heq].
  - (* at most 53 bits *)
    assert (Hc : (cexp x <= ex)%Z) by (unfold cexp; rewrite Hm; lia).
    set (c := cexp x) in *.
    assert (Hs : x / pow2 c == inject_Z (k * 2 ^ (ex - c))).
    { unfold x. rewrite inject_Z_mult, <- pow2_Z by lia.
      rewrite (pow2_shift ex c). field.
      intros H. pose proof (pow2_pos c) as P. rewrite H in P. discriminate. }
    rewrite (nearest_even_comp Hs), nearest_even_Z.
    unfold x. rewrite inject_Z_mult, <- pow2_Z by lia.
    rewrite (pow2_shift ex c). ring.
  - (* the power 2 ** 53 *)
    assert (Hk' : k = (2 ^ 53)%Z).
    { rewrite Heq in L1. lia. }
    assert (Hc : cexp x = (ex + 1)%Z) by (unfold cexp; rewrite Hm; lia).
    rewrite Hc.
    assert (Hs : x / pow2 (ex + 1) == inject_Z (2 ^ 52)).
    { unfold x. rewrite Hk'. rewrite pow2_add.
      change (pow2 1) with 2. 
      change (inject_Z (2 ^ 53)) with (2 * inject_Z (2 ^ 52)). field.
      intros H. pose proof (pow2_pos ex) as P. rewrite H in P. discriminate. }
    rewrite (nearest_even_comp Hs), nearest_even_Z.
    unfold x. rewrite Hk', pow2_add.
    change (pow2 1) with 2.
    change (inject_Z (2 ^ 53)) with (2 * inject_Z (2 ^ 52)). ring.
Qed.

(** What [round64_pos] gives is such a number, or zero. *)
Lemma round64_pos_shape (x : Q) :
  0 < x ->
  exists k ex, (0 <= k <= 2 ^ 53)%Z /\ (-1074 <= ex)%Z /\
               round64_pos x == inject_Z k * pow2 ex.
Proof.
  intros Hx. exists (nearest_even (x / pow2 (cexp x))), (cexp x).
  destruct (significand_bounds Hx) as [K _].
  split; [exact K|]. split; [unfold cexp; lia|]. apply round64_pos_value.
Qed.

Lemma round64_pos_twice (x : Q) :
  pow2 (-1022) <= x -> round64_pos (2 * x) == 2 * round64_pos x.
Proof.
  intros Hn.
  assert (Hx : 0 < x) by (apply Qlt_le_trans with (2 := Hn); apply pow2_pos).
  assert (Hx2 : 0 < 2 * x) by lra.
  destruct (mag_spec Hx) as [M1 M2].
  assert (Hm : (-1022 <= mag x)%Z).
  { assert (-1022 < mag x + 1)%Z; [|lia]. apply pow2_lt_inv.
    apply Qle_lt_trans with (1 := Hn). exact M2. }
  assert (Hm2 : mag (2 * x) = (mag x + 1)%Z).
  { apply mag_unique; [exact Hx2| |].
    - rewrite pow2_add. change (pow2 1) with 2. lra.
    - rewrite (pow2_add (mag x + 1) 1). change (pow2 1) with 2. lra. }
  assert (Hc : cexp (2 * x) = (cexp x + 1)%Z) by (unfold cexp; rewrite Hm2; lia).
  rewrite !round64_pos_value, Hc.
  assert (Hs : 2 * x / pow2 (cexp x + 1) == x / pow2 (cexp x)).
  { rewrite pow2_add. change (pow2 1) with 2. field.
    intros H. pose proof (pow2_pos (cexp x)) as P. rewrite H in P. discriminate. }
  rewrite (nearest_even_comp Hs), pow2_add. change (pow2 1) with 2. ring.
Qed.

Lemma round64_0 : round64 0 = 0.
Proof. reflexivity. Qed.

Lemma round64_of_pos (x : Q) : 0 < x -> round64 x = round64_pos x.
Proof.
  intros Hx. unfold round64.
  destruct (Qcompare_spec x 0) as [E|E|E]; [| |reflexivity]; exfalso; lra.
Qed.

Lemma round64_of_zero (x : Q) : x == 0 -> round64 x = 0.
Proof.
  intros Hx. unfold round64.
  destruct (Qcompare_spec x 0) as [E|E|E]; [reflexivity| |]; exfalso; lra.
Qed.

Lemma round64_nonneg (x : Q) : 0 <= x -> 0 <= round64 x.
Proof.
  intros Hx. destruct (Qle_lt_or_eq _ _ Hx) as [H|H].
  - rewrite (round64_of_pos H). apply round64_pos_nonneg, H.
  - rewrite round64_of_zero; [apply Qle_refl|symmetry; exact H].
Qed.

Lemma round64_le (x y : Q) : 0 <= x -> x <= y -> round64 x <= round64 y.
Proof.
  intros Hx Hxy. destruct (Qle_lt_or_eq _ _ Hx) as [H|H].
  - assert (Hy : 0 < y) by lra.
    rewrite (round64_of_pos H), (round64_of_pos Hy).
    apply round64_pos_le; assumption.
  - rewrite (@round64_of_zero x) by (symmetry; exact H).
    apply round64_nonneg. lra.
Qed.

Lemma round64_comp (x y : Q) : x == y -> round64 x = round64 y.
Proof.
  intros E. unfold round64. rewrite <- (Qcompare_comp _ _ E 0 0 (Qeq_refl 0)).
  destruct (Qcompare_spec x 0) as [H|H|H].
  - reflexivity.
  - f_equal. apply round64_pos_comp; [lra|rewrite E; reflexivity].
  - apply round64_pos_comp; assumption.
Qed.

Lemma round64_representable (k ex : Z) :
  (0 <= k <= 2 ^ 53)%Z -> (-1074 <= ex)%Z ->
  round64 (inject_Z k * pow2 ex) == inject_Z k * pow2 ex.
Proof.
  intros Hk Hex. destruct (Z.eq_dec k 0) as [->|Hk0].
  - rewrite round64_of_zero; ring.
  - rewrite round64_of_pos.
    + apply round64_pos_representable; [lia|exact Hex].
    + apply Qmult_lt_0_compat; [|apply pow2_pos].
      change 0 with (inject_Z 0). rewrite <- Zlt_Qlt. lia.
Qed.

(** Rounding what is rounded changes nothing. *)
Lemma round64_idem (x : Q) : 0 <= x -> round64 (round64 x) == round64 x.
Proof.
  intros Hx. destruct (Qle_lt_or_eq _ _ Hx) as [H|H].
  - rewrite (round64_of_pos H).
    destruct (round64_pos_shape H) as (k & ex & Hk & Hex & E).
    rewrite (round64_comp E), E. apply round64_representable; assumption.
  - rewrite (@round64_of_zero x) by (symmetry; exact H). reflexivity.
Qed.

Lemma round64_twice (x : Q) : 1 <= x -> round64 (2 * x) == 2 * round64 x.
Proof.
  intros Hx. rewrite !round64_of_pos by lra.
  apply round64_pos_twice. apply Qle_trans with (2 := Hx).
  change 1 with (pow2 0). apply pow2_le. lia.
Qed.

(** The integers up to [2 ** 53] are binary64 numbers. *)
Lemma round64_Z (n : Z) :
  (0 <= n <= 2 ^ 53)%Z -> round64 (inject_Z n) == inject_Z n.
Proof.
  intros Hn. pose proof (@round64_representable n 0 Hn ltac:(lia)) as H.
  change (pow2 0) with 1 in H.
  rewrite (@round64_comp (inject_Z n) (inject_Z n * 1)) by ring.
  rewrite H. ring.
Qed.

End Binary64.

(** The operations agree with those of the Standard Library's binary64
    numbers: on some quotients, sums and products, and on the steps of
    the score of [score_below_the_threshold] further down. *)
Example round64_as_SpecFloat :
  let n := binary64_of_Z in
  let div := SpecFloat.SFdiv 53 1024 in
  let mul := SpecFloat.SFmul 53 1024 in
  let add := SpecFloat.SFadd 53 1024 in
  value_of (div (n 7%Z) (n 10%Z)) = f64 0.7 /\
  value_of (n (2 ^ 53 + 3)%Z) = round64 (inject_Z (2 ^ 53 + 3)) /\
  value_of (add (div (n 1%Z) (n 10%Z)) (div (n 2%Z) (n 10%Z)))
  = fadd (f64 0.1) (f64 0.2) /\
  let word := div (mul (n 2%Z) (n 11%Z)) (n 24%Z) in
  let sequence := div (mul (n 2%Z) (n 1%Z)) (n 6%Z) in
  let mean := div (add (add word word) (n 1%Z)) (n 3%Z) in
  value_of word = fdiv (fmul 2 (float_of_nat 11)) (float_of_nat 24) /\
  value_of mean
  = fdiv (fsum [value_of word; value_of word; 1%Q]) (float_of_nat 3) /\
  value_of (add (mul (div (n 4%Z) (n 10%Z)) sequence) (mul (div (n 6%Z) (n 10%Z)) mean))
  = (6305039478318693 # 9007199254740992)%Q.
Proof. vm_compute. repeat split. Qed.

(* ================================================================= *)
(** * The scores are between 0 and 1 *)

Lemma float_of_nat_le (m n : nat) :
  m <= n -> (float_of_nat m <= float_of_nat n)%Q.
Proof.
  intros H. unfold float_of_nat. apply round64_le.
  - change 0%Q with (inject_Z 0). rewrite <- Zle_Qle. lia.
  - rewrite <- Zle_Qle. lia.
Qed.

Lemma float_of_nat_ge_1 (n : nat) : 1 <= n -> (1 <= float_of_nat n)%Q.
Proof. intros H. exact (float_of_nat_le H). Qed.

Lemma round64_unit (x : Q) : (0 <= x <= 1)%Q -> (0 <= round64 x <= 1)%Q.
Proof.
  intros [H0 H1]. split; [apply round64_nonneg, H0|].
  change 1%Q with (round64 1). apply round64_le; assumption.
Qed.

Lemma quotient_unit (a b : Q) :
  (0 <= a)%Q -> (a <= b)%Q -> (0 < b)%Q -> (0 <= a / b <= 1)%Q.
Proof.
  intros Ha Hab Hb. split.
  - apply Qle_shift_div_l; [exact Hb|]. rewrite Qmult_0_l. exact Ha.
  - apply Qle_shift_div_r; [exact Hb|]. rewrite Qmult_1_l. exact Hab.
Qed.

(** Twice the number of matches, as a float, is at most the length, as a
    float. *)
Lemma doubled_matches_le (m len : nat) :
  2 * m <= len ->
  (0 <= fmul 2 (float_of_nat m) <= float_of_nat len)%Q.
Proof.
  intros H. unfold fmul.
  assert (Hm0 : (0 <= float_of_nat m)%Q).
  { unfold float_of_nat. apply round64_nonneg.
    change 0%Q with (inject_Z 0). rewrite <- Zle_Qle. lia. }
  split; [apply round64_nonneg; lra|].
  destruct m as [|m'].
  - change (float_of_nat 0) with 0%Q. rewrite round64_of_zero by ring.
    unfold float_of_nat. apply round64_nonneg.
    change 0%Q with (inject_Z 0). rewrite <- Zle_Qle. lia.
  - set (m := S m') in *.
    assert (Hm1 : (1 <= float_of_nat m)%Q) by (apply float_of_nat_ge_1; lia).
    rewrite (round64_twice Hm1).
    assert (Hi : (round64 (float_of_nat m) == float_of_nat m)%Q).
    { unfold float_of_nat. apply round64_idem.
      change 0%Q with (inject_Z 0). rewrite <- Zle_Qle. lia. }
    rewrite Hi.
    set (h := (inject_Z (Z.of_nat len) / 2)%Q).
    assert (Hh : (inject_Z (Z.of_nat m) <= h)%Q).
    { unfold h. apply Qle_shift_div_l; [reflexivity|].
      change 2%Q with (inject_Z 2). rewrite <- inject_Z_mult, <- Zle_Qle. lia. }
    assert (Hh1 : (1 <= h)%Q).
    { apply Qle_trans with (2 := Hh). change 1%Q with (inject_Z 1).
      rewrite <- Zle_Qle. lia. }
    assert (Hl : float_of_nat len = round64 (2 * h)).
    { unfold float_of_nat. apply round64_comp. unfold h. field. }
    rewrite Hl, (round64_twice Hh1).
    assert (Hle : (float_of_nat m <= round64 h)%Q).
    { unfold float_of_nat. apply round64_le; [|exact Hh].
      change 0%Q with (inject_Z 0). rewrite <- Zle_Qle. lia. }
    lra.
Qed.

Lemma ratio_range (A : Type) (eqb : A -> A -> bool) (a b : list A) :
  (0 <= ratio eqb a b /\ ratio eqb a b <= 1)%Q.
Proof.
  unfold ratio. destruct (length a + length b) as [|n] eqn:E.
  - split; discriminate.
  - pose proof (matching_le eqb (popular_in eqb b) (S (length a)) a b) as H.
    fold (matches eqb a b) in H.
    assert (H2 : 2 * matches eqb a b <= S n) by lia.
    destruct (@doubled_matches_le _ _ H2) as [H0 H1].
    unfold fdiv. apply round64_unit. apply quotient_unit; [exact H0|exact H1|].
    apply Qlt_le_trans with (y := 1%Q); [reflexivity|].
    apply float_of_nat_ge_1. lia.
Qed.

Lemma fsum_from (l : list Q) (acc : Q) (c : Z) :
  Forall (fun x => 0 <= x /\ x <= 1)%Q l ->
  (0 <= c <= 2 ^ 53)%Z -> (0 <= acc <= inject_Z c)%Q ->
  (0 <= fold_left fadd l acc
   <= inject_Z (Z.min (c + Z.of_nat (length l)) (2 ^ 53)))%Q.
Proof.
  intros Hl. revert acc c.
  induction Hl as [|x l [Hx0 Hx1] _ IH]; intros acc c Hc [Ha0 Ha1].
  - cbn [fold_left length]. split; [exact Ha0|].
    apply Qle_trans with (1 := Ha1). rewrite <- Zle_Qle. lia.
  - cbn [fold_left length].
    assert (H0 : (0 <= fadd acc x)%Q) by (apply round64_nonneg; lra).
    assert (H1 : (fadd acc x <= round64 (inject_Z (c + 1)))%Q).
    { apply round64_le; [lra|]. rewrite inject_Z_plus.
      change (inject_Z 1) with 1%Q. lra. }
    destruct (Z.eq_dec c (2 ^ 53)) as [->|Hne].
    + change (round64 (inject_Z (2 ^ 53 + 1))) with (inject_Z (2 ^ 53)) in H1.
      pose proof (@IH (fadd acc x) (2 ^ 53)%Z ltac:(lia) (conj H0 H1)) as R.
      replace (Z.min (2 ^ 53 + Z.of_nat (S (length l))) (2 ^ 53))
        with (Z.min (2 ^ 53 + Z.of_nat (length l)) (2 ^ 53)) by lia.
      exact R.
    + rewrite round64_Z in H1 by lia.
      pose proof (@IH (fadd acc x) (c + 1)%Z ltac:(lia) (conj H0 H1)) as R.
      replace (c + Z.of_nat (S (length l)))%Z
        with (c + 1 + Z.of_nat (length l))%Z by lia.
      exact R.
Qed.

Lemma fsum_range (l : list Q) :
  Forall (fun x => 0 <= x /\ x <= 1)%Q l ->
  (0 <= fsum l <= inject_Z (Z.min (Z.of_nat (length l)) (2 ^ 53)))%Q.
Proof.
  intros Hl.
  exact (@fsum_from l 0%Q 0%Z Hl ltac:(lia) (conj (Qle_refl 0) (Qle_refl 0))).
Qed.

Lemma word_similarities_range : forall pattern_words input_tokens,
  Forall (fun x => 0 <= x /\ x <= 1)%Q (word_similarities input_tokens pattern_words).
Proof.
  induction pattern_words as [|w ws IH]; intros input_tokens; simpl.
  - constructor.
  - destruct input_tokens as [|t ts]; constructor; auto.
    + split; discriminate.
    + apply ratio_range.
Qed.


Lemma average_range (l : list Q) :
  l <> [] -> Forall (fun x => 0 <= x /\ x <= 1)%Q l ->
  (0 <= fdiv (fsum l) (float_of_nat (length l)) /\
   fdiv (fsum l) (float_of_nat (length l)) <= 1)%Q.
Proof.
  intros Hne Hl. destruct (fsum_range Hl) as [H0 H1].
  assert (Hn : 1 <= length l) by (destruct l; [contradiction|cbn; lia]).
  pose proof (float_of_nat_ge_1 Hn) as Hf.
  unfold fdiv. apply round64_unit. apply quotient_unit; [exact H0| |lra].
  apply Qle_trans with (1 := H1).
  destruct (Z_le_gt_dec (Z.of_nat (length l)) (2 ^ 53)) as [Hs|Hb].
  - rewrite Z.min_l by exact Hs. unfold float_of_nat.
    rewrite round64_Z by lia. apply Qle_refl.
  - rewrite Z.min_r by lia. unfold float_of_nat.
    rewrite <- (@round64_Z (2 ^ 53)) by lia.
    apply round64_le; [discriminate|]. rewrite <- Zle_Qle. lia.
Qed.

Lemma weight_range (w x : Q) :
  (0 <= w)%Q -> round64 w = w -> (0 <= x <= 1)%Q ->
  (0 <= fmul w x <= w)%Q.
Proof.
  intros Hw Hr [H0 H1]. unfold fmul. split.
  - apply round64_nonneg. apply Qmult_le_0_compat; assumption.
  - rewrite <- Hr at 2. apply round64_le.
    + apply Qmult_le_0_compat; assumption.
    + rewrite <- (Qmult_1_r w) at 2.
      apply Qmult_le_compat_nonneg; split;
        [exact Hw|apply Qle_refl|exact H0|exact H1].
Qed.

(** The blended score of [_calculate_token_similarity] is a confidence. *)
Lemma token_similarity_range (input_tokens : list str) (pattern_tokens : list token) :
  (0 <= _calculate_token_similarity input_tokens pattern_tokens /\
   _calculate_token_similarity input_tokens pattern_tokens <= 1)%Q.
Proof.
  unfold _calculate_token_similarity.
  destruct (words_of pattern_tokens) as [|w ws] eqn:E.
  - split; discriminate.
  - set (pw := w :: ws).
    pose proof (ratio_range str_eqb (firstn (length pw) input_tokens) pw) as Hs.
    pose proof (word_similarities_range pw input_tokens) as Hall.
    assert (Ha : (0 <= match word_similarities input_tokens pw with
                       | [] => 0%Q
                       | _ :: _ =>
                           fdiv (fsum (word_similarities input_tokens pw))
                             (float_of_nat
                                (length (word_similarities input_tokens pw)))
                       end <= 1)%Q).
    { destruct (word_similarities input_tokens pw) as [|x l] eqn:Ew.
      - split; discriminate.
      - apply average_range; [discriminate|exact Hall]. }
    destruct (@weight_range (f64 0.4) _ ltac:(discriminate) eq_refl Hs) as [A0 A1].
    destruct (@weight_range (f64 0.6) _ ltac:(discriminate) eq_refl Ha) as [B0 B1].
    unfold fadd. split.
    + apply round64_nonneg. lra.
    + change 1%Q with (round64 (f64 0.4 + f64 0.6)).
      apply round64_le; lra.
Qed.

(* ================================================================= *)
(** * The patterns built at run time always compile *)

Lemma special_not_alnum (c : ascii) : re_special c = true -> isalnum c = false.
Proof.
  destruct c as [[] [] [] [] [] [] [] []]; vm_compute; intros; congruence.
Qed.

Lemma plain_not_meta (c : ascii) : re_special c = false -> re_meta c = false.
Proof.
  destruct c as [[] [] [] [] [] [] [] []]; vm_compute; intros; congruence.
Qed.

Lemma ceqb_neq_special (c d : ascii) :
  re_special c = false -> re_special d = true -> ceqb d c = false /\ ceqb c d = false.
Proof.
  intros Hc Hd. split.
  - destruct (ceqb d c) eqn:E; [|reflexivity]. apply ceqb_eq in E. congruence.
  - destruct (ceqb c d) eqn:E; [|reflexivity]. apply ceqb_eq in E. congruence.
Qed.

Lemma regex_text_final st s : regex_text st s -> regex_text Final s.
Proof.
  induction 1; try (constructor; auto; fail).
Qed.

Lemma regex_text_grouped s : regex_text Escaped s -> regex_text Grouped s.
Proof.
  intros H. remember Escaped as st eqn:E. induction H; subst;
    try discriminate; try (constructor; auto; fail).
Qed.

Lemma regex_text_app st a b :
  regex_text st a -> regex_text st b -> regex_text st (a ++ b).
Proof.
  intros Ha Hb. induction Ha; simpl; auto.
  - apply rt_plain; auto.
  - apply rt_esc; auto.
  - apply (rt_group (s := s ++ b)); auto.
  - apply (rt_opt (s := s ++ b)); auto.
  - apply (rt_bol (s := s ++ b)); auto.
  - apply (rt_eol (s := s ++ b)); auto.
Qed.

Lemma escape_text (t : str) : regex_text Escaped (re_escape t).
Proof.
  induction t as [|c t IH]; [constructor|].
  unfold re_escape. simpl. fold (re_escape t).
  destruct (re_special c) eqn:E; simpl; now constructor.
Qed.

Lemma regex_text_head st s :
  regex_text st s -> forall q s', s = q :: s' -> ceqb q "?" = false.
Proof.
  intros H q s' E. destruct H; try (injection E as <- _; reflexivity);
    try discriminate.
  injection E as <- _.
  match goal with Hc : re_special _ = false |- _ =>
    apply (@ceqb_neq_special _ "?"%char Hc eq_refl) end.
Qed.

Lemma re_compile_cons (c : ascii) (p1 : str) :
  re_compile (c :: p1) =
  if startswith "(.+?)" (c :: p1) then
    match p1 with
    | _ :: _ :: _ :: _ :: p5 =>
        option_map (cons (Cls dot LazyPlus true)) (re_compile p5)
    | _ => None
    end
  else if ceqb c backslash then
    match p1 with
    | d :: p2 =>
        if isalnum d then None
        else match p2 with
             | q :: p3 =>
                 if ceqb q "?"
                 then option_map (cons (Cls (ci d) Opt false)) (re_compile p3)
                 else option_map (cons (Cls (ci d) One false)) (re_compile p2)
             | [] => Some [Cls (ci d) One false]
             end
    | [] => None
    end
  else if ceqb c "^" then option_map (cons Bol) (re_compile p1)
  else if ceqb c "$" then option_map (cons Eol) (re_compile p1)
  else if re_meta c then None
  else match p1 with
       | q :: p2 =>
           if ceqb q "?"
           then option_map (cons (Cls (ci c) Opt false)) (re_compile p2)
           else option_map (cons (Cls (ci c) One false)) (re_compile p1)
       | [] => Some [Cls (ci c) One false]
       end.
Proof. reflexivity. Qed.

Lemma startswith_first (a : ascii) (p : str) (c : ascii) (s : str) :
  ceqb a c = false -> startswith (a :: p) (c :: s) = false.
Proof. intros H. simpl. now rewrite H. Qed.

Lemma re_compile_group (s : str) :
  re_compile ("(.+?)" ++ s) = option_map (cons (Cls dot LazyPlus true)) (re_compile s).
Proof. reflexivity. Qed.

Lemma re_compile_opt (s : str) :
  re_compile (backslash :: "'?s?" ++ s) =
  option_map (cons (Cls (ci "'") Opt false))
             (option_map (cons (Cls (ci "s") Opt false)) (re_compile s)).
Proof. reflexivity. Qed.

Lemma re_compile_bol (s : str) :
  re_compile ("^" ++ s) = option_map (cons Bol) (re_compile s).
Proof. reflexivity. Qed.

Lemma re_compile_eol (s : str) :
  re_compile ("$" ++ s) = option_map (cons Eol) (re_compile s).
Proof. reflexivity. Qed.

(** Every pattern text of a final shape is in the fragment [re_compile]
    reads. *)
Lemma compile_total st s :
  regex_text st s -> exists its, re_compile s = Some its.
Proof.
  induction 1 as [st|st c s Hc H [its IH]|st c s Hc H [its IH]|st s Hg H [its IH]
                  |s H [its IH]|s H [its IH]|s H [its IH]].
  - now exists [].
  - rewrite re_compile_cons.
    destruct (@ceqb_neq_special c "("%char Hc eq_refl) as [E1 _].
    destruct (@ceqb_neq_special c backslash Hc eq_refl) as [_ E2].
    destruct (@ceqb_neq_special c "^"%char Hc eq_refl) as [_ E3].
    destruct (@ceqb_neq_special c "$"%char Hc eq_refl) as [_ E4].
    rewrite (@startswith_first _ _ _ _ E1), E2, E3, E4, (plain_not_meta _ Hc).
    destruct s as [|q s'].
    + eexists. reflexivity.
    + rewrite (regex_text_head H eq_refl), IH. eexists. reflexivity.
  - rewrite re_compile_cons.
    rewrite (@startswith_first _ _ _ _ (eq_refl : ceqb "(" backslash = false)).
    change (ceqb backslash backslash) with true. cbv iota.
    rewrite (special_not_alnum _ Hc).
    destruct s as [|q s'].
    + eexists. reflexivity.
    + rewrite (regex_text_head H eq_refl), IH. eexists. reflexivity.
  - rewrite re_compile_group, IH. eexists. reflexivity.
  - rewrite re_compile_opt, IH. eexists. reflexivity.
  - rewrite re_compile_bol, IH. eexists. reflexivity.
  - rewrite re_compile_eol, IH. eexists. reflexivity.
Qed.


(** ** The groups that replace the placeholders *)

Lemma escaped_inv (s : str) :
  regex_text Escaped s ->
  s = [] \/
  (exists c s', s = c :: s' /\ re_special c = false /\ regex_text Escaped s') \/
  (exists c s', s = backslash :: c :: s' /\ re_special c = true /\
                regex_text Escaped s').
Proof.
  intros H. inversion H; subst; try discriminate.
  - now left.
  - right; left. eauto.
  - right; right. eauto.
Qed.

Lemma rmatch_escaped_placeholder_plain b c s :
  re_special c = false -> rmatch re_escaped_placeholder b (c :: s) = None.
Proof.
  intros Hc. destruct (rmatch _ b (c :: s)) as [[r gs]|] eqn:E; [|reflexivity].
  unfold re_escaped_placeholder in E.
  apply rmatch_chr in E as (b' & s' & E & _). injection E as -> _.
  discriminate.
Qed.

Lemma rmatch_escaped_placeholder_inside b c s :
  regex_text Escaped s -> rmatch re_escaped_placeholder b (c :: s) = None.
Proof.
  intros Hs. destruct (rmatch _ b (c :: s)) as [[r gs]|] eqn:E; [|reflexivity].
  unfold re_escaped_placeholder in E.
  apply rmatch_chr in E as (b1 & s1 & E & H). injection E as -> <-.
  apply rmatch_chr in H as (b2 & s2 & -> & _).
  exfalso. apply escaped_inv in Hs.
  destruct Hs as [H|[(c & s' & E & Hc & H)|(c & s' & E & Hc & H)]];
    try discriminate.
  injection E as <- _. discriminate.
Qed.

(** After a text that ends in an escaped closing brace comes a text of
    the same shape. *)
Lemma escaped_suffix rest : forall n x,
  length x <= n ->
  regex_text Escaped (x ++ backslash :: "}"%char :: rest) ->
  regex_text Escaped rest.
Proof.
  induction n as [|n IH]; intros x Hn H; apply escaped_inv in H.
  - destruct x; [|simpl in Hn; lia]. simpl in H.
    destruct H as [H|[(c & s' & E & Hc & H)|(c & s' & E & Hc & H)]].
    + discriminate.
    + injection E as <- _. discriminate.
    + injection E as <- <-. exact H.
  - destruct H as [H|[(c & s' & E & Hc & H)|(c & s' & E & Hc & H)]].
    + now destruct x.
    + destruct x as [|a x]; simpl in E.
      * injection E as <- _. discriminate.
      * injection E as <- <-. apply (IH x); [simpl in Hn; lia|exact H].
    + destruct x as [|a [|a' x]]; simpl in E.
      * injection E as <- <-. exact H.
      * injection E as _ <- <-. apply escaped_inv in H.
        destruct H as [H|[(c & s' & E & Hc' & H)|(c & s' & E & Hc' & H)]];
          try discriminate.
        injection E as <- _. discriminate.
      * injection E as _ <- <-. apply (IH x); [simpl in Hn; lia|exact H].
Qed.

Lemma rmatch_escaped_placeholder_rest b s rest gs :
  rmatch re_escaped_placeholder b s = Some (rest, gs) ->
  regex_text Escaped s ->
  regex_text Escaped rest /\ exists m, s = backslash :: m ++ rest.
Proof.
  intros H Hs. unfold re_escaped_placeholder in H.
  apply rmatch_chr in H as (b1 & s1 & -> & H).
  apply rmatch_chr in H as (b2 & s2 & -> & H).
  apply rmatch_cls in H as (name & b3 & s3 & gs3 & -> & _ & _ & H & _).
  apply rmatch_chr in H as (b4 & s4 & -> & H).
  apply rmatch_chr in H as (b5 & s5 & -> & H).
  injection H as <- _. split.
  - apply (@escaped_suffix s5 _ (backslash :: "{"%char :: name) (le_n _)).
    simpl. exact Hs.
  - exists ("{"%char :: name ++ [backslash; "}"%char]).
    simpl. now rewrite <- app_assoc.
Qed.

Lemma sub_groups : forall n s b,
  length s <= n -> regex_text Escaped s ->
  regex_text Grouped
    (sub_pieces "(.+?)" (pieces re_escaped_placeholder b 0 s)).
Proof.
  induction n as [|n IH]; intros s b Hn Hs.
  - destruct s; [constructor|simpl in Hn; lia].
  - destruct (escaped_inv Hs) as [->|[(c & s' & -> & Hc & Hs')|(c & s' & -> & Hc & Hs')]].
    + constructor.
    + rewrite pieces_cons, rmatch_escaped_placeholder_plain by assumption.
      simpl. apply rt_plain; auto. apply IH; [simpl in Hn; lia|assumption].
    + rewrite pieces_cons.
      destruct (rmatch re_escaped_placeholder b (backslash :: c :: s'))
        as [[rest gs]|] eqn:E.
      * destruct (rmatch_escaped_placeholder_rest _ E Hs) as [Hr [m Em]].
        replace (length (backslash :: c :: s') - length rest) with (S (length m))
          by (rewrite Em; cbn [length]; rewrite length_app; lia).
        injection Em as Em. rewrite Em, pieces_skip.
        cbn [sub_pieces]. apply (rt_group (s := sub_pieces "(.+?)" _)); auto.
        apply IH; [|assumption].
        apply (f_equal (@length _)) in Em. simpl in Em, Hn.
        rewrite length_app in Em. lia.
      * cbn [sub_pieces]. rewrite pieces_cons.
        rewrite rmatch_escaped_placeholder_inside by assumption.
        cbn [sub_pieces]. apply rt_esc; auto.
        apply IH; [simpl in Hn; lia|assumption].
Qed.

(** ** The optional apostrophe-s *)

Lemma replace_from_cons old new c s :
  replace_from old new 0 (c :: s) =
  if startswith old (c :: s)
  then new ++ replace_from old new (length old - 1) s
  else c :: replace_from old new 0 s.
Proof. reflexivity. Qed.

Lemma replace_keeps (c : ascii) (s : str) :
  ceqb backslash c = false ->
  replace_from "\'s" "'?s?" 0 (c :: s) = c :: replace_from "\'s" "'?s?" 0 s.
Proof.
  intros H. rewrite replace_from_cons, (@startswith_first _ _ _ _ H). reflexivity.
Qed.

Lemma startswith_app : forall p s,
  startswith p s = true -> exists s', s = p ++ s'.
Proof.
  induction p as [|a p IH]; intros s H.
  - now exists s.
  - destruct s as [|c s]; [discriminate|]. simpl in H.
    apply andb_true_iff in H as [Hc Hp]. apply ceqb_eq in Hc. subst c.
    destruct (IH _ Hp) as [s' ->]. now exists s'.
Qed.

Lemma grouped_inv (s : str) :
  regex_text Grouped s ->
  s = [] \/
  (exists c s', s = c :: s' /\ re_special c = false /\ regex_text Grouped s') \/
  (exists c s', s = backslash :: c :: s' /\ re_special c = true /\
                regex_text Grouped s') \/
  (exists s', s = "(.+?)" ++ s' /\ regex_text Grouped s').
Proof.
  intros H. inversion H; subst; try discriminate.
  - now left.
  - right; left. eauto.
  - right; right; left. eauto.
  - right; right; right. eauto.
Qed.

Lemma grouped_plain_tail (c : ascii) (s : str) :
  re_special c = false -> regex_text Grouped (c :: s) -> regex_text Grouped s.
Proof.
  intros Hc H. apply grouped_inv in H.
  destruct H as [H|[(c' & s' & E & _ & H)|[(c' & s' & E & _ & H)|(s' & E & H)]]].
  - discriminate.
  - now injection E as <- <-.
  - injection E as -> _. discriminate.
  - injection E as -> _. discriminate.
Qed.

Lemma replace_final : forall n s,
  length s <= n -> regex_text Grouped s ->
  regex_text Final (replace_from "\'s" "'?s?" 0 s).
Proof.
  induction n as [|n IH]; intros s Hn Hs.
  - destruct s; [constructor|simpl in Hn; lia].
  - destruct (grouped_inv Hs)
      as [->|[(c & s' & -> & Hc & Hs')|[(c & s' & -> & Hc & Hs')|(s' & -> & Hs')]]].
    + constructor.
    + destruct (@ceqb_neq_special c backslash Hc eq_refl) as [E _].
      rewrite (@replace_keeps _ _ E). apply rt_plain; auto.
      apply IH; [simpl in Hn; lia|assumption].
    + rewrite replace_from_cons.
      assert (E : startswith "\'s" (backslash :: c :: s') = false).
      { simpl. destruct (@ceqb_neq_special "'"%char c eq_refl Hc) as [_ E'].
        rewrite E'. cbn [andb]. first [reflexivity|apply andb_false_r]. }
      rewrite E. rewrite replace_from_cons.
      destruct (startswith "\'s" (c :: s')) eqn:E2.
      * apply startswith_app in E2 as [s2 E2]. simpl in E2.
        injection E2 as -> ->.
        change (replace_from "\'s" "'?s?" (length ("\'s" : str) - 1)
                  ("'"%char :: "s"%char :: s2))
          with (replace_from "\'s" "'?s?" 0 s2).
        apply (rt_opt (s := replace_from "\'s" "'?s?" 0 s2)).
        apply IH; [simpl in Hn; lia|].
        apply (@grouped_plain_tail "s"%char _ eq_refl).
        apply (@grouped_plain_tail "'"%char _ eq_refl). exact Hs'.
      * apply rt_esc; auto. apply IH; [simpl in Hn; lia|assumption].
    + change ("(.+?)" ++ s')
        with ("("%char :: "."%char :: "+"%char :: "?"%char :: ")"%char :: s').
      rewrite !replace_keeps by reflexivity.
      apply (rt_group (s := replace_from "\'s" "'?s?" 0 s')); auto.
      apply IH; [simpl in Hn; lia|assumption].
Qed.

Lemma template_regex_text (template : str) :
  regex_text Final (_template_to_regex template).
Proof.
  unfold _template_to_regex, re_sub, replace.
  apply (rt_bol (s := _ ++ "$")). apply regex_text_app.
  - apply (@replace_final _ _ (le_n _)).
    apply (@sub_groups _ _ _ (le_n _)). apply escape_text.
  - apply (rt_eol (s := [])). constructor.
Qed.

(** [re.match] with the pattern of a template raises no error. *)
Lemma match_text_total (template text : str) :
  exists m, match_text (_template_to_regex template) text = Ok m.
Proof.
  unfold match_text.
  destruct (compile_total (template_regex_text template)) as [its ->].
  eexists. reflexivity.
Qed.


(** ** The matcher raises no error *)

Lemma concat_text st (parts : list str) :
  Forall (regex_text st) parts -> regex_text st (concat parts).
Proof.
  induction 1; simpl; [constructor|]. now apply regex_text_app.
Qed.

Lemma Forall_flat_map (A B : Type) (P : B -> Prop) (f : A -> list B) (l : list A) :
  (forall x, Forall P (f x)) -> Forall P (flat_map f l).
Proof.
  intros H. induction l as [|x l IH]; simpl; [constructor|].
  apply Forall_app. auto.
Qed.

Lemma search_text_total (regex text : str) :
  regex_text Final regex -> exists m, search_text regex text = Ok m.
Proof.
  intros H. unfold search_text. destruct (compile_total H) as [its ->].
  eexists. reflexivity.
Qed.

Lemma extract_entities_positional_total (text : str) (p : Pattern) :
  exists d, _extract_entities_positional text p = Ok d.
Proof.
  unfold _extract_entities_positional.
  destruct (flat_map _ (re_split re_placeholder (template p))) as [|ph phs];
    [now exists []|].
  match goal with |- context [search_text ?r text] =>
    destruct (@search_text_total r text) as [m ->] end.
  - apply regex_text_final with (st := Grouped). apply concat_text.
    apply Forall_flat_map. intros part.
    destruct (is_placeholder_part part).
    + constructor; [|constructor]. apply (rt_group (s := [])); [reflexivity|constructor].
    + destruct part; constructor; [|constructor].
      apply regex_text_grouped, escape_text.
  - simpl. destruct m; eexists; reflexivity.
Qed.

Lemma extract_entities_fuzzy_total (text : str) (p : Pattern) :
  exists d, _extract_entities_fuzzy text p = Ok d.
Proof.
  unfold _extract_entities_fuzzy.
  destruct (extract_entities_positional_total text p) as [d ->]. simpl.
  destruct d; eexists; reflexivity.
Qed.

Lemma new_MatchResult_ok (p : Pattern) (c : Q) (d : dict) (t : str) :
  (0 <= c /\ c <= 1)%Q -> mem t ["exact"; "fuzzy"; "partial"] = true ->
  new_MatchResult p c d t =
  Ok {| pattern := p; confidence := c; entities := d; match_type := t |}.
Proof.
  intros Hc Ht. unfold new_MatchResult.
  apply Qle_bool_range in Hc. rewrite Hc, Ht. reflexivity.
Qed.

(** What [_try_exact_match] returns. *)
Lemma try_exact_match_spec (text : str) (p : Pattern) :
  exists m,
    match_text (_template_to_regex (template p)) text = Ok m /\
    _try_exact_match text p =
    Ok match m with
       | Some gs =>
           Some {| pattern := p; confidence := 1.0;
                   entities := _extract_entities_from_match gs (template p);
                   match_type := "exact" |}
       | None => None
       end.
Proof.
  unfold _try_exact_match.
  destruct (match_text_total (template p) text) as [m Hm].
  exists m. split; [exact Hm|]. rewrite Hm. cbn [bind]. destruct m as [gs|]; [|reflexivity].
  rewrite new_MatchResult_ok; [reflexivity| |reflexivity].
  split; discriminate.
Qed.

(** What [_try_fuzzy_match] returns. *)
Lemma try_fuzzy_match_spec (thr : Q) (text : str) (p : Pattern) :
  let similarity :=
    _calculate_token_similarity (_tokenize text) (_tokenize_template (template p)) in
  exists d,
    _extract_entities_fuzzy text p = Ok d /\
    _try_fuzzy_match thr text p =
    Ok (if Qle_bool thr similarity
        then Some {| pattern := p; confidence := similarity; entities := d;
                     match_type := "fuzzy" |}
        else None).
Proof.
  intros similarity. unfold _try_fuzzy_match. fold similarity.
  destruct (extract_entities_fuzzy_total text p) as [d Hd].
  exists d. split; [exact Hd|].
  destruct (Qle_bool thr similarity); [|reflexivity].
  rewrite Hd. cbn [bind]. rewrite new_MatchResult_ok; [reflexivity| |reflexivity].
  apply token_similarity_range.
Qed.

Lemma match_pattern_total (thr : Q) (text : str) (p : Pattern) :
  exists r, _match_pattern thr text p = Ok r.
Proof.
  unfold _match_pattern.
  destruct (try_exact_match_spec text p) as (m & _ & ->). simpl.
  destruct m; [eexists; reflexivity|].
  destruct (try_fuzzy_match_spec thr text p) as (d & _ & ->).
  eexists. reflexivity.
Qed.

Lemma collect_matches_spec (thr : Q) (text : str) (ps : list Pattern) :
  collect_matches thr text ps = Ok (flat_map (kept thr text) ps).
Proof.
  induction ps as [|p ps IH]; [reflexivity|]. simpl. unfold kept at 1.
  destruct (match_pattern_total thr text p) as [r ->]. simpl. rewrite IH. simpl.
  destruct r as [r|]; [|reflexivity].
  now destruct (Qle_bool thr (confidence r)).
Qed.

Lemma find_matches_spec (thr : Q) (text : str) (g : Grammar) :
  find_matches thr text g = Ok (sort_desc (flat_map (kept thr text) (patterns g))).
Proof.
  unfold find_matches. now rewrite collect_matches_spec.
Qed.


(* ================================================================= *)
(** * [find_matches] *)

Lemma insert_desc_perm (m : MatchResult) (l : list MatchResult) :
  Permutation (insert_desc m l) (m :: l).
Proof.
  induction l as [|x l IH]; simpl; [reflexivity|].
  destruct (Qlt_bool (confidence m) (confidence x)); [|reflexivity].
  rewrite IH. apply perm_swap.
Qed.

Lemma sort_desc_perm (l : list MatchResult) : Permutation (sort_desc l) l.
Proof.
  induction l as [|m l IH]; simpl; [reflexivity|].
  rewrite insert_desc_perm. now constructor.
Qed.

Lemma Qlt_bool_true (a b : Q) : Qlt_bool a b = true -> (a <= b)%Q.
Proof.
  unfold Qlt_bool. intros H. apply negb_true_iff in H.
  destruct (Qlt_le_dec a b) as [L|L]; [now apply Qlt_le_weak|].
  apply Qle_bool_iff in L. congruence.
Qed.

Lemma Qlt_bool_false (a b : Q) : Qlt_bool a b = false -> (b <= a)%Q.
Proof.
  unfold Qlt_bool. intros H. apply negb_false_iff in H. now apply Qle_bool_iff.
Qed.

Lemma insert_desc_hd (x m : MatchResult) (l : list MatchResult) :
  descending x m -> HdRel descending x l -> HdRel descending x (insert_desc m l).
Proof.
  intros Hm Hl. destruct l as [|y l]; simpl; [now constructor|].
  destruct (Qlt_bool (confidence m) (confidence y)); constructor; auto.
  now inversion Hl.
Qed.

Lemma insert_desc_sorted (m : MatchResult) (l : list MatchResult) :
  Sorted descending l -> Sorted descending (insert_desc m l).
Proof.
  induction 1 as [|x l Hs IH Hx]; simpl; [repeat constructor|].
  destruct (Qlt_bool (confidence m) (confidence x)) eqn:E.
  - constructor; auto. apply insert_desc_hd; auto.
    now apply Qlt_bool_true.
  - constructor; [now constructor|]. constructor. now apply Qlt_bool_false.
Qed.

Lemma sort_desc_sorted (l : list MatchResult) : Sorted descending (sort_desc l).
Proof.
  induction l as [|m l IH]; simpl; [constructor|]. now apply insert_desc_sorted.
Qed.

Lemma descending_trans : Relations_1.Transitive descending.
Proof.
  intros x y z Hxy Hyz. unfold descending in *. now apply Qle_trans with (confidence y).
Qed.

Lemma kept_In (thr : Q) (text : str) (p : Pattern) (r : MatchResult) :
  In r (kept thr text p) <->
  _match_pattern thr text p = Ok (Some r) /\ (thr <= confidence r)%Q.
Proof.
  unfold kept. destruct (_match_pattern thr text p) as [[r'|]|e]; simpl.
  - destruct (Qle_bool thr (confidence r')) eqn:E; simpl.
    + split.
      * intros [<-|[]]. split; [reflexivity|]. now apply Qle_bool_iff.
      * intros [H _]. left. now injection H.
    + split; [intros []|]. intros [H L]. injection H as ->.
      apply Qle_bool_iff in L. congruence.
  - split; [intros []|]. intros [H _]. discriminate.
  - split; [intros []|]. intros [H _]. discriminate.
Qed.

Lemma match_pattern_pattern (thr : Q) (text : str) (p : Pattern) (r : MatchResult) :
  _match_pattern thr text p = Ok (Some r) -> pattern r = p.
Proof.
  unfold _match_pattern.
  destruct (try_exact_match_spec text p) as (m & _ & ->). cbn [bind].
  destruct m as [gs|].
  - intros H. now injection H as <-.
  - destruct (try_fuzzy_match_spec thr text p) as (d & _ & ->).
    destruct (Qle_bool thr _); [|discriminate].
    intros H. now injection H as <-.
Qed.

Lemma match_pattern_exact (thr : Q) (text : str) (p : Pattern) (gs : list str) :
  match_text (_template_to_regex (template p)) text = Ok (Some gs) ->
  _match_pattern thr text p = Ok (Some (exact_result p gs)).
Proof.
  intros H. unfold _match_pattern.
  destruct (try_exact_match_spec text p) as (m & Hm & ->). cbn [bind].
  rewrite H in Hm. now injection Hm as <-.
Qed.

(** ** The entities of an exact match *)

Lemma infix_refl (s : str) : infix s s.
Proof. exists [], []. now rewrite app_nil_r. Qed.

Lemma infix_trans (a b c : str) : infix a b -> infix b c -> infix a c.
Proof.
  intros (x & y & ->) (x' & y' & ->). exists (x' ++ x), (y ++ y').
  now rewrite <- !app_assoc.
Qed.

Lemma strip_infix (g : str) : infix (strip g) g.
Proof.
  unfold strip. destruct (lstrip_split g) as (w & E & _).
  destruct (rstrip_split (lstrip g)) as (w' & E' & _).
  exists w, w'. now rewrite <- E', <- E.
Qed.

Lemma match_text_groups (regex text : str) (gs : list str) :
  match_text regex text = Ok (Some gs) -> Forall (fun g => infix g text) gs.
Proof.
  unfold match_text, re_match. destruct (re_compile regex) as [its|]; [|discriminate].
  destruct (rmatch its true text) as [[rest gs']|] eqn:E; [|discriminate].
  simpl. intros H. injection H as <-.
  destruct (rmatch_sound _ _ _ E) as (m & -> & _ & Hgs & _).
  eapply Forall_impl; [|exact Hgs]. intros g. apply infix_app_r.
Qed.

Lemma dict_set_values (P : str -> Prop) (k v : str) (d : dict) :
  P v -> Forall (fun kv => P (snd kv)) d ->
  Forall (fun kv => P (snd kv)) (dict_set k v d).
Proof.
  intros Hv. induction 1 as [|[k' v'] d Hk Hd IH]; simpl.
  - now repeat constructor.
  - destruct (str_eqb k' k); constructor; auto.
Qed.

Lemma fill_entities_values (P : str -> Prop) : forall phs gs d,
  Forall (fun g => P (strip g)) gs -> Forall (fun kv => P (snd kv)) d ->
  Forall (fun kv => P (snd kv)) (fill_entities phs gs d).
Proof.
  induction phs as [|ph phs IH]; intros gs d Hgs Hd; simpl; auto.
  destruct gs as [|g gs]; auto.
  inversion Hgs; subst. apply IH; auto. now apply dict_set_values.
Qed.

Lemma dict_set_fresh (k v : str) (d : dict) :
  ~ In k (map fst d) -> dict_set k v d = d ++ [(k, v)].
Proof.
  induction d as [|[k' v'] d IH]; simpl; intros H; [reflexivity|].
  destruct (str_eqb k' k) eqn:E.
  - apply str_eqb_eq in E. tauto.
  - rewrite IH; tauto.
Qed.

Lemma fill_entities_fresh : forall phs gs d,
  NoDup phs -> (forall k, In k phs -> ~ In k (map fst d)) ->
  fill_entities phs gs d = d ++ combine phs (map strip gs).
Proof.
  induction phs as [|ph phs IH]; intros gs d Hnd Hfresh; simpl.
  - now rewrite app_nil_r.
  - destruct gs as [|g gs]; simpl; [now rewrite app_nil_r|].
    inversion Hnd; subst.
    rewrite dict_set_fresh by (apply Hfresh; now left).
    rewrite IH; auto.
    + now rewrite <- app_assoc.
    + intros k Hk. rewrite map_app, in_app_iff. simpl.
      intros [H|[H|[]]].
      * apply (Hfresh k); [now right|exact H].
      * congruence.
Qed.


(** C1. [find_matches] returns, for every text and every grammar: every
    pattern of the grammar is matched, none ends the loop; the results
    are the matches of the patterns whose confidence is at least the
    threshold, each once; they are in descending order of confidence;
    and a pattern whose compiled template matches the whole text (in any
    case of letters) has the result of confidence 1.0 and type "exact"
    whose entities are the captured groups, trimmed, under the
    placeholders in the order of the template, each value a slice of the
    text as it was typed. *)
Theorem find_matches_results (thr : Q) (text : str) (g : Grammar) :
  exists ms,
    find_matches thr text g = Ok ms /\
    (forall p, In p (patterns g) -> exists r, _match_pattern thr text p = Ok r) /\
    Permutation ms (flat_map (kept thr text) (patterns g)) /\
    (forall r, In r ms <->
       exists p, In p (patterns g) /\ _match_pattern thr text p = Ok (Some r) /\
                 (thr <= confidence r)%Q) /\
    StronglySorted descending ms /\
    (forall p gs,
       In p (patterns g) ->
       match_text (_template_to_regex (template p)) text = Ok (Some gs) ->
       _match_pattern thr text p = Ok (Some (exact_result p gs)) /\
       ((thr <= 1.0)%Q -> In (exact_result p gs) ms) /\
       (forall r, In r ms -> pattern r = p -> r = exact_result p gs) /\
       Forall (fun kv => infix (snd kv) text) (entities (exact_result p gs)) /\
       (NoDup (placeholders (template p)) ->
        entities (exact_result p gs)
        = combine (placeholders (template p)) (map strip gs))).
Proof.
  exists (sort_desc (flat_map (kept thr text) (patterns g))).
  assert (Hin : forall r,
             In r (sort_desc (flat_map (kept thr text) (patterns g))) <->
             exists p, In p (patterns g) /\
                       _match_pattern thr text p = Ok (Some r) /\
                       (thr <= confidence r)%Q).
  { intros r. split.
    - intros H. apply (Permutation_in _ (sort_desc_perm _)) in H.
      apply in_flat_map in H as (p & Hp & H). apply kept_In in H. eauto.
    - intros (p & Hp & H). apply (Permutation_in _ (Permutation_sym (sort_desc_perm _))).
      apply in_flat_map. exists p. split; [exact Hp|]. now apply kept_In. }
  split; [apply find_matches_spec|].
  split; [intros p _; apply match_pattern_total|].
  split; [apply sort_desc_perm|].
  split; [exact Hin|].
  split; [apply Sorted_StronglySorted; [exact descending_trans|apply sort_desc_sorted]|].
  intros p gs Hp Hm.
  pose proof (@match_pattern_exact thr text p gs Hm) as He.
  split; [exact He|]. split; [|split; [|split]].
  - intros Hthr. apply Hin. exists p. auto.
  - intros r Hr Hpat. apply Hin in Hr as (p' & _ & Hr & _).
    pose proof (@match_pattern_pattern _ _ _ _ Hr) as E. rewrite Hpat in E. subst p'.
    rewrite He in Hr. now injection Hr.
  - unfold exact_result. cbn [entities].
    apply (@fill_entities_values (fun v => infix v text)); [|constructor].
    eapply Forall_impl; [|exact (@match_text_groups _ _ _ Hm)].
    intros x Hx. exact (infix_trans (strip_infix x) Hx).
  - intros Hnd. unfold exact_result. cbn [entities].
    rewrite fill_entities_fresh; auto.
Qed.


(* ================================================================= *)
(** * The fuzzy score *)




(** The score is rounded as the code rounds it.  The blend of one third
    and seventeen eighteenths is seven tenths; the floats give
    0.6999999999999998, which is below the float 0.7. *)
Example score_below_the_threshold :
  let score :=
    _calculate_token_similarity (_tokenize "organization presentasion for Bob")
      (_tokenize_template (template pattern_presentation)) in
  (0.4 * (1 # 3) + 0.6 * (((11 # 12) + (11 # 12) + 1) / 3) == 0.7)%Q /\
  score = (6305039478318693 # 9007199254740992)%Q /\
  (score < f64 0.7)%Q /\
  _try_fuzzy_match (f64 0.7) "organization presentasion for Bob"
    pattern_presentation = Ok None.
Proof. repeat split. Qed.

(** Two scores that are both forty-nine sixtieths before they are
    rounded: the floats differ in their last bit, and the second pattern
    of the grammar comes first. *)
Example order_of_rounded_scores :
  find_matches (f64 0.7) "to my party in Rome" party_grammar
  = Ok [ {| pattern := pattern_party;
            confidence := (7355879391371811 # 9007199254740992)%Q;
            entities := [("x", "party in Rome")]; match_type := "fuzzy" |};
         {| pattern := pattern_par;
            confidence := (3677939695685905 # 4503599627370496)%Q;
            entities := [("x", "my party in Rome")]; match_type := "fuzzy" |} ].
Proof. vm_compute. reflexivity. Qed.


(* ================================================================= *)
(** * The response to a query that matches no pattern *)

Lemma mem_cons (x a : str) (l : list str) :
  mem x (a :: l) = str_eqb x a || mem x l.
Proof. reflexivity. Qed.

Lemma str_eqb_sym (a b : str) : str_eqb a b = str_eqb b a.
Proof.
  destruct (str_eqb a b) eqn:E, (str_eqb b a) eqn:E'; auto.
  - apply str_eqb_eq in E. subst. now rewrite str_eqb_refl in E'.
  - apply str_eqb_eq in E'. subst. now rewrite str_eqb_refl in E.
Qed.

(** The loop keeps the elements in the order in which they are first
    seen: an element at the end is added when it was not seen before. *)
Lemma unique_from_snoc (x : str) : forall l seen,
  unique_from seen (l ++ [x]) =
  unique_from seen l ++ (if mem x seen || mem x l then [] else [x]).
Proof.
  induction l as [|a l IH]; intros seen; cbn [app unique_from].
  - change (mem x []) with false. rewrite orb_false_r. now destruct (mem x seen).
  - destruct (mem a seen) eqn:Ea.
    + rewrite IH. f_equal. rewrite mem_cons.
      destruct (str_eqb x a) eqn:E; [|reflexivity].
      apply str_eqb_eq in E. subst. now rewrite Ea.
    + rewrite IH. cbn [app]. f_equal. f_equal. rewrite !mem_cons.
      now destruct (str_eqb x a), (mem x seen), (mem x l).
Qed.

Lemma unique_snoc (x : str) (l : list str) :
  unique (l ++ [x]) = unique l ++ (if mem x l then [] else [x]).
Proof. apply unique_from_snoc. Qed.

Lemma unique_from_In (x : str) : forall l seen,
  In x (unique_from seen l) <-> In x l /\ mem x seen = false.
Proof.
  induction l as [|a l IH]; intros seen; cbn [unique_from].
  - simpl. tauto.
  - destruct (mem a seen) eqn:Ea.
    + rewrite IH. simpl. split; [tauto|]. intros [[->|H] Hs]; [congruence|tauto].
    + cbn [In]. rewrite IH, mem_cons. split.
      * intros [->|[H Hs]]; [tauto|].
        apply orb_false_iff in Hs. tauto.
      * intros [[->|H] Hs]; [tauto|].
        destruct (str_eqb x a) eqn:E.
        -- apply str_eqb_eq in E. now left.
        -- right. simpl. tauto.
Qed.

Lemma unique_from_NoDup : forall l seen, NoDup (unique_from seen l).
Proof.
  induction l as [|a l IH]; intros seen; cbn [unique_from]; [constructor|].
  destruct (mem a seen); auto. constructor; auto.
  rewrite unique_from_In, mem_cons, str_eqb_refl. intros [_ H]. discriminate.
Qed.

Lemma firstn_In (A : Type) (n : nat) (l : list A) (x : A) :
  In x (firstn n l) -> In x l.
Proof.
  revert l. induction n as [|n IH]; intros [|a l]; simpl; try tauto.
  intros [->|H]; auto.
Qed.

Lemma firstn_keeps_NoDup (A : Type) (n : nat) (l : list A) :
  NoDup l -> NoDup (firstn n l).
Proof.
  revert l. induction n as [|n IH]; intros l H; [constructor|].
  destruct H as [|a l Ha Hl]; simpl; constructor; auto.
  intros Hin. apply Ha. now apply firstn_In in Hin.
Qed.

Lemma suggestions_are_examples (tokens : list str) (p : Pattern) (x : str) :
  In x (suggestions_of tokens p) -> In x (examples p).
Proof.
  unfold suggestions_of. rewrite in_app_iff. intros [H|H].
  - destruct (keywords p); [destruct H|].
    destruct (Qlt_bool _ _); [now apply firstn_In in H|destruct H].
  - destruct (existsb _ _); [now apply firstn_In in H|destruct H].
Qed.

(** C3. When [find_matches] finds nothing for the text of the request,
    [process_query] returns the failure response with the message and
    with the suggestions of [suggest_corrections]: the first five of the
    raw suggestions without their repetitions, in the order in which
    they are first seen; each is an example of a pattern of the grammar.
    The function returns a response in every case, an error included. *)
Theorem process_query_without_match (self : QueryService) (clock : Q * Q)
    (request : QueryRequest) :
  find_matches service_threshold (input_text request) (grammar self) = Ok [] ->
  let suggested := suggest_corrections (input_text request) (grammar self) in
  process_query self clock request
  = no_match_response clock (input_text request) suggested /\
  suggested = firstn 5 (unique (raw_suggestions (input_text request) (grammar self))) /\
  NoDup suggested /\ length suggested <= 5 /\
  (forall x, In x suggested ->
     exists p, In p (patterns (grammar self)) /\ In x (examples p)).
Proof.
  intros H suggested. split; [|split; [|split; [|split]]].
  - unfold process_query. rewrite H. reflexivity.
  - reflexivity.
  - apply firstn_keeps_NoDup, unique_from_NoDup.
  - apply firstn_le_length.
  - intros x Hx. apply firstn_In in Hx. apply unique_from_In in Hx as [Hx _].
    apply in_flat_map in Hx as (p & Hp & Hx).
    exists p. split; [exact Hp|]. now apply suggestions_are_examples in Hx.
Qed.

Lemma process_query_without_match_witness :
  process_query sample_service (0, 1)%Q sample_request
  = no_match_response (0, 1)%Q "show todos" ["todos assigned to Sarah"].
Proof.
  apply (@process_query_without_match sample_service (0, 1)%Q sample_request).
  vm_compute. reflexivity.
Defined.


(* ================================================================= *)
(** * Further properties of the code *)

Lemma replace_char (x : ascii) (new s : str) :
  replace [x] new s = flat_map (fun c => if ceqb x c then new else [c]) s.
Proof.
  unfold replace. induction s as [|c s IH]; [reflexivity|].
  rewrite replace_from_cons, startswith_cons. cbn [length Nat.sub flat_map].
  rewrite IH. destruct (ceqb x c); reflexivity.
Qed.

Lemma flat_map_flat_map (A B C : Type) (f : B -> list C) (g : A -> list B)
    (l : list A) :
  flat_map f (flat_map g l) = flat_map (fun a => flat_map f (g a)) l.
Proof.
  induction l as [|a l IH]; [reflexivity|].
  cbn [flat_map]. rewrite flat_map_app, IH. reflexivity.
Qed.

Lemma escape_flat_map (value : str) :
  _escape_sparql_string value = flat_map escaped_char value.
Proof.
  unfold _escape_sparql_string. rewrite !replace_char, !flat_map_flat_map.
  apply flat_map_ext. intros c.
  destruct c as [[] [] [] [] [] [] [] []]; reflexivity.
Qed.

Lemma escaped_char_cases (c : ascii) :
  (escaped_char c = [c] /\ c <> backslash /\ c <> dquote /\ c <> nl /\ c <> cr
   /\ c <> tab)
  \/ (exists d, escaped_char c = [backslash; d] /\
                In (c, d) [(backslash, backslash); (dquote, dquote);
                           (nl, "n"%char); (cr, "r"%char); (tab, "t"%char)]).
Proof.
  destruct c as [[] [] [] [] [] [] [] []];
    first [ left; repeat split; (reflexivity || discriminate)
          | right; eexists; split; [reflexivity|cbn; tauto] ].
Qed.

(** X1 ([_escape_sparql_string]): the five replacements in a row amount to
    one pass over the value that writes every character once, a backslash
    as two backslashes, a double quote, a line feed, a carriage return and
    a tab as a backslash and the character or its letter, any other
    character as it is: no replacement touches what an earlier one wrote. *)
Theorem escape_sparql_string_is_one_pass (value : str) :
  _escape_sparql_string value = flat_map escaped_char value.
Proof. apply escape_flat_map. Qed.

Lemma escaped_char_inj (c d : ascii) (x y : str) :
  escaped_char c ++ x = escaped_char d ++ y -> c = d /\ x = y.
Proof.
  intros H.
  destruct (escaped_char_cases c) as [(Ec & Hc)|(c' & Ec & Hc)];
  destruct (escaped_char_cases d) as [(Ed & Hd)|(d' & Ed & Hd)];
  rewrite Ec, Ed in H; cbn in H.
  - injection H as -> ->. auto.
  - injection H as -> _. tauto.
  - injection H as <- _. tauto.
  - injection H as <- ->.
    unfold backslash, dquote, nl, cr, tab in *. cbn in Hc, Hd.
    intuition congruence.
Qed.

(** X2 ([_escape_sparql_string]): escaping loses nothing, two values have
    the same escaped text only when they are the same value. *)
Theorem escape_sparql_string_injective (a b : str) :
  _escape_sparql_string a = _escape_sparql_string b <-> a = b.
Proof.
  split; [|intros ->; reflexivity].
  rewrite !escape_flat_map. revert b.
  induction a as [|c a IH]; intros [|d b] H; cbn [flat_map] in H.
  - reflexivity.
  - destruct (escaped_char_cases d) as [(Ed & _)|(d' & Ed & _)];
      rewrite Ed in H; discriminate.
  - destruct (escaped_char_cases c) as [(Ec & _)|(c' & Ec & _)];
      rewrite Ec in H; discriminate.
  - apply escaped_char_inj in H. destruct H as [-> H]. f_equal. auto.
Qed.

(** X3 ([_escape_sparql_string]): the escaped text holds no line feed, no
    carriage return and no tab, and every double quote in it comes right
    after a backslash that escapes it. *)
Theorem escape_sparql_string_no_raw_character (value : str) :
  forallb (fun c => negb (ceqb c nl || ceqb c cr || ceqb c tab))
          (_escape_sparql_string value) = true /\
  forall x y, _escape_sparql_string value = x ++ dquote :: y ->
    exists x' , x = x' ++ [backslash] /\
      exists v1 v2, value = v1 ++ dquote :: v2 /\
                    x' = _escape_sparql_string v1 /\ y = _escape_sparql_string v2.
Proof.
  split.
  - rewrite escape_flat_map. induction value as [|c v IH]; [reflexivity|].
    cbn [flat_map]. rewrite forallb_app, IH, andb_true_r.
    destruct c as [[] [] [] [] [] [] [] []]; reflexivity.
  - induction value as [|c v IH]; intros x y H.
    + destruct x; discriminate.
    + rewrite escape_flat_map in H. cbn [flat_map] in H.
      rewrite <- escape_flat_map in H.
      destruct (escaped_char_cases c) as [(Ec & Hb & Hq & _)|(c' & Ec & Hc)];
        rewrite Ec in H.
      * destruct x as [|x0 x]; cbn in H.
        { injection H as -> _. congruence. }
        injection H as <- H. apply IH in H.
        destruct H as (x' & -> & v1 & v2 & -> & -> & ->).
        exists (c :: _escape_sparql_string v1). split; [reflexivity|].
        exists (c :: v1), v2. split; [reflexivity|]. split; [|reflexivity].
        rewrite (escape_flat_map (c :: v1)). cbn [flat_map]. rewrite Ec.
        rewrite <- escape_flat_map. reflexivity.
      * destruct x as [|x0 [|x1 x]]; cbn in H.
        { discriminate. }
        { injection H as E0 E1 H. subst x0. exists []. split; [reflexivity|].
          assert (c = dquote) as ->.
          { unfold backslash, dquote, nl, cr, tab in *. cbn in Hc.
            intuition congruence. }
          exists [], v. auto. }
        injection H as <- <- H. apply IH in H.
        destruct H as (x' & -> & v1 & v2 & -> & -> & ->).
        exists (backslash :: c' :: _escape_sparql_string v1).
        split; [reflexivity|].
        exists (c :: v1), v2. split; [reflexivity|]. split; [|reflexivity].
        rewrite (escape_flat_map (c :: v1)). cbn [flat_map]. rewrite Ec.
        rewrite <- escape_flat_map. reflexivity.
Qed.

Lemma startswith_prefix (p s : str) : startswith p (p ++ s) = true.
Proof.
  induction p as [|a p IH]; [reflexivity|].
  cbn. rewrite IH, andb_true_r. apply ceqb_eq. reflexivity.
Qed.

Lemma contains_infix (sub s : str) : contains sub s = true <-> infix sub s.
Proof.
  split.
  - induction s as [|c s IH]; cbn; intros H.
    + rewrite orb_false_r in H. apply startswith_app in H.
      destruct H as (s' & ->). exists [], s'. reflexivity.
    + apply orb_true_iff in H. destruct H as [H|H].
      * apply startswith_app in H. destruct H as (s' & ->).
        exists [], s'. reflexivity.
      * destruct (IH H) as (a & b & ->). exists (c :: a), b. reflexivity.
  - intros (a & b & ->). induction a as [|c a IH].
    + cbn [app]. destruct (sub ++ b) eqn:E; cbn; rewrite <- E;
        rewrite startswith_prefix; reflexivity.
    + cbn. rewrite IH. apply orb_true_r.
Qed.

Lemma upper_app (a b : str) : upper (a ++ b) = upper a ++ upper b.
Proof. apply map_app. Qed.

Lemma lower_app (a b : str) : lower (a ++ b) = lower a ++ lower b.
Proof. apply map_app. Qed.

Lemma add_namespaces_new (ns : dict) (sparql : str) :
  ns <> [] -> contains "PREFIX" (upper sparql) = false ->
  exists rest, _add_namespaces ns sparql = "PREFIX " ++ rest.
Proof.
  intros Hns E. unfold _add_namespaces.
  destruct ns as [|[k v] ns]; [congruence|].
  rewrite E. cbn [negb map fst snd].
  match goal with |- context [map ?f ns] => generalize (map f ns) end.
  intros ls. destruct ls; cbn [join]; rewrite <- ?app_assoc;
    eexists; cbn [app]; reflexivity.
Qed.

(** X4 ([_add_namespaces]): the prefixes are written at most once.  A text
    that already holds the word PREFIX, in any case, is returned as it is,
    and so is the text [_add_namespaces] has returned. *)
Theorem add_namespaces_idempotent (ns : dict) (sparql : str) :
  _add_namespaces ns (_add_namespaces ns sparql) = _add_namespaces ns sparql /\
  (contains "PREFIX" (upper sparql) = true -> _add_namespaces ns sparql = sparql).
Proof.
  assert (Hid : forall s, contains "PREFIX" (upper s) = true ->
                          _add_namespaces ns s = s).
  { intros s H. unfold _add_namespaces. rewrite H. destruct ns; reflexivity. }
  split; [|apply Hid].
  destruct ns as [|kv ns]; [reflexivity|].
  destruct (contains "PREFIX" (upper sparql)) eqn:E.
  - rewrite (Hid _ E). apply Hid, E.
  - destruct (@add_namespaces_new (kv :: ns) sparql) as (rest & Hr);
      [discriminate|exact E|].
    apply Hid. rewrite Hr. apply contains_infix. exists [].
    eexists. cbn [app upper map]. reflexivity.
Qed.

Lemma contains_strip (sub line : str) :
  contains sub (strip line) = true -> contains sub line = true.
Proof.
  rewrite !contains_infix. intros H.
  apply (infix_trans H), strip_infix.
Qed.

Lemma classify_lines_parts : forall lines b filters patterns other,
  classify_lines b lines = (filters, patterns, other) ->
  (forall line, In line filters \/ In line patterns \/ In line other ->
                In line lines) /\
  (filters <> [] \/ patterns <> [] ->
   b = true \/ existsb (contains "WHERE") other = true).
Proof.
  induction lines as [|line lines IH]; intros b f p o H.
  - injection H as <- <- <-. split; [cbn; tauto|intros [E|E]; congruence].
  - cbn [classify_lines] in H.
    destruct (contains "WHERE" (strip line)) eqn:Ew.
    + destruct (classify_lines true lines) as [[f' p'] o'] eqn:E.
      injection H as <- <- <-. destruct (IH _ _ _ _ E) as [IH1 IH2].
      split.
      * intros l Hl. cbn [In] in *.
        destruct Hl as [Hl|[Hl|[Hl|Hl]]]; auto.
      * intros _. right. cbn [existsb].
        rewrite (contains_strip _ _ Ew). reflexivity.
    + destruct (b && startswith "FILTER" (strip line)) eqn:Ef;
        [|destruct (b && (startswith "?" (strip line)
                          || startswith "<" (strip line))) eqn:Ep];
        destruct (classify_lines b lines) as [[f' p'] o'] eqn:E;
        injection H as <- <- <-; destruct (IH _ _ _ _ E) as [IH1 IH2].
      * split.
        { intros l Hl. cbn [In] in *.
          destruct Hl as [[Hl|Hl]|[Hl|Hl]]; auto. }
        intros _. left. apply andb_true_iff in Ef. tauto.
      * split.
        { intros l Hl. cbn [In] in *.
          destruct Hl as [Hl|[[Hl|Hl]|Hl]]; auto. }
        intros _. left. apply andb_true_iff in Ep. tauto.
      * split.
        { intros l Hl. cbn [In] in *.
          destruct Hl as [Hl|[Hl|[Hl|Hl]]]; auto. }
        intros Hn. destruct (IH2 Hn) as [Hb|Hb]; [auto|].
        right. cbn [existsb]. rewrite Hb. apply orb_true_r.
Qed.

Lemma where_index_found (other : list str) :
  existsb (contains "WHERE") other = true ->
  exists i, where_index other = Ok i /\ i < length other.
Proof.
  induction other as [|line other IH]; [discriminate|].
  cbn [existsb where_index length]. destruct (contains "WHERE" line).
  - intros _. exists 0. split; [reflexivity|lia].
  - cbn [orb]. intros H. destruct (IH H) as (i & -> & Hi).
    exists (S i). split; [reflexivity|lia].
Qed.

Lemma split_on_cons (c a : ascii) (s : str) :
  split_on c (a :: s)
  = if ceqb a c then [] :: split_on c s
    else (a :: hd [] (split_on c s)) :: tl (split_on c s).
Proof.
  cbn [split_on]. destruct (split_on c s) eqn:E.
  - destruct s; cbn in E; [discriminate|].
    destruct (split_on c s); [discriminate|].
    destruct (ceqb a0 c); discriminate.
  - destruct (ceqb a c); reflexivity.
Qed.

Lemma split_on_lines (s : str) : Forall (fun l => one_line l = true) (split_on nl s).
Proof.
  induction s as [|a s IH]; [repeat constructor|].
  rewrite split_on_cons. destruct (ceqb a nl) eqn:E.
  - constructor; [reflexivity|exact IH].
  - destruct (split_on nl s) as [|p ps]; cbn [hd tl].
    + constructor; [cbn; rewrite E; reflexivity|constructor].
    + inversion IH; subst. constructor; [|assumption].
      cbn [one_line forallb]. rewrite E. assumption.
Qed.

Lemma split_on_app (p rest : str) :
  one_line p = true -> split_on nl (p ++ nl :: rest) = p :: split_on nl rest.
Proof.
  induction p as [|a p IH]; intros H.
  - cbn [app]. rewrite split_on_cons.
    replace (ceqb nl nl) with true by (symmetry; apply ceqb_eq; reflexivity).
    reflexivity.
  - cbn [one_line forallb] in H. apply andb_true_iff in H. destruct H as [Ha Hp].
    cbn [app]. rewrite split_on_cons, (IH Hp).
    apply negb_true_iff in Ha. rewrite Ha. reflexivity.
Qed.

(** [split] undoes [join] on lines. *)
Lemma split_on_join (lines : list str) :
  lines <> [] -> Forall (fun l => one_line l = true) lines ->
  split_on nl (join [nl] lines) = lines.
Proof.
  induction lines as [|l ls IH]; [congruence|]. intros _ H.
  inversion H as [|? ? Hl Hls]; subst. destruct ls as [|l' ls].
  - cbn [join]. apply split_on_one_line, Hl.
  - change (join [nl] (l :: l' :: ls)) with (l ++ nl :: join [nl] (l' :: ls)).
    rewrite (@split_on_app _ _ Hl), IH; [reflexivity|discriminate|assumption].
Qed.

Lemma skip_blank_or_brace_In (l : list str) (x : str) :
  In x (skip_blank_or_brace l) -> In x l.
Proof.
  induction l as [|a l IH]; [auto|]. cbn [skip_blank_or_brace].
  destruct (mem (strip a) [[]; "}"]); [right; auto|auto].
Qed.

(** X5 ([optimize_query]): the search for the WHERE line never fails, so
    [optimize_query] always returns a text; and it writes nothing of its
    own, every line of the text it returns is a line of the text it was
    given. *)
Theorem optimize_query_returns_lines_of_the_text (sparql : str) :
  exists result,
    optimize_query sparql = Ok result /\
    forall line, In line (split_on nl result) -> In line (split_on nl sparql).
Proof.
  unfold optimize_query.
  destruct (classify_lines false (split_on nl sparql)) as [[f p] o] eqn:E.
  destruct (classify_lines_parts _ _ E) as [Hin Hw].
  destruct f as [|f0 f]; [exists sparql; auto|].
  destruct p as [|p0 p]; [exists sparql; auto|].
  destruct Hw as [Hw|Hw]; [left; discriminate|discriminate|].
  destruct (where_index_found _ Hw) as (i & -> & Hi).
  cbn [bind]. eexists. split; [reflexivity|].
  set (L := (firstn (i + 1) o ++ (p0 :: p) ++ f0 :: f) ++ _).
  assert (HL : forall l, In l L -> In l (split_on nl sparql)).
  { intros l Hl. subst L. apply Hin.
    rewrite !in_app_iff in Hl. destruct Hl as [[Hl|[Hl|Hl]]|Hl]; auto.
    - apply firstn_In in Hl. auto.
    - apply skip_blank_or_brace_In in Hl.
      right. right. rewrite <- (firstn_skipn (i + 1) o).
      apply in_or_app. auto. }
  rewrite split_on_join.
  - exact HL.
  - subst L. destruct o; [cbn in Hi; lia|].
    rewrite Nat.add_1_r. discriminate.
  - apply Forall_forall. intros l Hl.
    exact (proj1 (Forall_forall _ _) (split_on_lines sparql) l (HL l Hl)).
Qed.

Lemma add_limit_unfold (q : str) (n : Z) :
  add_limit q n
  = up_to_last_brace (rstrip (re_sub re_limit [] q))
    ++ [nl] ++ "LIMIT " ++ str_of_Z n.
Proof. reflexivity. Qed.

Lemma lstrip_head (s : str) :
  match lstrip s with c :: _ => isspace c = false | [] => True end.
Proof.
  induction s as [|c s IH]; [exact I|]. cbn [lstrip].
  destruct (isspace c) eqn:E; [exact IH|exact E].
Qed.

Lemma rstrip_ends_black (s : str) : ends_black (rstrip s) = true.
Proof.
  unfold ends_black, rstrip. rewrite rev_involutive.
  pose proof (lstrip_head (rev s)) as H.
  destruct (lstrip (rev s)); [reflexivity|]. rewrite H. reflexivity.
Qed.

Lemma rstrip_black (s : str) : ends_black s = true -> rstrip s = s.
Proof.
  unfold ends_black, rstrip. intros H.
  destruct (rev s) as [|c t] eqn:E.
  - apply (f_equal (@rev ascii)) in E. rewrite rev_involutive in E.
    subst s. reflexivity.
  - cbn [lstrip]. apply negb_true_iff in H. rewrite H, <- E.
    apply rev_involutive.
Qed.

Lemma ends_black_snoc (s : str) (c : ascii) :
  ends_black (s ++ [c]) = negb (isspace c).
Proof. unfold ends_black. rewrite rev_unit. reflexivity. Qed.

Lemma ends_black_tail (c : ascii) (s : str) :
  ends_black (c :: s) = true -> ends_black s = true.
Proof.
  destruct s as [|d s] using rev_ind; [reflexivity|].
  rewrite app_comm_cons, !ends_black_snoc. auto.
Qed.

Lemma brace_cases (s : str) :
  no_brace s = true \/
  exists a b, s = a ++ "}"%char :: b /\ no_brace b = true.
Proof.
  induction s as [|c s [IH|(a & b & -> & Hb)]].
  - left. reflexivity.
  - destruct (ceqb c "}") eqn:E.
    + right. apply ceqb_eq in E. subst c. exists [], s. auto.
    + left. cbn. rewrite E. exact IH.
  - right. exists (c :: a), b. auto.
Qed.

Lemma up_to_last_brace_none (s : str) :
  no_brace s = true -> up_to_last_brace s = s.
Proof.
  intros H. unfold up_to_last_brace. rewrite (rfind_none _ H).
  destruct (negb _); reflexivity.
Qed.

Lemma up_to_last_brace_some (a b : str) :
  no_brace b = true -> up_to_last_brace (a ++ "}"%char :: b) = a ++ "}".
Proof.
  intros H. unfold up_to_last_brace.
  rewrite (endswith_brace _ _ H), (rfind_last _ _ H), firstn_succ_length.
  destruct b; reflexivity.
Qed.

Lemma up_to_last_brace_idem (s : str) :
  up_to_last_brace (up_to_last_brace s) = up_to_last_brace s.
Proof.
  destruct (brace_cases s) as [H|(a & b & -> & H)].
  - rewrite !(@up_to_last_brace_none _ H). reflexivity.
  - rewrite (@up_to_last_brace_some a b H).
    apply (@up_to_last_brace_some a []). reflexivity.
Qed.

Lemma up_to_last_brace_black (s : str) :
  ends_black s = true -> ends_black (up_to_last_brace s) = true.
Proof.
  destruct (brace_cases s) as [H|(a & b & -> & H)].
  - rewrite (@up_to_last_brace_none _ H). auto.
  - rewrite (@up_to_last_brace_some a b H). intros _.
    apply ends_black_snoc.
Qed.

(** ** The pattern of [add_limit] on a text that ends in a LIMIT line *)

Lemma rmatch_ci_step (c : ascii) (its : list item) (b : bool) (x : ascii)
    (s : str) :
  ci c x = true ->
  rmatch (chr (ci c) :: its) b (x :: s) = rmatch its false s.
Proof.
  intros H. cbn [rmatch chr quantified]. rewrite H.
  destruct (rmatch its false s) as [[r gs]|]; reflexivity.
Qed.

Lemma rmatch_plus_run (p : cls) (its : list item) (b : bool) (g : str)
    (d : ascii) (s : str) (r : str * list str) :
  g <> [] -> forallb p g = true -> p d = false ->
  rmatch its false (d :: s) = Some r ->
  rmatch (Cls p Plus false :: its) b (g ++ d :: s) = Some r.
Proof.
  intros Hg Hp Hd Hm. destruct g as [|c g]; [congruence|].
  cbn [forallb] in Hp. apply andb_true_iff in Hp. destruct Hp as [Hc Hp].
  cbn [rmatch app quantified]. rewrite Hc.
  apply greedy_longest; [assumption|assumption|].
  replace (match g with [] => false | _ :: _ => false end) with false
    by (destruct g; reflexivity).
  rewrite Hm. destruct r. reflexivity.
Qed.

Lemma greedy_all (p : cls) (k : str -> bool -> str -> mres) (r : str * list str) :
  forall g acc b,
    forallb p g = true ->
    k (acc ++ g) (match g with [] => b | _ => false end) [] = Some r ->
    greedy p k acc b g = Some r.
Proof.
  induction g as [|c g IH]; intros acc b Hg Hk.
  - cbn. rewrite app_nil_r in Hk. exact Hk.
  - cbn [forallb] in Hg. apply andb_true_iff in Hg. destruct Hg as [Hc Hg].
    cbn [greedy]. rewrite Hc.
    rewrite (IH (acc ++ [c]) false Hg); [reflexivity|].
    rewrite <- app_assoc. cbn [app]. destruct g; exact Hk.
Qed.

Lemma rmatch_digits_end (b : bool) (d : str) :
  d <> [] -> forallb isdigit d = true ->
  rmatch [Cls isdigit Plus false; Cls isspace Star false; Eol] b d
  = Some ([], []).
Proof.
  intros Hd Hp. destruct d as [|c d]; [congruence|].
  cbn [forallb] in Hp. apply andb_true_iff in Hp. destruct Hp as [Hc Hp].
  cbn [rmatch quantified]. rewrite Hc.
  apply greedy_all; [assumption|]. destruct d; reflexivity.
Qed.

Lemma digit_not_space (c : ascii) : isdigit c = true -> isspace c = false.
Proof. destruct c as [[] [] [] [] [] [] [] []]; cbv; congruence. Qed.

Lemma space_not_digit (c : ascii) : isspace c = true -> isdigit c = false.
Proof. destruct c as [[] [] [] [] [] [] [] []]; cbv; congruence. Qed.

Lemma limit_line_matches (b : bool) (d : str) :
  d <> [] -> forallb isdigit d = true ->
  rmatch re_limit b (nl :: "LIMIT " ++ d) = Some ([], []).
Proof.
  intros Hd Hp. destruct d as [|c d']; [congruence|].
  assert (Hc : isdigit c = true).
  { cbn [forallb] in Hp. apply andb_true_iff in Hp. tauto. }
  unfold re_limit. cbn [app word_ci map].
  apply (@rmatch_plus_run isspace _ b [nl] "L"%char ("IMIT " ++ c :: d'));
    [discriminate|reflexivity|reflexivity|].
  cbn [app]. rewrite !rmatch_ci_step by reflexivity.
  apply (@rmatch_plus_run isspace _ false " " c d');
    [discriminate|reflexivity|apply digit_not_space, Hc|].
  apply rmatch_digits_end; assumption.
Qed.

Lemma run_unique_l (p : cls) : forall a b x y,
  forallb p a = true -> forallb p b = true ->
  match x with c :: _ => p c = false | [] => True end ->
  match y with c :: _ => p c = false | [] => True end ->
  a ++ x = b ++ y -> a = b /\ x = y.
Proof.
  induction a as [|c a IH]; intros [|d b] x y Ha Hb Hx Hy E; cbn in *.
  - auto.
  - subst x. apply andb_true_iff in Hb. destruct Hb as [Hd _]. congruence.
  - subst y. apply andb_true_iff in Ha. destruct Ha as [Hc _]. congruence.
  - injection E as -> E. apply andb_true_iff in Ha, Hb.
    destruct (IH b x y) as [-> ->]; tauto.
Qed.

Lemma run_unique_r (p : cls) (a b x y : str) :
  forallb p a = true -> forallb p b = true ->
  match rev x with c :: _ => p c = false | [] => True end ->
  match rev y with c :: _ => p c = false | [] => True end ->
  x ++ a = y ++ b -> a = b /\ x = y.
Proof.
  intros Ha Hb Hx Hy E.
  apply (f_equal (@rev ascii)) in E. rewrite !rev_app_distr in E.
  apply (@run_unique_l p) in E; try assumption; try (rewrite forallb_rev; assumption).
  destruct E as [E1 E2].
  apply (f_equal (@rev ascii)) in E1, E2. rewrite !rev_involutive in E1, E2.
  auto.
Qed.

Lemma rev_last_of_run (p : cls) (x g : str) :
  g <> [] -> forallb p g = true ->
  match rev (x ++ g) with c :: _ => p c = true | [] => False end.
Proof.
  intros Hg Hp. rewrite rev_app_distr.
  destruct g as [|c g] using rev_ind; [congruence|].
  rewrite rev_unit. cbn [app].
  rewrite forallb_app in Hp. apply andb_true_iff in Hp. cbn in Hp.
  destruct Hp as [_ Hp]. rewrite andb_true_r in Hp. exact Hp.
Qed.

Lemma ci_letter_not_space (x c : ascii) :
  lower_char x = lower_char c -> islower (lower_char c) = true ->
  isspace x = false.
Proof.
  intros E H. rewrite <- E in H. clear E.
  destruct x as [[] [] [] [] [] [] [] []]; cbv in H |- *; congruence.
Qed.

Ltac flat_app := rewrite <- ?app_assoc; cbn [app]; rewrite <- ?app_assoc.
Ltac flat_app_in H :=
  rewrite <- ?app_assoc in H; cbn [app] in H; rewrite <- ?app_assoc in H.

Lemma limit_line_not_inside (b : bool) (r d : str) :
  r <> [] -> ends_black r = true -> d <> [] -> forallb isdigit d = true ->
  rmatch re_limit b (r ++ nl :: "LIMIT " ++ d) = None.
Proof.
  intros Hr Hblack Hd Hp.
  destruct (rmatch re_limit b (r ++ nl :: "LIMIT " ++ d)) as [[rest gs]|] eqn:E;
    [exfalso|reflexivity].
  unfold re_limit in E. cbn [app word_ci map] in E.
  apply rmatch_cls in E. destruct E as (g1 & b1 & s1 & gs1 & E1 & Hg1 & Hq1 & E & _).
  apply rmatch_ci in E. destruct E as (x1 & b2 & s2 & -> & Hx1 & E).
  apply rmatch_ci in E. destruct E as (x2 & b3 & s3 & -> & Hx2 & E).
  apply rmatch_ci in E. destruct E as (x3 & b4 & s4 & -> & Hx3 & E).
  apply rmatch_ci in E. destruct E as (x4 & b5 & s5 & -> & Hx4 & E).
  apply rmatch_ci in E. destruct E as (x5 & b6 & s6 & -> & Hx5 & E).
  apply rmatch_cls in E. destruct E as (g2 & b7 & s7 & gs2 & -> & Hg2 & Hq2 & E & _).
  apply rmatch_cls in E. destruct E as (g3 & b8 & s8 & gs3 & -> & Hg3 & Hq3 & E & _).
  apply rmatch_cls in E. destruct E as (g4 & b9 & s9 & gs4 & -> & Hg4 & _ & E & _).
  cbn [rmatch] in E. destruct (at_end s9) eqn:Hend; [|discriminate].
  clear E. cbn [quant_ok] in Hq1, Hq2, Hq3.
  assert (Hw : forallb isspace (g4 ++ s9) = true).
  { rewrite forallb_app, Hg4. apply at_end_cases in Hend.
    destruct Hend as [-> | ->]; reflexivity. }
  (* the white space at the end *)
  assert (E2 : (r ++ nl :: "LIMIT " ++ d) ++ []
               = (g1 ++ x1 :: x2 :: x3 :: x4 :: x5 :: g2 ++ g3) ++ g4 ++ s9).
  { rewrite app_nil_r. cbn [app] in E1 |- *. rewrite E1.
    flat_app. reflexivity. }
  apply (@run_unique_r isspace) in E2; [|reflexivity|exact Hw| |].
  2:{ pose proof (@rev_last_of_run isdigit (r ++ nl :: "LIMIT ") d Hd Hp) as H.
      flat_app_in H.
      destruct (rev _); [exact I|]. apply digit_not_space, H. }
  2:{ pose proof (@rev_last_of_run isdigit
                    (g1 ++ x1 :: x2 :: x3 :: x4 :: x5 :: g2) g3 Hq3 Hg3) as H.
      flat_app_in H.
      destruct (rev _); [exact I|]. apply digit_not_space, H. }
  destruct E2 as [_ E2]. clear Hw Hend Hg4.
  (* the digits *)
  assert (E3 : (r ++ nl :: "LIMIT ") ++ d
               = (g1 ++ x1 :: x2 :: x3 :: x4 :: x5 :: g2) ++ g3).
  { flat_app.
    cbn [app] in E2. rewrite E2.
    flat_app. reflexivity. }
  clear E2 E1.
  apply (@run_unique_r isdigit) in E3; [|exact Hp|exact Hg3| |].
  2:{ rewrite rev_app_distr. reflexivity. }
  2:{ pose proof (@rev_last_of_run isspace
                    (g1 ++ [x1; x2; x3; x4; x5]) g2 Hq2 Hg2) as H.
      flat_app_in H.
      destruct (rev _); [exact I|]. apply space_not_digit, H. }
  destruct E3 as [_ E3].
  (* the space before the digits *)
  assert (E4 : (r ++ nl :: "LIMIT") ++ " "
               = (g1 ++ [x1; x2; x3; x4; x5]) ++ g2).
  { flat_app.
    cbn [app] in E3. rewrite E3.
    flat_app. reflexivity. }
  clear E3.
  apply (@run_unique_r isspace) in E4; [|reflexivity|exact Hg2| |].
  2:{ rewrite rev_app_distr. reflexivity. }
  2:{ rewrite rev_app_distr. cbn [rev app].
      apply (@ci_letter_not_space _ "T" Hx5). reflexivity. }
  destruct E4 as [_ E4].
  (* the word and the white space before it *)
  apply (f_equal (@rev ascii)) in E4. rewrite !rev_app_distr in E4.
  cbn [rev app] in E4. injection E4 as _ _ _ _ _ E4.
  destruct (rev g1) as [|c g1'] eqn:Eg1; [discriminate|].
  injection E4 as <- E4.
  rewrite <- forallb_rev, Eg1 in Hg1. cbn [forallb] in Hg1.
  apply andb_true_iff in Hg1. destruct Hg1 as [_ Hg1].
  unfold ends_black in Hblack. rewrite E4 in Hblack.
  destruct g1' as [|c g1'].
  - apply Hr. apply (f_equal (@rev ascii)) in E4.
    rewrite rev_involutive in E4. exact E4.
  - cbn [forallb] in Hg1. apply andb_true_iff in Hg1.
    destruct Hg1 as [Hc _]. rewrite Hc in Hblack. discriminate.
Qed.

Lemma sub_limit_line (d : str) :
  d <> [] -> forallb isdigit d = true ->
  forall r b, ends_black r = true ->
    sub_pieces [] (pieces re_limit b 0 (r ++ nl :: "LIMIT " ++ d)) = r.
Proof.
  intros Hd Hp. induction r as [|c r IH]; intros b Hblack.
  - rewrite app_nil_l, pieces_cons, (limit_line_matches b Hd Hp).
    cbn [length Nat.sub].
    assert (Hs : forall m, pieces re_limit false (length m) m = []).
    { intros m. rewrite <- (app_nil_r m) at 2. apply pieces_skip. }
    rewrite Hs. reflexivity.
  - rewrite <- app_comm_cons, pieces_cons, app_comm_cons.
    rewrite (@limit_line_not_inside b (c :: r) d); try assumption;
      [|discriminate].
    cbn [sub_pieces]. f_equal. apply IH. apply (ends_black_tail _ _ Hblack).
Qed.

Lemma string_of_uint_digits (u : Decimal.uint) :
  forallb isdigit (String.list_ascii_of_string (NilEmpty.string_of_uint u)) = true.
Proof. induction u; cbn [NilEmpty.string_of_uint String.list_ascii_of_string forallb]; auto. Qed.

Lemma str_of_Z_digits (n : Z) :
  (0 <= n)%Z -> str_of_Z n <> [] /\ forallb isdigit (str_of_Z n) = true.
Proof.
  intros Hn. unfold str_of_Z. destruct n as [|p|p]; [split; [discriminate|reflexivity]| |lia].
  cbn [Z.to_int NilEmpty.string_of_int]. split; [|apply string_of_uint_digits].
  pose proof (DecimalPos.Unsigned.to_uint_nonnil p) as H.
  destruct (Pos.to_uint p); [congruence|..]; discriminate.
Qed.

(** X6 ([add_limit]): a LIMIT line that [add_limit] has written is replaced
    by the next call, for any text, with or without a brace: limiting to
    [n] and then to [m] gives what limiting to [m] gives.  For a negative
    [n] the first line is no LIMIT clause and a text without a closing
    brace keeps it. *)
Theorem add_limit_replaces_its_own_limit (sparql : str) (n m : Z) :
  (0 <= n)%Z ->
  add_limit (add_limit sparql n) m = add_limit sparql m.
Proof.
  intros Hn. destruct (str_of_Z_digits Hn) as [Hd Hp].
  rewrite (add_limit_unfold (add_limit sparql n)), !(add_limit_unfold sparql).
  set (r := up_to_last_brace (rstrip (re_sub re_limit [] sparql))).
  assert (Hr : ends_black r = true).
  { apply up_to_last_brace_black, rstrip_ends_black. }
  f_equal. unfold re_sub. cbn [app].
  rewrite (sub_limit_line Hd Hp _ _ Hr), (rstrip_black _ Hr).
  apply up_to_last_brace_idem.
Qed.

Lemma add_limit_replaces_its_own_limit_witness :
  add_limit (add_limit "SELECT ?s WHERE { ?s ?p ?o }" 5) 10
  = add_limit "SELECT ?s WHERE { ?s ?p ?o }" 10.
Proof.
  apply (@add_limit_replaces_its_own_limit "SELECT ?s WHERE { ?s ?p ?o }" 5 10).
  lia.
Defined.

Example add_limit_keeps_a_negative_limit :
  add_limit (add_limit "ASK" (-5)) 3
  = "ASK" ++ [nl] ++ "LIMIT -5" ++ [nl] ++ "LIMIT 3".
Proof. vm_compute. reflexivity. Qed.

(** Every match [finditer] finds is a part of the subject that is not
    empty and that the pattern matches. *)
Lemma pieces_hits (its : list item) : forall s b k,
  Forall (fun h =>
            fst h <> [] /\ infix (fst h) s /\
            exists b' rest, rmatch its b' (fst h ++ rest) = Some (rest, snd h))
         (hits (pieces its b k s)).
Proof.
  induction s as [|c s IH]; intros b k; [constructor|].
  assert (Hlater : forall b' k',
            Forall (fun h =>
                      fst h <> [] /\ infix (fst h) (c :: s) /\
                      exists b0 rest,
                        rmatch its b0 (fst h ++ rest) = Some (rest, snd h))
                   (hits (pieces its b' k' s))).
  { intros b' k'. eapply Forall_impl; [|apply (IH b' k')].
    intros h (H1 & H2 & H3). split; [exact H1|]. split; [|exact H3].
    apply (@infix_app_l _ [c]), H2. }
  destruct k as [|k]; [|apply Hlater].
  rewrite pieces_cons.
  destruct (rmatch its b (c :: s)) as [[rest gs]|] eqn:E; [|apply Hlater].
  destruct (rmatch_sound _ _ _ E) as (m & Em & _).
  replace (length (c :: s) - length rest) with (length m)
    by (rewrite Em, length_app; lia).
  destruct m as [|c' m]; [apply Hlater|].
  cbn [length hits]. constructor; [|apply Hlater].
  rewrite Em, consumed_app. cbn [fst snd].
  split; [discriminate|]. split.
  - exists [], rest. reflexivity.
  - exists b, rest. rewrite <- Em. exact E.
Qed.

Lemma lower_char_not_upper (c : ascii) : isupper (lower_char c) = false.
Proof. destruct c as [[] [] [] [] [] [] [] []]; reflexivity. Qed.

Lemma lower_no_capital (s : str) :
  forallb (fun c => negb (isupper c)) (lower s) = true.
Proof.
  induction s as [|c s IH]; [reflexivity|]. cbn [lower map forallb].
  rewrite lower_char_not_upper. exact IH.
Qed.

Lemma infix_forallb (p : cls) (g s : str) :
  infix g s -> forallb p s = true -> forallb p g = true.
Proof.
  intros (a & b & ->). rewrite !forallb_app.
  intros H. apply andb_true_iff in H. destruct H as [_ H].
  apply andb_true_iff in H. tauto.
Qed.

Lemma forallb_and (p q : cls) (s : str) :
  forallb p s = true -> forallb q s = true ->
  forallb (fun c => p c && q c) s = true.
Proof.
  induction s as [|c s IH]; [reflexivity|]. cbn [forallb].
  intros Hp Hq. apply andb_true_iff in Hp, Hq.
  destruct Hp as [-> Hp], Hq as [-> Hq]. cbn. auto.
Qed.

Lemma rmatch_token_shape (b : bool) (m rest : str) (gs : list str) :
  rmatch re_token b (m ++ rest) = Some (rest, gs) ->
  exists w tail,
    m = w ++ tail /\ w <> [] /\ forallb isword w = true /\
    (tail = [] \/
     exists w', tail = "'" ++ w' /\ w' <> [] /\ forallb isword w' = true).
Proof.
  intros H. unfold re_token in H.
  apply rmatch_cls in H. destruct H as (w & b1 & s1 & gs1 & E & Hw & Hq & H & _).
  cbn [quant_ok] in Hq. cbn [rmatch] in H.
  destruct (seq_match _ _ b1 s1) as [r|] eqn:Hs.
  - injection H as ->. cbn [seq_match] in Hs.
    apply quantified_inv in Hs.
    destruct Hs as (g & b2 & s2 & -> & Hg & Hqg & Hs).
    apply quantified_inv in Hs.
    destruct Hs as (w' & b3 & s3 & -> & Hw' & Hq' & Hs).
    cbn [rmatch] in Hs. injection Hs as ->.
    cbn [quant_ok] in Hqg, Hq'. apply length_one in Hqg. destruct Hqg as [x ->].
    cbn [forallb] in Hg. rewrite andb_true_r in Hg. apply ceqb_eq in Hg. subst x.
    exists w, ("'" ++ w'). split.
    + apply (app_inv_tail rest). rewrite E, <- !app_assoc. reflexivity.
    + split; [exact Hq|]. split; [exact Hw|]. right. exists w'. auto.
  - cbn [rmatch] in H. injection H as -> _.
    exists w, []. rewrite app_nil_r. split.
    + apply (app_inv_tail rest). exact E.
    + auto.
Qed.

(** X7 ([_tokenize]): every token is a run of word characters or two such
    runs with one apostrophe in between; a token is never empty and holds
    no capital letter, no white space and no other punctuation. *)
Theorem tokenize_token_shape (text : str) :
  Forall token_shape (_tokenize text).
Proof.
  unfold _tokenize, re_findall. apply Forall_map.
  eapply Forall_impl; [|apply pieces_hits].
  intros [m gs] (_ & Hin & b' & rest & H). cbn [fst snd] in *.
  assert (Hlow : forallb (fun c => negb (isupper c)) m = true).
  { apply (infix_forallb _ Hin). apply lower_no_capital. }
  apply rmatch_token_shape in H.
  destruct H as (w & tail & -> & Hw & Hpw & Htail).
  rewrite forallb_app in Hlow. apply andb_true_iff in Hlow.
  destruct Hlow as [Hlw Hlt].
  exists w, tail. split; [reflexivity|]. split; [exact Hw|].
  split; [apply forallb_and; assumption|].
  destruct Htail as [->|(w' & -> & Hw' & Hpw')]; [left; reflexivity|].
  right. exists w'. split; [reflexivity|]. split; [exact Hw'|].
  cbn [app forallb] in Hlt. apply andb_true_iff in Hlt.
  apply forallb_and; tauto.
Qed.

Lemma unique_In (x : str) (l : list str) : In x (unique l) <-> In x l.
Proof.
  unfold unique. rewrite unique_from_In. cbn. tauto.
Qed.

Lemma findall_variable (text : str) :
  Forall (fun v => v <> [] /\ forallb isword v = true /\ infix ("?" ++ v) text)
         (re_findall1 re_variable text).
Proof.
  unfold re_findall1. apply Forall_map.
  eapply Forall_impl; [|apply pieces_hits].
  intros [m gs] (_ & Hin & b' & rest & H). cbn [fst snd] in *.
  unfold re_variable in H.
  apply rmatch_chr in H. destruct H as (b1 & s1 & E & H).
  apply rmatch_cls in H. destruct H as (g & b2 & s2 & gs2 & -> & Hg & Hq & H & ->).
  cbn [rmatch] in H. injection H as -> <-. cbn [hd quant_ok] in *.
  split; [exact Hq|]. split; [exact Hg|].
  assert (Em : m = "?" ++ g).
  { apply (app_inv_tail rest). rewrite E, <- app_assoc. reflexivity. }
  rewrite <- Em. exact Hin.
Qed.

Lemma search_group_infix (its : list item) (s : str) (f : found) :
  re_search its s = Some f -> infix (hd [] (groups f)) s.
Proof.
  intros H. apply search_from_sound in H.
  destruct H as (s1 & b' & _ & -> & H).
  destruct (rmatch_sound _ _ _ H) as (m & Em & _ & Hgs & _).
  apply app_inv_tail in Em. subst m.
  destruct (groups f) as [|g gs]; cbn [hd].
  - exists [], (s1 ++ matched f ++ after f). reflexivity.
  - inversion Hgs; subst.
    apply infix_app_l, infix_app_r. assumption.
Qed.

(** X8 ([_extract_variables]): the list of variables has no duplicates,
    and each of its names is a run of word characters, not empty, that
    stands in the query after a question mark. *)
Theorem extract_variables_names (sparql : str) :
  NoDup (_extract_variables sparql) /\
  Forall (fun v => v <> [] /\ forallb isword v = true /\
                   infix ("?" ++ v) sparql)
         (_extract_variables sparql).
Proof.
  unfold _extract_variables.
  destruct (re_search re_select sparql) as [f|] eqn:E;
    [|split; constructor].
  pose proof (search_group_infix _ _ E) as Hc.
  destruct (contains "*" (hd [] (groups f))).
  - split; [apply unique_from_NoDup|].
    apply Forall_forall. intros v Hv. apply (proj1 (unique_In _ _)) in Hv.
    exact (proj1 (Forall_forall _ _) (findall_variable sparql) v Hv).
  - split; [apply unique_from_NoDup|].
    apply Forall_forall. intros v Hv. apply (proj1 (unique_In _ _)) in Hv.
    destruct (proj1 (Forall_forall _ _)
                (findall_variable (hd [] (groups f))) v Hv) as (H1 & H2 & H3).
    split; [exact H1|]. split; [exact H2|].
    exact (infix_trans H3 Hc).
Qed.

Lemma match_pattern_kind (thr : Q) (text : str) (p : Pattern) (r : MatchResult) :
  _match_pattern thr text p = Ok (Some r) ->
  pattern r = p /\ result_kind text r.
Proof.
  unfold _match_pattern.
  destruct (try_exact_match_spec text p) as (m & Hm & ->). cbn [bind].
  destruct m as [gs|].
  - intros H. injection H as <-. split; [reflexivity|].
    left. cbn. repeat split; eauto.
  - destruct (try_fuzzy_match_spec thr text p) as (d & Hd & ->).
    destruct (Qle_bool thr _); [|discriminate].
    intros H. injection H as <-. split; [reflexivity|].
    right. cbn. auto.
Qed.

(** X9 ([find_matches], [_match_pattern]): every result is for a pattern
    of the grammar and is of one of two kinds, never "partial": an exact
    result of confidence 1.0, or a fuzzy result, made only when the exact
    match fails, whose confidence is the token similarity; its confidence
    lies between the threshold and 1. *)
Theorem find_matches_result_kinds (thr : Q) (text : str) (g : Grammar) :
  exists ms,
    find_matches thr text g = Ok ms /\
    Forall (fun r =>
              In (pattern r) (patterns g) /\
              (thr <= confidence r /\ 0 <= confidence r /\ confidence r <= 1)%Q /\
              match_type r <> "partial" /\
              result_kind text r) ms.
Proof.
  rewrite find_matches_spec. eexists. split; [reflexivity|].
  apply Forall_forall. intros r Hr.
  apply (Permutation_in _ (sort_desc_perm _)) in Hr.
  apply in_flat_map in Hr. destruct Hr as (p & Hp & Hr).
  apply kept_In in Hr. destruct Hr as [Hm Hthr].
  apply match_pattern_kind in Hm. destruct Hm as [<- Hk].
  split; [exact Hp|]. split; [|split; [|exact Hk]].
  - split; [exact Hthr|].
    destruct Hk as [(_ & -> & _)|(_ & -> & _)].
    + split; [discriminate|]. intros H. discriminate H.
    + apply token_similarity_range.
  - destruct Hk as [(-> & _)|(-> & _)]; discriminate.
Qed.

Lemma insert_desc_filter (c : Q) (m : MatchResult) (l : list MatchResult) :
  filter (fun r => Qeq_bool (confidence r) c) (insert_desc m l)
  = filter (fun r => Qeq_bool (confidence r) c) (m :: l).
Proof.
  induction l as [|x l IH]; [reflexivity|].
  cbn [insert_desc].
  destruct (Qlt_bool (confidence m) (confidence x)) eqn:E; [|reflexivity].
  cbn [filter] in *. rewrite IH.
  destruct (Qeq_bool (confidence m) c) eqn:Em; [|reflexivity].
  destruct (Qeq_bool (confidence x) c) eqn:Ex; [|reflexivity].
  exfalso. apply Qeq_bool_iff in Em, Ex.
  unfold Qlt_bool in E. apply negb_true_iff in E.
  assert (H : Qle_bool (confidence x) (confidence m) = true).
  { apply Qle_bool_iff. rewrite Em, Ex. apply Qle_refl. }
  congruence.
Qed.

Lemma sort_desc_filter (c : Q) (l : list MatchResult) :
  filter (fun r => Qeq_bool (confidence r) c) (sort_desc l)
  = filter (fun r => Qeq_bool (confidence r) c) l.
Proof.
  induction l as [|m l IH]; [reflexivity|].
  unfold sort_desc in *. cbn [fold_right].
  rewrite insert_desc_filter. cbn [filter]. rewrite IH. reflexivity.
Qed.

(** X10 ([find_matches]): the sort is stable.  The results of one and the
    same confidence stand in the order of their patterns in the grammar,
    so among the best results the first pattern of the grammar comes
    first. *)
Theorem find_matches_keeps_grammar_order (thr : Q) (text : str) (g : Grammar) :
  exists ms,
    find_matches thr text g = Ok ms /\
    forall c,
      filter (fun r => Qeq_bool (confidence r) c) ms
      = filter (fun r => Qeq_bool (confidence r) c)
               (flat_map (kept thr text) (patterns g)).
Proof.
  rewrite find_matches_spec. eexists. split; [reflexivity|].
  intros c. apply sort_desc_filter.
Qed.

Lemma startswith_contains (p s : str) :
  startswith p s = true -> contains p s = true.
Proof. intros H. destruct s; cbn [contains]; rewrite H; reflexivity. Qed.

Lemma suggest_queries_unfold (self : QueryService) (text : str) :
  suggest_queries self text
  = firstn 10 (unique (flat_map
                         (fun p => if keyword_holds (lower text) p
                                   then firstn 1 (examples p) else [])
                         (patterns (grammar self)))).
Proof.
  unfold suggest_queries. do 2 f_equal. apply flat_map_ext. intros p.
  unfold keyword_holds.
  replace (existsb (fun keyword => startswith (lower text) keyword
                                   || contains (lower text) keyword)
                   (keywords p))
    with (existsb (contains (lower text)) (keywords p)); [reflexivity|].
  induction (keywords p) as [|k ks IH]; [reflexivity|]. cbn [existsb].
  rewrite IH. f_equal.
  destruct (startswith (lower text) k) eqn:E; [|reflexivity].
  apply startswith_contains, E.
Qed.

(** X11 ([suggest_queries]): the suggestions are the first examples of the
    patterns one of whose keywords holds the input in lower case (the
    test [startswith] adds nothing to the test [in]), each once, in the
    order of the grammar, ten at most. *)
Theorem suggest_queries_first_examples (self : QueryService) (text : str) :
  let suggested := suggest_queries self text in
  suggested
  = firstn 10 (unique (flat_map
                         (fun p => if keyword_holds (lower text) p
                                   then firstn 1 (examples p) else [])
                         (patterns (grammar self)))) /\
  NoDup suggested /\ length suggested <= 10 /\
  (forall x, In x suggested ->
     exists p, In p (patterns (grammar self)) /\
               keyword_holds (lower text) p = true /\
               hd_error (examples p) = Some x).
Proof.
  cbn zeta. rewrite suggest_queries_unfold. split; [reflexivity|].
  split; [apply firstn_keeps_NoDup, unique_from_NoDup|].
  split; [apply firstn_le_length|].
  intros x Hx. apply firstn_In in Hx. apply (proj1 (unique_In _ _)) in Hx.
  apply in_flat_map in Hx. destruct Hx as (p & Hp & Hx).
  exists p. split; [exact Hp|].
  destruct (keyword_holds (lower text) p); [|destruct Hx].
  split; [reflexivity|].
  destruct (examples p) as [|e es]; [destruct Hx|].
  cbn in Hx. destruct Hx as [->|[]]. reflexivity.
Qed.

Lemma get_pattern_by_id_from_spec (ps : list Pattern) (id : str) :
  match get_pattern_by_id_from ps id with
  | Some p => In p ps /\ pattern_id p = id
  | None => ~ In id (map pattern_id ps)
  end.
Proof.
  induction ps as [|q ps IH]; [cbn; tauto|].
  cbn [get_pattern_by_id_from].
  destruct (str_eqb (pattern_id q) id) eqn:E.
  - apply str_eqb_eq in E. split; [left; reflexivity|exact E].
  - apply str_eqb_neq in E.
    destruct (get_pattern_by_id_from ps id) as [p|].
    + destruct IH. split; [right; assumption|assumption].
    + cbn [map In]. tauto.
Qed.

Lemma get_pattern_by_id_from_found (ps : list Pattern) (p : Pattern) :
  NoDup (map pattern_id ps) -> In p ps ->
  get_pattern_by_id_from ps (pattern_id p) = Some p.
Proof.
  induction ps as [|q ps IH]; [intros _ []|].
  cbn [map]. intros Hnd Hin. inversion Hnd as [|? ? Hq Hps]; subst.
  cbn [get_pattern_by_id_from].
  destruct Hin as [->|Hin].
  - rewrite str_eqb_refl. reflexivity.
  - destruct (str_eqb (pattern_id q) (pattern_id p)) eqn:E.
    + apply str_eqb_eq in E. exfalso. apply Hq. rewrite E.
      apply in_map, Hin.
    + apply IH; assumption.
Qed.

(** X12 ([Grammar.get_pattern_by_id], [Grammar.validate]): in a grammar
    that was constructed, the look-up by id finds every pattern under its
    own id, and it answers [None] exactly for the ids no pattern has. *)
Theorem get_pattern_by_id_finds_every_pattern (ps : list Pattern)
    (h : str) (ns : dict) (t : str) (g : Grammar) :
  new_Grammar ps h ns t = Ok g ->
  (forall p, In p (patterns g) -> get_pattern_by_id g (pattern_id p) = Some p) /\
  (forall id, get_pattern_by_id g id = None <->
              ~ In id (map pattern_id (patterns g))).
Proof.
  intros H. unfold new_Grammar, Grammar_validate in H. cbn [patterns ontology_hash] in H.
  destruct ps as [|p0 ps]; [discriminate|].
  destruct (str_eqb h []); [discriminate|].
  destruct (length (map pattern_id (p0 :: ps))
            =? length (nodup str_eq_dec (map pattern_id (p0 :: ps)))) eqn:E;
    [|discriminate].
  cbn [negb bind] in H. injection H as <-. cbn [patterns].
  apply Nat.eqb_eq in E. symmetry in E. apply nodup_length_NoDup in E.
  split.
  - intros p Hp. apply get_pattern_by_id_from_found; assumption.
  - intros id. unfold get_pattern_by_id. cbn [patterns].
    pose proof (get_pattern_by_id_from_spec (p0 :: ps) id) as Hs.
    destruct (get_pattern_by_id_from (p0 :: ps) id) as [p|].
    + destruct Hs as [Hin <-]. split; [discriminate|].
      intros Hn. exfalso. apply Hn. apply in_map, Hin.
    + tauto.
Qed.

Lemma get_pattern_by_id_finds_every_pattern_witness :
  get_pattern_by_id sample_grammar "test_002" = Some pattern2.
Proof.
  assert (H : new_Grammar [pattern1; pattern2; pattern3] "test_hash"
                [("kb", "http://example.org/kb#")] "2025-08-06T12:00:00"
              = Ok sample_grammar) by reflexivity.
  apply (proj1 (get_pattern_by_id_finds_every_pattern _ _ _ _ H) pattern2).
  right. left. reflexivity.
Defined.

Lemma validate_sparql_dec (s : str) :
  validate_sparql s = false -> ~ structurally_valid s.
Proof. intros H Hs. apply validate_sparql_iff in Hs. congruence. Qed.

Lemma build_query_by_validation (ns : dict) (m : MatchResult)
    (named : option (list str)) (default : option str) :
  build_query ns m named default
  = let text := built_text ns m named default in
    if validate_sparql text then
      Ok {| query_text := text; variables := _extract_variables text;
            estimated_complexity := _estimate_complexity text;
            optimization_applied := false |}
    else
      Err (SPARQLError
             ("Invalid SPARQL generated: " ++ firstn 100 text ++ "...") None).
Proof.
  cbn zeta.
  destruct (build_query_outcome ns m named default) as [[Hv ->]|[Hv ->]].
  - apply validate_sparql_iff in Hv. rewrite Hv. reflexivity.
  - destruct (validate_sparql _) eqn:E; [|reflexivity].
    apply validate_sparql_iff in E. contradiction.
Qed.

(** The responses of [process_query], by the matches and the validation
    of the text built for the best one. *)
Lemma process_query_cases (self : QueryService) (clock : Q * Q)
    (request : QueryRequest) :
  let r := process_query self clock request in
  exists ms,
    find_matches service_threshold (input_text request) (grammar self) = Ok ms /\
    match ms with
    | [] =>
        r = no_match_response clock (input_text request)
              (suggest_corrections (input_text request) (grammar self))
    | best :: _ =>
        let text := best_text self request best in
        if validate_sparql text then
          success r = true /\
          response_sparql_query r
          = (if show_sparql request || debug request
             then Some (limited request text) else None) /\
          (debug_info r <> None <-> debug request = true) /\
          error_message r = None /\ suggestions r = None /\ results r = None
        else r = refused_response clock text
    end.
Proof.
  cbn zeta. unfold process_query. rewrite find_matches_spec.
  eexists. split; [reflexivity|]. cbn [bind].
  destruct (sort_desc _) as [|best rest]; [reflexivity|].
  rewrite build_query_by_validation. cbn zeta. fold (best_text self request best).
  destruct (validate_sparql (best_text self request best)); cbn [bind];
    [|reflexivity].
  cbn [success response_sparql_query debug_info error_message suggestions
       results query_text].
  split; [reflexivity|]. split; [reflexivity|].
  split; [|auto].
  destruct (debug request); split; congruence.
Qed.

(** X13 ([process_query]): the three responses.  [process_query] never
    raises.  Without a match it answers with the suggestions; with a match
    it looks at the best result only: when the text built for it passes
    [validate_sparql] the response is a success, without an error message
    and without suggestions, that carries the text (with the limit of the
    request) only if [show_sparql] or [debug] is set, and the debug
    information only if [debug] is set; when the text is refused the
    response is a failure that names the first 100 characters of the
    text, and the other results are not tried. *)
Theorem process_query_responses (self : QueryService) (clock : Q * Q)
    (request : QueryRequest) :
  let r := process_query self clock request in
  exists ms,
    find_matches service_threshold (input_text request) (grammar self) = Ok ms /\
    match ms with
    | [] =>
        r = no_match_response clock (input_text request)
              (suggest_corrections (input_text request) (grammar self))
    | best :: _ =>
        let text := best_text self request best in
        if validate_sparql text then
          success r = true /\
          response_sparql_query r
          = (if show_sparql request || debug request
             then Some (limited request text) else None) /\
          (debug_info r <> None <-> debug request = true) /\
          error_message r = None /\ suggestions r = None /\ results r = None
        else r = refused_response clock text
    end.
Proof. apply process_query_cases. Qed.

(** X14 ([process_query], [QueryRequest], [add_limit]): a request that was
    constructed with a limit has a positive limit, and the text of a
    successful response to it, when the text is shown, is the built text
    up to its last closing brace (without a LIMIT clause of its own and
    without white space at its end) followed by the line LIMIT n. *)
Theorem process_query_applies_the_limit (self : QueryService) (clock : Q * Q)
    (text : str) (prof : option str) (dbg show : bool) (n : Z)
    (named : option (list str)) (default : option str)
    (request : QueryRequest) :
  new_QueryRequest text prof dbg show (Some n) named default = Ok request ->
  success (process_query self clock request) = true ->
  show || dbg = true ->
  (0 < n)%Z /\
  exists best rest,
    find_matches service_threshold text (grammar self) = Ok (best :: rest) /\
    response_sparql_query (process_query self clock request)
    = Some (up_to_last_brace
              (rstrip (re_sub re_limit [] (best_text self request best)))
            ++ [nl] ++ "LIMIT " ++ str_of_Z n).
Proof.
  intros Hreq Hs Hshow. unfold new_QueryRequest in Hreq.
  destruct (str_eqb (strip text) []); [discriminate|].
  destruct (n <=? 0)%Z eqn:Hn; [discriminate|].
  injection Hreq as <-. apply Z.leb_gt in Hn. split; [exact Hn|].
  destruct (process_query_cases self clock
              {| input_text := text; profile := prof; debug := dbg;
                 show_sparql := show; limit := Some n;
                 named_graphs := named; default_graph := default |})
    as (ms & Hms & H).
  cbn [input_text] in *.
  destruct ms as [|best rest].
  - rewrite H in Hs. discriminate.
  - exists best, rest. split; [exact Hms|]. cbn zeta in H.
    destruct (validate_sparql _).
    + destruct H as (_ & -> & _). cbn [show_sparql debug]. rewrite Hshow.
      unfold limited. cbn [limit].
      replace (n =? 0)%Z with false by (symmetry; apply Z.eqb_neq; lia).
      rewrite add_limit_unfold. reflexivity.
    + rewrite H in Hs. discriminate.
Qed.

Lemma process_query_applies_the_limit_witness :
  (0 < 5)%Z /\
  exists best rest,
    find_matches service_threshold "meetings with John Smith"
      (grammar sample_service) = Ok (best :: rest) /\
    response_sparql_query (process_query sample_service (0, 1)%Q limited_request)
    = Some (up_to_last_brace
              (rstrip (re_sub re_limit []
                         (best_text sample_service limited_request best)))
            ++ [nl] ++ "LIMIT " ++ str_of_Z 5).
Proof.
  apply (@process_query_applies_the_limit sample_service (0, 1)%Q
           "meetings with John Smith" None false true 5%Z None None
           limited_request).
  - reflexivity.
  - vm_compute. reflexivity.
  - reflexivity.
Defined.

Example process_query_with_a_limit :
  response_sparql_query (process_query sample_service (0, 1)%Q limited_request)
  = Some ("PREFIX kb: <http://example.org/kb#>" ++ [nl]
          ++ "SELECT ?meeting WHERE { ?meeting kb:hasAttendee ?person }"
          ++ [nl] ++ "LIMIT 5").
Proof. vm_compute. reflexivity. Qed.

Lemma split_ws_from_words : forall s cur,
  forallb (fun c => negb (isspace c)) cur = true ->
  Forall (fun w => forallb (fun c => negb (isspace c)) w = true)
         (split_ws_from cur s).
Proof.
  induction s as [|c s IH]; intros cur Hcur; cbn [split_ws_from].
  - destruct cur; repeat constructor. exact Hcur.
  - destruct (isspace c) eqn:E.
    + destruct cur as [|c0 cur]; [apply IH; reflexivity|].
      constructor; [exact Hcur|apply IH; reflexivity].
    + apply IH. rewrite forallb_app, Hcur. cbn. rewrite E. reflexivity.
Qed.

Lemma lower_char_space (c : ascii) : isspace (lower_char c) = isspace c.
Proof. destruct c as [[] [] [] [] [] [] [] []]; reflexivity. Qed.

Lemma lower_no_space (w : str) :
  forallb (fun c => negb (isspace c)) w = true ->
  forallb (fun c => negb (isspace c)) (lower w) = true.
Proof.
  induction w as [|c w IH]; [reflexivity|]. cbn [lower map forallb].
  rewrite lower_char_space. intros H. apply andb_true_iff in H.
  destruct H as [-> H]. apply IH, H.
Qed.

(** X15 ([Pattern._extract_keywords]): every keyword of a pattern is
    longer than two characters and is no stop word; it holds no white
    space and no capital letter. *)
Theorem extract_keywords_invariants (template : str) :
  Forall (fun k =>
            2 < length k /\ ~ In k stop_words /\
            forallb (fun c => negb (isspace c) && negb (isupper c)) k = true)
         (_extract_keywords template).
Proof.
  unfold _extract_keywords. apply Forall_forall. intros k Hk.
  apply filter_In in Hk. destruct Hk as [Hk Hf].
  apply andb_true_iff in Hf. destruct Hf as [Hlen Hstop].
  apply Nat.ltb_lt in Hlen. split; [exact Hlen|]. split.
  - intros Hin. apply mem_In in Hin. rewrite Hin in Hstop. discriminate.
  - apply in_map_iff in Hk. destruct Hk as (w & <- & Hw).
    apply filter_In in Hw. destruct Hw as [Hw _].
    pose proof (split_ws_from_words (re_sub re_placeholder [] template) []
                  eq_refl) as Hall.
    pose proof (proj1 (Forall_forall _ _) Hall w Hw) as Hws.
    apply forallb_and.
    + apply (infix_forallb _ (strip_infix (lower w))).
      apply lower_no_space, Hws.
    + apply (infix_forallb _ (strip_infix (lower w))).
      apply lower_no_capital.
Qed.

Lemma re_escape_app (a b : str) : re_escape (a ++ b) = re_escape a ++ re_escape b.
Proof. apply flat_map_app. Qed.

Lemma re_escape_cons (c : ascii) (s : str) :
  re_escape (c :: s)
  = (if re_special c then [backslash; c] else [c]) ++ re_escape s.
Proof. reflexivity. Qed.

Lemma special_facts (c : ascii) :
  re_special c = true -> ceqb "'" c = false /\ isalnum c = false.
Proof.
  destruct c as [[] [] [] [] [] [] [] []]; vm_compute; intros; split; congruence.
Qed.

Lemma plain_facts (c : ascii) :
  re_special c = false ->
  ceqb "(" c = false /\ ceqb c backslash = false /\ ceqb backslash c = false /\
  ceqb c "^" = false /\ ceqb c "$" = false /\ re_meta c = false /\
  ceqb c "?" = false.
Proof.
  destruct c as [[] [] [] [] [] [] [] []]; vm_compute; intros;
    repeat split; congruence.
Qed.

Lemma rmatch_chr_step (c : ascii) (its : list item) (b : bool) (s : str) :
  rmatch (chr (just c) :: its) b (c :: s) = rmatch its false s.
Proof.
  cbn [rmatch chr quantified]. unfold just at 1.
  replace (ceqb c c) with true by (symmetry; apply ceqb_eq; reflexivity).
  destruct (rmatch its false s) as [[r gs]|]; reflexivity.
Qed.

Lemma rmatch_chr_other (c x : ascii) (its : list item) (b : bool) (s : str) :
  x <> c -> rmatch (chr (just c) :: its) b (x :: s) = None.
Proof.
  intros H. destruct (rmatch _ b (x :: s)) as [[r gs]|] eqn:E; [|reflexivity].
  apply rmatch_chr in E. destruct E as (b' & s' & E & _). congruence.
Qed.

Lemma rmatch_plus_cons (p : cls) (cap : bool) (its : list item) (b : bool)
    (c : ascii) (s : str) :
  rmatch (Cls p Plus cap :: its) b (c :: s)
  = if p c then
      greedy p (fun g b' s' =>
                  match rmatch its b' s' with
                  | Some (r, gs) => Some (r, if cap then g :: gs else gs)
                  | None => None
                  end) [c] false s
    else None.
Proof. reflexivity. Qed.

Lemma greedy_backtrack_one (p : cls) (k : str -> bool -> str -> mres)
    (r : str * list str) : forall g acc b c d s,
  forallb p g = true -> p c = true -> p d = false ->
  k (acc ++ g ++ [c]) false (d :: s) = None ->
  k (acc ++ g) (match g with [] => b | _ => false end) (c :: d :: s) = Some r ->
  greedy p k acc b (g ++ c :: d :: s) = Some r.
Proof.
  induction g as [|x g IH]; intros acc b c d s Hg Hc Hd Hnone Hsome.
  - cbn [app greedy]. rewrite Hc. cbn [greedy]. rewrite Hd.
    cbn [app] in Hnone. rewrite Hnone. rewrite app_nil_r in Hsome. exact Hsome.
  - cbn [forallb] in Hg. apply andb_true_iff in Hg. destruct Hg as [Hx Hg].
    cbn [app greedy]. rewrite Hx.
    rewrite (IH (acc ++ [x]) false c d s Hg Hc Hd); [reflexivity| |].
    + rewrite <- app_assoc. exact Hnone.
    + rewrite <- app_assoc. cbn [app]. destruct g; exact Hsome.
Qed.

Lemma sub_pieces_gaps (repl x : str) (ps : list piece) :
  sub_pieces repl (map Gap x ++ ps) = x ++ sub_pieces repl ps.
Proof. induction x as [|c x IH]; [reflexivity|]. cbn. rewrite IH. reflexivity. Qed.

Lemma hits_gaps (x : str) (ps : list piece) : hits (map Gap x ++ ps) = hits ps.
Proof. induction x as [|c x IH]; [reflexivity|]. exact IH. Qed.

Lemma pieces_skip_all (its : list item) (m : str) :
  pieces its false (length m) m = [].
Proof. rewrite <- (app_nil_r m) at 2. apply pieces_skip. Qed.

Lemma pieces_whole_match (its : list item) (b : bool) (s : str)
    (gs : list str) :
  s <> [] -> rmatch its b s = Some ([], gs) -> pieces its b 0 s = [Hit s gs].
Proof.
  intros Hs H. destruct s as [|c s]; [congruence|].
  rewrite pieces_cons, H. cbn [length Nat.sub].
  rewrite pieces_skip_all. f_equal. f_equal.
  rewrite <- (app_nil_r (c :: s)) at 1. apply consumed_app.
Qed.

(** ** The placeholder in the escaped template *)

Lemma pieces_escaped_literal (lit rest : str) :
  plain_literal lit = true ->
  forall b, exists b',
    pieces re_escaped_placeholder b 0 (re_escape lit ++ rest)
    = map Gap (re_escape lit)
      ++ pieces re_escaped_placeholder b' 0 rest.
Proof.
  induction lit as [|c lit IH]; intros Hl b.
  - exists b. reflexivity.
  - cbn [plain_literal forallb] in Hl. apply andb_true_iff in Hl.
    destruct Hl as [Hc Hl]. apply andb_true_iff in Hc. destruct Hc as [Hc1 Hc2].
    apply negb_true_iff in Hc1, Hc2.
    destruct (IH Hl false) as (b' & E). exists b'.
    rewrite re_escape_cons. destruct (re_special c) eqn:Es.
    + cbn [app]. rewrite pieces_cons.
      assert (H1 : rmatch re_escaped_placeholder b
                     (backslash :: c :: re_escape lit ++ rest) = None).
      { unfold re_escaped_placeholder. rewrite rmatch_chr_step.
        apply rmatch_chr_other. intros ->.
        rewrite (proj2 (ceqb_eq _ _) eq_refl) in Hc1. discriminate. }
      rewrite H1, pieces_cons.
      assert (H2 : rmatch re_escaped_placeholder false
                     (c :: re_escape lit ++ rest) = None).
      { apply rmatch_chr_other. intros ->.
        rewrite (proj2 (ceqb_eq _ _) eq_refl) in Hc2. discriminate. }
      rewrite H2, E. reflexivity.
    + cbn [app]. rewrite pieces_cons, rmatch_escaped_placeholder_plain, E;
        [reflexivity|exact Es].
Qed.

Lemma re_escape_no_brace (name : str) :
  no_brace name = true -> no_brace (re_escape name) = true.
Proof.
  induction name as [|c name IH]; [reflexivity|].
  cbn [no_brace forallb]. intros H. apply andb_true_iff in H.
  destruct H as [Hc H]. rewrite re_escape_cons.
  unfold no_brace in *. rewrite forallb_app, (IH H), andb_true_r.
  destruct (re_special c); cbn; rewrite Hc; reflexivity.
Qed.

Lemma re_escape_not_nil (name : str) : name <> [] -> re_escape name <> [].
Proof.
  destruct name as [|c name]; [congruence|]. intros _.
  rewrite re_escape_cons. destruct (re_special c); discriminate.
Qed.

Lemma rmatch_escaped_placeholder_match (b : bool) (name : str) :
  name <> [] -> no_brace name = true ->
  rmatch re_escaped_placeholder b
    (backslash :: "{"%char :: re_escape name ++ [backslash; "}"%char])
  = Some ([], [re_escape name]).
Proof.
  intros Hn Hb. apply re_escape_not_nil in Hn. apply re_escape_no_brace in Hb.
  destruct (re_escape name) as [|e en]; [congruence|].
  cbn [no_brace forallb] in Hb. apply andb_true_iff in Hb. destruct Hb as [He Hen].
  unfold re_escaped_placeholder. rewrite !rmatch_chr_step.
  cbn [app]. rewrite rmatch_plus_cons. unfold other_than at 1. rewrite He.
  apply greedy_backtrack_one.
  - exact Hen.
  - reflexivity.
  - reflexivity.
  - cbn beta. rewrite rmatch_chr_other; [reflexivity|discriminate].
  - cbn beta. rewrite !rmatch_chr_step. cbn [rmatch]. destruct en; reflexivity.
Qed.

Lemma sub_escaped_template (lit name : str) :
  plain_literal lit = true -> name <> [] -> no_brace name = true ->
  re_sub re_escaped_placeholder "(.+?)" (re_escape (lit ++ "{" ++ name ++ "}"))
  = re_escape lit ++ "(.+?)".
Proof.
  intros Hl Hn Hb. unfold re_sub.
  rewrite re_escape_app.
  replace (re_escape ("{" ++ name ++ "}"))
    with (backslash :: "{"%char :: re_escape name ++ [backslash; "}"%char])
    by (cbn [app]; rewrite re_escape_cons, re_escape_app; reflexivity).
  destruct (@pieces_escaped_literal lit
              (backslash :: "{"%char :: re_escape name ++ [backslash; "}"%char])
              Hl true) as (b' & ->).
  rewrite sub_pieces_gaps.
  rewrite (@pieces_whole_match _ _ _ [re_escape name]);
    [reflexivity|discriminate|].
  apply rmatch_escaped_placeholder_match; assumption.
Qed.

(** ** The possessive replacement leaves a plain literal alone *)

Lemma replace_escaped_literal (lit rest : str) :
  plain_literal lit = true ->
  replace_from "\'s" "'?s?" 0 (re_escape lit ++ rest)
  = re_escape lit ++ replace_from "\'s" "'?s?" 0 rest.
Proof.
  induction lit as [|c lit IH]; intros Hl; [reflexivity|].
  cbn [plain_literal forallb] in Hl. apply andb_true_iff in Hl.
  destruct Hl as [Hc Hl]. apply andb_true_iff in Hc. destruct Hc as [_ Hc2].
  apply negb_true_iff in Hc2.
  assert (Hc' : ceqb backslash c = false).
  { destruct (ceqb backslash c) eqn:E; [|reflexivity].
    apply ceqb_eq in E. subst c.
    rewrite (proj2 (ceqb_eq _ _) eq_refl) in Hc2. discriminate. }
  rewrite re_escape_cons. destruct (re_special c) eqn:Es.
  - cbn [app]. rewrite replace_from_cons.
    replace (startswith "\'s" (backslash :: c :: re_escape lit ++ rest))
      with false.
    + rewrite (@replace_keeps c _ Hc'), (IH Hl). reflexivity.
    + cbn [startswith]. rewrite (proj1 (special_facts _ Es)).
      rewrite andb_false_r. reflexivity.
  - cbn [app]. rewrite (@replace_keeps c _ Hc'), (IH Hl). reflexivity.
Qed.

Lemma template_to_regex_literal (lit name : str) :
  plain_literal lit = true -> name <> [] -> no_brace name = true ->
  _template_to_regex (lit ++ "{" ++ name ++ "}")
  = "^" ++ re_escape lit ++ "(.+?)" ++ "$".
Proof.
  intros Hl Hn Hb. unfold _template_to_regex.
  rewrite (@sub_escaped_template lit name Hl Hn Hb). unfold replace.
  rewrite (@replace_escaped_literal lit _ Hl).
  rewrite <- app_assoc. reflexivity.
Qed.

(** ** The compiled pattern of a literal and a placeholder *)

Lemma re_escape_head (lit rest : str) :
  match rest with q :: _ => ceqb q "?" = false | [] => True end ->
  match re_escape lit ++ rest with q :: _ => ceqb q "?" = false | [] => True end.
Proof.
  intros H. destruct lit as [|c lit]; [exact H|].
  rewrite re_escape_cons. destruct (re_special c) eqn:Es; cbn [app].
  - reflexivity.
  - apply plain_facts, Es.
Qed.

Lemma re_compile_escaped (rest : str) (its : list item) :
  re_compile rest = Some its ->
  match rest with q :: _ => ceqb q "?" = false | [] => True end ->
  forall lit, re_compile (re_escape lit ++ rest) = Some (word_ci lit ++ its).
Proof.
  intros Hrest Hq. induction lit as [|c lit IH]; [exact Hrest|].
  pose proof (@re_escape_head lit rest Hq) as Hhead.
  rewrite re_escape_cons. destruct (re_special c) eqn:Es; cbn [app].
  - rewrite re_compile_cons.
    replace (startswith "(.+?)" (backslash :: c :: re_escape lit ++ rest))
      with false by reflexivity.
    replace (ceqb backslash backslash) with true by reflexivity.
    rewrite (proj2 (special_facts _ Es)).
    destruct (re_escape lit ++ rest) as [|q p3] eqn:E.
    + cbn in IH. injection IH as IH. cbn [word_ci map app].
      fold (word_ci lit). rewrite <- IH. reflexivity.
    + rewrite Hhead, IH. reflexivity.
  - destruct (plain_facts _ Es) as (H1 & H2 & _ & H3 & H4 & H5 & _).
    rewrite re_compile_cons.
    replace (startswith "(.+?)" (c :: re_escape lit ++ rest)) with false
      by (cbn [startswith]; rewrite H1; reflexivity).
    rewrite H2, H3, H4, H5.
    destruct (re_escape lit ++ rest) as [|q p3] eqn:E.
    + cbn in IH. injection IH as IH. cbn [word_ci map app].
      fold (word_ci lit). rewrite <- IH. reflexivity.
    + rewrite Hhead, IH. reflexivity.
Qed.

Lemma rmatch_word_ci (its : list item) (v : str) : forall lit text_lit b,
  lower text_lit = lower lit ->
  rmatch (word_ci lit ++ its) b (text_lit ++ v)
  = rmatch its (match lit with [] => b | _ => false end) v.
Proof.
  induction lit as [|c lit IH]; intros [|x tl] b E; try discriminate.
  - reflexivity.
  - cbn [lower map] in E. injection E as Ex E.
    cbn [word_ci map app]. rewrite rmatch_ci_step.
    + fold (word_ci lit). rewrite (IH tl false E). destruct lit; reflexivity.
    + unfold ci. apply ceqb_eq. exact Ex.
Qed.

(** ** The name of the placeholder *)

Lemma pieces_plain_literal (lit rest : str) :
  plain_literal lit = true ->
  forall b, exists b',
    pieces re_placeholder_name b 0 (lit ++ rest)
    = map Gap lit ++ pieces re_placeholder_name b' 0 rest.
Proof.
  induction lit as [|c lit IH]; intros Hl b.
  - exists b. reflexivity.
  - cbn [plain_literal forallb] in Hl. apply andb_true_iff in Hl.
    destruct Hl as [Hc Hl]. apply andb_true_iff in Hc. destruct Hc as [Hc _].
    apply negb_true_iff in Hc.
    destruct (IH Hl false) as (b' & E). exists b'.
    cbn [app map]. rewrite pieces_cons.
    replace (rmatch re_placeholder_name b (c :: lit ++ rest)) with (@None (str * list str)).
    + rewrite E. reflexivity.
    + symmetry. apply rmatch_chr_other. intros ->.
      rewrite (proj2 (ceqb_eq _ _) eq_refl) in Hc. discriminate.
Qed.

Lemma split_on_nonempty (c : ascii) (s : str) : split_on c s <> [].
Proof.
  destruct s as [|a s]; [discriminate|]. rewrite split_on_cons.
  destruct (ceqb a c); discriminate.
Qed.

Lemma split_on_sep (c : ascii) (a rest : str) :
  split_on c (a ++ c :: rest) = split_on c a ++ split_on c rest.
Proof.
  induction a as [|x a IH].
  - cbn [app]. rewrite split_on_cons.
    rewrite (proj2 (ceqb_eq c c) eq_refl). reflexivity.
  - cbn [app]. rewrite !split_on_cons, IH.
    destruct (ceqb x c); [reflexivity|].
    pose proof (split_on_nonempty c a) as Hne.
    destruct (split_on c a) as [|p ps]; [congruence|]. reflexivity.
Qed.

Lemma split_on_free (c : ascii) (s : str) :
  free_of [c] s = true -> split_on c s = [s].
Proof.
  induction s as [|a s IH]; [reflexivity|].
  cbn [free_of forallb char_in existsb]. rewrite orb_false_r.
  intros H. apply andb_true_iff in H. destruct H as [Ha H].
  rewrite split_on_cons, (IH H). apply negb_true_iff in Ha. rewrite Ha.
  reflexivity.
Qed.

Lemma last_app_nonempty (A : Type) (l1 l2 : list A) (d : A) :
  l2 <> [] -> last (l1 ++ l2) d = last l2 d.
Proof.
  intros H. induction l1 as [|x l1 IH]; [reflexivity|].
  cbn [app]. destruct (l1 ++ l2) eqn:E.
  - apply app_eq_nil in E. destruct E. congruence.
  - rewrite <- E in *. cbn [last]. rewrite E. rewrite <- E. exact IH.
Qed.

Lemma last_part_local (c : ascii) (a local : str) :
  free_of [c] local = true -> last_part c (a ++ c :: local) = local.
Proof.
  intros H. unfold last_part.
  rewrite split_on_sep, (split_on_free _ _ H).
  rewrite last_app_nonempty; [reflexivity|discriminate].
Qed.

Lemma free_of_contains (c : ascii) (s : str) :
  free_of [c] s = true -> contains [c] s = false.
Proof.
  induction s as [|a s IH]; [reflexivity|].
  cbn [free_of forallb char_in existsb]. rewrite orb_false_r.
  intros H. apply andb_true_iff in H. destruct H as [Ha H].
  cbn [contains startswith]. rewrite (IH H), andb_true_r, orb_false_r.
  apply negb_true_iff in Ha. destruct (ceqb c a) eqn:E; [|reflexivity].
  apply ceqb_eq in E. subst a.
  rewrite (proj2 (ceqb_eq c c) eq_refl) in Ha. discriminate.
Qed.

Lemma free_of_weaken (c : ascii) (chars s : str) :
  In c chars -> free_of chars s = true -> free_of [c] s = true.
Proof.
  intros Hin H. unfold free_of in *.
  eapply forallb_impl; [|exact H]. intros x Hx. cbn beta in *.
  apply negb_true_iff in Hx. apply negb_true_iff.
  cbn [char_in existsb]. rewrite orb_false_r.
  destruct (ceqb x c) eqn:E; [|reflexivity].
  apply ceqb_eq in E. subst x.
  unfold char_in in Hx.
  assert (Ht : existsb (ceqb c) chars = true).
  { apply existsb_exists. exists c. split; [exact Hin|].
    apply ceqb_eq. reflexivity. }
  congruence.
Qed.

Lemma contains_sep (c : ascii) (a rest : str) :
  contains [c] (a ++ c :: rest) = true.
Proof. apply contains_infix. exists a, rest. reflexivity. Qed.

(** The local name the two functions take from a name with a separator. *)
Lemma local_name_of (sep : ascii) (earlier ns local : str) :
  In (sep, earlier) [("#"%char, []); ("/"%char, "#"); (":"%char, "#/")] ->
  free_of earlier (ns ++ sep :: local) = true ->
  free_of [sep] local = true ->
  (if contains "#" (ns ++ sep :: local)
   then last_part "#" (ns ++ sep :: local)
   else if contains "/" (ns ++ sep :: local)
        then last_part "/" (ns ++ sep :: local)
        else if contains ":" (ns ++ sep :: local)
             then last_part ":" (ns ++ sep :: local)
             else ns ++ sep :: local)
  = local.
Proof.
  intros Hin Hfree Hlocal. cbn [In] in Hin.
  destruct Hin as [E|[E|[E|[]]]]; injection E as <- <-.
  - rewrite contains_sep. apply last_part_local, Hlocal.
  - rewrite (@free_of_contains "#" _ Hfree), contains_sep.
    apply last_part_local, Hlocal.
  - rewrite (@free_of_contains "#" (ns ++ ":"%char :: local)),
      (@free_of_contains "/" (ns ++ ":"%char :: local)), contains_sep.
    + apply last_part_local, Hlocal.
    + apply (@free_of_weaken "/" "#/"); [cbn; tauto|exact Hfree].
    + apply (@free_of_weaken "#" "#/"); [cbn; tauto|exact Hfree].
Qed.

Lemma lower_skipn (n : nat) (s : str) : lower (skipn n s) = skipn n (lower s).
Proof. unfold lower. symmetry. apply skipn_map. Qed.

(** X17 ([_simplify_class_name], [_extract_base_name]): of a name that is
    a namespace, a separator and a local name, the class name is the
    local name and the base name is the local name in lower case without
    a prefix has or is.  The separator is the number sign, or the slash
    in a name without a number sign, or the colon in a name without
    either, and the local name does not hold it. *)
Theorem local_name_round_trip (sep : ascii) (earlier ns local : str) :
  In (sep, earlier) [("#"%char, []); ("/"%char, "#"); (":"%char, "#/")] ->
  free_of earlier (ns ++ sep :: local) = true ->
  free_of [sep] local = true ->
  _simplify_class_name (Some (ns ++ sep :: local)) = local /\
  _extract_base_name (ns ++ sep :: local) = base_of local.
Proof.
  intros Hin Hfree Hlocal.
  pose proof (local_name_of ns local Hin Hfree Hlocal) as H.
  split.
  - unfold _simplify_class_name.
    destruct (ns ++ sep :: local) as [|x s] eqn:E; [|exact H].
    destruct ns; discriminate.
  - unfold _extract_base_name, base_of. rewrite H, !lower_skipn. reflexivity.
Qed.

Lemma local_name_round_trip_witness :
  _simplify_class_name (Some ("http://xmlns.com/foaf/0.1" ++ "/"%char :: "Person"))
  = "Person" /\
  _extract_base_name ("http://example.org/kb" ++ "#"%char :: "hasAttendee")
  = "attendee".
Proof.
  split.
  - apply (@local_name_round_trip "/" "#" "http://xmlns.com/foaf/0.1" "Person");
      [cbn; tauto|reflexivity|reflexivity].
  - apply (@local_name_round_trip "#" [] "http://example.org/kb" "hasAttendee");
      [cbn; tauto|reflexivity|reflexivity].
Defined.

Example extract_base_name_tests :
  _extract_base_name "kb:hasAttendee" = "attendee" /\
  _extract_base_name "kb:assignedTo" = "assignedto" /\
  _extract_base_name "kb:isPartOf" = "partof" /\
  _extract_base_name "kb:belongsTo" = "belongsto" /\
  _extract_base_name "http://example.org/kb#hasTag" = "tag" /\
  _extract_base_name "kb:island" = "land" /\
  _simplify_class_name None = "entity" /\
  _simplify_class_name (Some "http://example.org/kb#") = [].
Proof. repeat split; reflexivity. Qed.

(** ** The numbers of the patterns *)

Lemma format_03d_decode (n : nat) :
  option_map Z.of_uint
    (NilEmpty.uint_of_string (String.string_of_list_ascii (format_03d n)))
  = Some (Z.of_nat n).
Proof.
  unfold format_03d.
  assert (H : option_map Z.of_uint
                (NilEmpty.uint_of_string
                   (String.string_of_list_ascii (str_of_Z (Z.of_nat n))))
              = Some (Z.of_nat n)).
  { unfold str_of_Z. rewrite String.string_of_list_ascii_of_string.
    pose proof (DecimalZ.of_to (Z.of_nat n)) as Hz.
    destruct (Z.to_int (Z.of_nat n)) as [u|u] eqn:E.
    - cbn [NilEmpty.string_of_int]. rewrite NilEmpty.usu. cbn. f_equal. exact Hz.
    - exfalso. destruct (Z.of_nat n) eqn:En; cbn in E; try discriminate.
      pose proof (Nat2Z.is_nonneg n). lia. }
  generalize dependent (str_of_Z (Z.of_nat n)). intros s H.
  induction (3 - length s) as [|k IH]; [exact H|].
  cbn [repeat app String.string_of_list_ascii NilEmpty.uint_of_string].
  destruct (NilEmpty.uint_of_string
              (String.string_of_list_ascii (repeat "0"%char k ++ s)))
    as [u|]; [|discriminate].
  exact IH.
Qed.

Lemma format_03d_inj (n m : nat) : format_03d n = format_03d m -> n = m.
Proof.
  intros H. pose proof (format_03d_decode n) as Hn.
  rewrite H, format_03d_decode in Hn. injection Hn as Hn. lia.
Qed.

Lemma numbered_id_inj (n m : nat) : numbered_id n = numbered_id m -> n = m.
Proof.
  unfold numbered_id. intros H. apply app_inv_head in H.
  apply format_03d_inj, H.
Qed.

Lemma add_ids_numbers : forall ps c ps' c',
  add_ids ps c = (ps', c') ->
  c <= c' /\
  map pattern_id (numbered ps') = map numbered_id (seq c (c' - c)) /\
  Forall2 (fun p q => p = q \/ p = set_id q (pattern_id p)) ps' ps.
Proof.
  induction ps as [|p ps IH]; intros c ps' c' H; cbn [add_ids] in H.
  - injection H as <- <-. rewrite Nat.sub_diag. repeat split; auto.
  - destruct (str_eqb (pattern_id p) [] || startswith "pattern_" (pattern_id p))
      eqn:E.
    + destruct (add_ids ps (c + 1)) as [rest c1] eqn:Er.
      injection H as <- <-. destruct (IH _ _ _ Er) as (Hle & Hids & Hall).
      split; [lia|]. split.
      * unfold numbered in *. cbn [filter set_id pattern_id].
        pose proof (startswith_prefix "pattern_" (format_03d c)) as Hs.
        cbn [app] in Hs. rewrite Hs. cbn [map pattern_id]. rewrite Hids.
        replace (c1 - c) with (S (c1 - (c + 1))) by lia.
        cbn [seq map]. rewrite Nat.add_1_r. reflexivity.
      * constructor; [right; reflexivity|exact Hall].
    + destruct (add_ids ps c) as [rest c1] eqn:Er.
      injection H as <- <-. destruct (IH _ _ _ Er) as (Hle & Hids & Hall).
      split; [exact Hle|]. split.
      * unfold numbered in *. cbn [filter].
        apply orb_false_iff in E. destruct E as [_ E]. rewrite E. exact Hids.
      * constructor; [left; reflexivity|exact Hall].
Qed.

Lemma numbered_app (a b : list Pattern) : numbered (a ++ b) = numbered a ++ numbered b.
Proof. apply filter_app. Qed.

Lemma NoDup_map_injective (A B : Type) (f : A -> B) (l : list A) :
  (forall x y, In x l -> In y l -> f x = f y -> x = y) ->
  NoDup l -> NoDup (map f l).
Proof.
  intros Hf H. induction H as [|x l Hx Hl IH]; [constructor|].
  cbn [map]. constructor.
  - intros Hin. apply in_map_iff in Hin. destruct Hin as (y & Hy & Hin).
    apply Hf in Hy; [|right; exact Hin|left; reflexivity]. congruence.
  - apply IH. intros a b Ha Hb. apply Hf; right; assumption.
Qed.

Lemma Forall2_sources (A B : Type) (R : A -> B -> Prop) (l' : list A)
    (l : list B) :
  Forall2 R l' l -> Forall (fun p => exists q, In q l /\ R p q) l'.
Proof.
  induction 1 as [|p q l' l Hpq _ IH]; constructor.
  - exists q. split; [left; reflexivity|exact Hpq].
  - eapply Forall_impl; [|exact IH].
    intros x (y & Hy & Hxy). exists y. split; [right; exact Hy|exact Hxy].
Qed.

Lemma generate_patterns_from_numbers (PropInfo : Type)
    (gen : PropInfo -> outcome (list Pattern)) : forall props acc c,
  map pattern_id (numbered acc) = map numbered_id (seq 0 c) ->
  match generate_patterns_from gen props acc c with
  | Ok ps =>
      Forall (fun info => exists l, gen info = Ok l) props /\
      exists c' new,
        ps = acc ++ new /\
        map pattern_id (numbered ps) = map numbered_id (seq 0 c') /\
        Forall (generated gen props) new
  | Err e =>
      exists before info after,
        props = before ++ info :: after /\
        Forall (fun info => exists l, gen info = Ok l) before /\
        gen info = Err e
  end.
Proof.
  induction props as [|info props IH]; intros acc c Hacc.
  - cbn [generate_patterns_from]. split; [constructor|]. exists c, [].
    rewrite app_nil_r. repeat split; auto.
  - cbn [generate_patterns_from].
    destruct (gen info) as [l|e] eqn:Eg; cbn [bind].
    2:{ exists [], info, props. repeat split; [constructor|exact Eg]. }
    destruct (add_ids l c) as [l' c1] eqn:Ea.
    destruct (add_ids_numbers _ _ Ea) as (Hle & Hids & Hall).
    assert (Hacc' : map pattern_id (numbered (acc ++ l'))
                    = map numbered_id (seq 0 c1)).
    { rewrite numbered_app, map_app, Hacc, Hids, <- map_app.
      f_equal. change (seq c (c1 - c)) with (seq (0 + c) (c1 - c)).
      rewrite <- seq_app. f_equal. lia. }
    specialize (IH (acc ++ l') c1 Hacc').
    destruct (generate_patterns_from gen props (acc ++ l') c1) as [ps|e].
    + destruct IH as (Hok & c' & new & -> & Hn & Hnew).
      split; [constructor; [exists l; exact Eg|exact Hok]|].
      exists c', (l' ++ new). rewrite app_assoc.
      split; [reflexivity|]. split; [exact Hn|].
      apply Forall_app. split.
      * eapply Forall_impl; [|exact (Forall2_sources Hall)].
        intros x (y & Hy & Hxy). exists info, l, y.
        split; [left; reflexivity|]. auto.
      * eapply Forall_impl; [|exact Hnew].
        intros x (i & l0 & q & Hi & Hg & Hq & Hx).
        exists i, l0, q. split; [right; exact Hi|]. auto.
    + destruct IH as (before & i & after & -> & Hb & Hg).
      exists (info :: before), i, after.
      split; [reflexivity|]. split; [|exact Hg].
      constructor; [exists l; exact Eg|exact Hb].
Qed.

(** X18 ([generate_patterns]): the numbers.  The generation fails exactly
    when the generation for a property fails, and then with the error of
    the first property that fails: the properties before it were all
    done, and what they gave is lost.  When no property fails, every
    pattern of the result is one that was generated for a property, with
    its own id or with a new one, and the ids that begin with pattern_ are
    pattern_000, pattern_001 and so on in the order of the result, without
    a gap and without a duplicate. *)
Theorem generate_patterns_numbers (PropInfo : Type)
    (gen : PropInfo -> outcome (list Pattern)) (props : list PropInfo) :
  match generate_patterns gen props with
  | Ok ps =>
      Forall (fun info => exists l, gen info = Ok l) props /\
      map pattern_id (numbered ps)
      = map numbered_id (seq 0 (length (numbered ps))) /\
      NoDup (map pattern_id (numbered ps)) /\
      Forall (generated gen props) ps
  | Err e =>
      exists before info after,
        props = before ++ info :: after /\
        Forall (fun info => exists l, gen info = Ok l) before /\
        gen info = Err e
  end.
Proof.
  unfold generate_patterns.
  pose proof (@generate_patterns_from_numbers _ gen props [] 0 eq_refl) as H.
  destruct (generate_patterns_from gen props [] 0) as [ps|e]; [|exact H].
  destruct H as (Hok & c' & new & -> & Hn & Hnew). cbn [app] in *.
  assert (Hlen : length (numbered new) = c').
  { rewrite <- (length_map pattern_id), Hn, length_map, length_seq.
    reflexivity. }
  rewrite Hlen. split; [exact Hok|]. split; [exact Hn|]. split; [|exact Hnew].
  rewrite Hn. apply NoDup_map_injective; [|apply seq_NoDup].
  intros n m _ _. apply numbered_id_inj.
Qed.

(** ** The positional extraction for a literal and a placeholder *)

Lemma pieces_placeholder_literal (lit rest : str) :
  plain_literal lit = true ->
  forall b, exists b',
    pieces re_placeholder b 0 (lit ++ rest)
    = map Gap lit ++ pieces re_placeholder b' 0 rest.
Proof.
  induction lit as [|c lit IH]; intros Hl b.
  - exists b. reflexivity.
  - cbn [plain_literal forallb] in Hl. apply andb_true_iff in Hl.
    destruct Hl as [Hc Hl]. apply andb_true_iff in Hc. destruct Hc as [Hc _].
    apply negb_true_iff in Hc.
    destruct (IH Hl false) as (b' & E). exists b'.
    cbn [app map]. rewrite pieces_cons.
    replace (rmatch re_placeholder b (c :: lit ++ rest))
      with (@None (str * list str)).
    + rewrite E. reflexivity.
    + symmetry. apply rmatch_chr_other. intros ->.
      rewrite (proj2 (ceqb_eq _ _) eq_refl) in Hc. discriminate.
Qed.

Lemma split_pieces_gaps (x : str) (ps : list piece) : forall cur,
  split_pieces cur (map Gap x ++ ps) = split_pieces (cur ++ x) ps.
Proof.
  induction x as [|c x IH]; intros cur.
  - rewrite app_nil_r. reflexivity.
  - cbn [map app split_pieces]. rewrite IH, <- app_assoc. reflexivity.
Qed.

Lemma split_template_literal (lit name : str) :
  plain_literal lit = true -> name <> [] -> no_brace name = true ->
  re_split re_placeholder (lit ++ "{" ++ name ++ "}")
  = [lit; "{" ++ name ++ "}"; []].
Proof.
  intros Hl Hn Hb. unfold re_split.
  destruct (@pieces_placeholder_literal lit ("{" ++ name ++ "}") Hl true)
    as (b' & ->).
  rewrite split_pieces_gaps.
  rewrite (@pieces_whole_match _ _ _ []); [reflexivity|discriminate|].
  rewrite <- (app_nil_r ("{" ++ name ++ "}")), <- !app_assoc.
  apply rmatch_placeholder_complete; assumption.
Qed.

Lemma plain_literal_is_no_placeholder (lit : str) :
  plain_literal lit = true -> is_placeholder_part lit = false.
Proof.
  intros Hl. unfold is_placeholder_part. destruct lit as [|c lit]; [reflexivity|].
  cbn [plain_literal forallb] in Hl. apply andb_true_iff in Hl.
  destruct Hl as [Hc _]. apply andb_true_iff in Hc. destruct Hc as [Hc _].
  apply negb_true_iff in Hc. cbn [startswith].
  assert (E : ceqb "{" c = false).
  { destruct (ceqb "{" c) eqn:E; [|reflexivity].
    apply ceqb_eq in E. subst c. discriminate. }
  rewrite E. reflexivity.
Qed.

Lemma placeholder_part (name : str) :
  is_placeholder_part ("{" ++ name ++ "}") = true /\
  inner ("{" ++ name ++ "}") = name.
Proof.
  split.
  - unfold is_placeholder_part, endswith. cbn [app startswith rev].
    rewrite rev_app_distr. reflexivity.
  - unfold inner. cbn [app tl]. apply removelast_last.
Qed.

Lemma rmatch_group_first (b : bool) (c : ascii) (rest : str) :
  c <> nl ->
  rmatch [Cls dot LazyPlus true] b (c :: rest) = Some (rest, [[c]]).
Proof.
  intros Hc. cbn [rmatch quantified]. unfold dot at 1, other_than.
  replace (ceqb c nl) with false.
  - cbn [negb]. destruct rest; reflexivity.
  - symmetry. destruct (ceqb c nl) eqn:E; [|reflexivity].
    apply ceqb_eq in E. contradiction.
Qed.

Lemma search_from_here (its : list item) (b : bool) (pre s rest : str)
    (gs : list str) :
  rmatch its b s = Some (rest, gs) ->
  search_from its b pre s = Some (Found pre (consumed s rest) rest gs).
Proof. intros H. destruct s; cbn [search_from]; rewrite H; reflexivity. Qed.

Lemma positional_extraction_literal (p : Pattern)
    (lit name text_lit : str) (c : ascii) (rest : str) :
  template p = lit ++ "{" ++ name ++ "}" ->
  plain_literal lit = true ->
  name <> [] -> no_brace name = true ->
  lower text_lit = lower lit ->
  c <> nl ->
  _extract_entities_positional (text_lit ++ c :: rest) p
  = Ok [(name, strip [c])].
Proof.
  intros Ht Hl Hn Hb Hlow Hc. unfold _extract_entities_positional.
  rewrite Ht, (@split_template_literal lit name Hl Hn Hb).
  cbn [flat_map].
  rewrite (@plain_literal_is_no_placeholder lit Hl).
  destruct (placeholder_part name) as [-> ->].
  replace (is_placeholder_part []) with false by reflexivity.
  cbn [app].
  match goal with
  | |- context [search_text ?r _] =>
      replace r with (re_escape lit ++ "(.+?)")
        by (destruct lit; cbn [concat app]; rewrite ?app_nil_r; reflexivity)
  end.
  unfold search_text.
  rewrite (@re_compile_escaped "(.+?)" [Cls dot LazyPlus true]);
    [|reflexivity|reflexivity].
  unfold re_search.
  rewrite (@search_from_here _ true [] _ rest [[c]]).
  - reflexivity.
  - rewrite (@rmatch_word_ci _ (c :: rest) lit text_lit true Hlow).
    apply rmatch_group_first, Hc.
Qed.

(** X19 ([_extract_entities_positional]): for a template that is a
    literal text and one placeholder at its end, the positional
    extraction on a text that begins with the literal keeps one character
    of the value only: the pattern it searches for ends in the group
    (.+?) without an anchor after it, and the group stops as soon as it
    can. *)
Theorem positional_extraction_keeps_one_character (p : Pattern)
    (lit name text_lit : str) (c : ascii) (rest : str) :
  template p = lit ++ "{" ++ name ++ "}" ->
  plain_literal lit = true ->
  name <> [] -> no_brace name = true ->
  lower text_lit = lower lit ->
  c <> nl ->
  _extract_entities_positional (text_lit ++ c :: rest) p
  = Ok [(name, strip [c])].
Proof. apply positional_extraction_literal. Qed.

Lemma positional_extraction_keeps_one_character_witness :
  _extract_entities_positional ("meetings with " ++ "J"%char :: "ohn Smith")
    pattern1
  = Ok [("person", strip "J")].
Proof.
  apply (@positional_extraction_keeps_one_character pattern1
           "meetings with " "person" "meetings with " "J" "ohn Smith");
    solve [reflexivity | discriminate].
Defined.

Lemma reluctant_blocked (k : str -> bool -> str -> mres) (b : str) :
  (forall g b' s, k g b' s = if at_end s then Some (s, [g]) else None) ->
  b <> [] ->
  forall a acc b0,
    one_line a = true -> reluctant dot k acc b0 (a ++ nl :: b) = None.
Proof.
  intros Hk Hb. induction a as [|x a IH]; intros acc b0 H.
  - cbn [app reluctant]. rewrite Hk.
    assert (Hend : at_end (nl :: b) = false).
    { unfold at_end. cbn [str_eqb orb]. destruct b; [congruence|].
      rewrite andb_false_r. reflexivity. }
    rewrite Hend. reflexivity.
  - cbn [one_line forallb] in H. apply andb_true_iff in H. destruct H as [Hx H].
    cbn [app reluctant]. rewrite Hk.
    assert (Hend : at_end (x :: a ++ nl :: b) = false).
    { unfold at_end. cbn [str_eqb orb]. apply negb_true_iff in Hx.
      rewrite Hx. reflexivity. }
    rewrite Hend. unfold dot at 1, other_than. rewrite Hx. cbn [negb].
    apply IH, H.
Qed.

Lemma rmatch_group_blocked (b0 : bool) (v b : str) :
  v <> [] -> one_line v = true -> b <> [] ->
  rmatch [Cls dot LazyPlus true; Eol] b0 (v ++ nl :: b) = None.
Proof.
  intros Hv H Hb. destruct v as [|c v]; [congruence|].
  cbn [one_line forallb] in H. apply andb_true_iff in H. destruct H as [Hc H].
  cbn [app rmatch quantified]. unfold dot at 1, other_than. rewrite Hc.
  cbn [negb]. apply (@reluctant_blocked _ b); [|exact Hb|exact H].
  intros g b' s. destruct (at_end s); reflexivity.
Qed.

Lemma match_text_two_lines (lit name text_lit v b : str) :
  plain_literal lit = true -> name <> [] -> no_brace name = true ->
  lower text_lit = lower lit ->
  v <> [] -> one_line v = true -> b <> [] ->
  match_text (_template_to_regex (lit ++ "{" ++ name ++ "}"))
             (text_lit ++ v ++ nl :: b)
  = Ok None.
Proof.
  intros Hl Hn Hb Hlow Hv Hone Hb'.
  rewrite (@template_to_regex_literal lit name Hl Hn Hb).
  unfold match_text. rewrite re_compile_bol.
  rewrite (@re_compile_escaped ("(.+?)" ++ "$") [Cls dot LazyPlus true; Eol]);
    [|reflexivity|reflexivity].
  cbn [option_map]. unfold re_match. cbn [rmatch].
  rewrite (@rmatch_word_ci _ (v ++ nl :: b) lit text_lit true Hlow).
  rewrite (@rmatch_group_blocked _ v b Hv Hone Hb'). reflexivity.
Qed.

(** X20 ([extract_entities], [_try_fuzzy_match]): a value of two lines.
    When the text is the literal of such a template and a value that goes
    on after a line feed, the pattern of the template does not match (the
    dot matches no line feed), and both [extract_entities] and the fuzzy
    match fall back on the positional extraction: the entity is the first
    character of the value. *)
Theorem value_of_two_lines_keeps_one_character (p : Pattern)
    (lit name text_lit : str) (c : ascii) (a b : str) :
  template p = lit ++ "{" ++ name ++ "}" ->
  plain_literal lit = true ->
  name <> [] -> no_brace name = true ->
  lower text_lit = lower lit ->
  one_line (c :: a) = true -> b <> [] ->
  let text := text_lit ++ (c :: a) ++ nl :: b in
  _try_exact_match text p = Ok None /\
  extract_entities text p = Ok [(name, strip [c])] /\
  _extract_entities_fuzzy text p = Ok [(name, strip [c])].
Proof.
  intros Ht Hl Hn Hb Hlow Hone Hb' text.
  assert (Hc : c <> nl).
  { cbn [one_line forallb] in Hone. apply andb_true_iff in Hone.
    destruct Hone as [Hc _]. intros ->. discriminate. }
  assert (Hm : match_text (_template_to_regex (template p)) text = Ok None).
  { rewrite Ht. apply match_text_two_lines; try assumption. discriminate. }
  assert (Hpos : _extract_entities_positional text p = Ok [(name, strip [c])]).
  { apply (@positional_extraction_literal p lit name text_lit c (a ++ nl :: b));
      assumption. }
  split; [|split].
  - destruct (try_exact_match_spec text p) as (m & Hm' & ->).
    rewrite Hm in Hm'. injection Hm' as <-. reflexivity.
  - unfold extract_entities. rewrite Hm. cbn [bind]. exact Hpos.
  - unfold _extract_entities_fuzzy. rewrite Hpos. reflexivity.
Qed.

Lemma value_of_two_lines_keeps_one_character_witness :
  let text := "meetings with " ++ ("J"%char :: "ohn") ++ nl :: "Smith" in
  _try_exact_match text pattern1 = Ok None /\
  extract_entities text pattern1 = Ok [("person", strip "J")] /\
  _extract_entities_fuzzy text pattern1 = Ok [("person", strip "J")].
Proof.
  apply (@value_of_two_lines_keeps_one_character pattern1
           "meetings with " "person" "meetings with " "J" "ohn" "Smith");
    solve [reflexivity | discriminate].
Defined.

Example find_matches_value_of_two_lines :
  exists q,
    find_matches (f64 0.7) ("meetings with John" ++ [nl] ++ "Smith") sample_grammar
    = Ok [ {| pattern := pattern1; confidence := q;
              entities := [("person", "J")]; match_type := "fuzzy" |} ] /\
    (q == 1)%Q.
Proof. eexists. split; [vm_compute; reflexivity|reflexivity]. Qed.


(** ** A placeholder between two literals *)

Lemma pieces_hit (its : list item) (b : bool) (m rest : str) (gs : list str) :
  m <> [] -> rmatch its b (m ++ rest) = Some (rest, gs) ->
  pieces its b 0 (m ++ rest) = Hit m gs :: pieces its false 0 rest.
Proof.
  intros Hm H. destruct m as [|c m]; [congruence|].
  cbn [app] in *. rewrite pieces_cons, H.
  replace (length (c :: m ++ rest) - length rest) with (S (length m))
    by (cbn [length]; rewrite length_app; lia).
  change (c :: m ++ rest) with ((c :: m) ++ rest).
  rewrite consumed_app, pieces_skip. reflexivity.
Qed.

Lemma pieces_escaped_literal_end (lit : str) (b : bool) :
  plain_literal lit = true ->
  pieces re_escaped_placeholder b 0 (re_escape lit) = map Gap (re_escape lit).
Proof.
  intros Hl. destruct (@pieces_escaped_literal lit [] Hl b) as (b' & E).
  rewrite app_nil_r in E. rewrite E.
  destruct (re_escape lit); cbn [pieces]; apply app_nil_r.
Qed.

Lemma rmatch_escaped_placeholder_post (b : bool) (name post : str) :
  name <> [] -> no_brace name = true ->
  rmatch re_escaped_placeholder b
    ((backslash :: "{"%char :: re_escape name ++ [backslash; "}"%char]) ++ post)
  = Some (post, [re_escape name]).
Proof.
  intros Hn Hb. apply re_escape_not_nil in Hn. apply re_escape_no_brace in Hb.
  destruct (re_escape name) as [|e en]; [congruence|].
  cbn [no_brace forallb] in Hb. apply andb_true_iff in Hb. destruct Hb as [He Hen].
  unfold re_escaped_placeholder. cbn [app]. rewrite !rmatch_chr_step.
  rewrite rmatch_plus_cons. unfold other_than at 1. rewrite He.
  rewrite <- app_assoc. cbn [app].
  apply greedy_backtrack_one.
  - exact Hen.
  - reflexivity.
  - reflexivity.
  - cbn beta. rewrite rmatch_chr_other; [reflexivity|discriminate].
  - cbn beta. rewrite !rmatch_chr_step. cbn [rmatch]. destruct en; reflexivity.
Qed.

Lemma sub_escaped_template_between (lit1 name lit2 : str) :
  plain_literal lit1 = true -> plain_literal lit2 = true ->
  name <> [] -> no_brace name = true ->
  re_sub re_escaped_placeholder "(.+?)"
    (re_escape (lit1 ++ "{" ++ name ++ "}" ++ lit2))
  = re_escape lit1 ++ "(.+?)" ++ re_escape lit2.
Proof.
  intros Hl1 Hl2 Hn Hb. unfold re_sub.
  rewrite re_escape_app.
  replace (re_escape ("{" ++ name ++ "}" ++ lit2))
    with ((backslash :: "{"%char :: re_escape name ++ [backslash; "}"%char])
          ++ re_escape lit2).
  2:{ cbn [app]. rewrite re_escape_cons, !re_escape_app.
      cbn [app]. rewrite <- app_assoc. reflexivity. }
  destruct (@pieces_escaped_literal lit1
              ((backslash :: "{"%char :: re_escape name ++ [backslash; "}"%char])
               ++ re_escape lit2) Hl1 true) as (b' & ->).
  rewrite sub_pieces_gaps.
  rewrite (@pieces_hit _ b' _ (re_escape lit2) [re_escape name]);
    [|discriminate|apply rmatch_escaped_placeholder_post; assumption].
  cbn [sub_pieces]. rewrite (@pieces_escaped_literal_end lit2 false Hl2).
  rewrite <- (app_nil_r (map Gap (re_escape lit2))), sub_pieces_gaps.
  cbn [sub_pieces]. rewrite app_nil_r. reflexivity.
Qed.

Lemma template_to_regex_between (lit1 name lit2 : str) :
  plain_literal lit1 = true -> plain_literal lit2 = true ->
  name <> [] -> no_brace name = true ->
  _template_to_regex (lit1 ++ "{" ++ name ++ "}" ++ lit2)
  = "^" ++ re_escape lit1 ++ "(.+?)" ++ re_escape lit2 ++ "$".
Proof.
  intros Hl1 Hl2 Hn Hb. unfold _template_to_regex.
  rewrite (@sub_escaped_template_between lit1 name lit2 Hl1 Hl2 Hn Hb).
  unfold replace. rewrite (@replace_escaped_literal lit1 _ Hl1).
  cbn [app]. rewrite !replace_keeps by reflexivity.
  rewrite <- (app_nil_r (re_escape lit2)) at 1.
  rewrite (@replace_escaped_literal lit2 [] Hl2).
  cbn [replace_from]. rewrite app_nil_r, <- !app_assoc. reflexivity.
Qed.

Lemma rmatch_literal_end (lit : str) : forall s b r gs,
  rmatch (word_ci lit ++ [Eol]) b s = Some (r, gs) ->
  exists tl rest, s = tl ++ rest /\ length tl = length lit /\ at_end rest = true.
Proof.
  induction lit as [|c lit IH]; intros s b r gs H.
  - cbn [word_ci map app rmatch] in H.
    destruct (at_end s) eqn:E; [|discriminate].
    exists [], s. auto.
  - cbn [word_ci map app] in H. fold (word_ci lit) in H.
    apply rmatch_ci in H. destruct H as (x & b' & s' & -> & _ & H).
    apply IH in H. destruct H as (tl & rest & -> & Hlen & Hend).
    exists (x :: tl), rest. cbn [length app]. auto.
Qed.

Lemma lower_length (a b : str) : lower a = lower b -> length a = length b.
Proof.
  intros H. apply (f_equal (@length ascii)) in H.
  unfold lower in H. rewrite !length_map in H. exact H.
Qed.

Lemma rmatch_literal_end_late (lit text_lit : str) (b : bool) (x : ascii)
    (h : str) :
  lower text_lit = lower lit -> one_line (x :: h ++ text_lit) = true ->
  rmatch (word_ci lit ++ [Eol]) b (x :: h ++ text_lit) = None.
Proof.
  intros Hlow Hone.
  destruct (rmatch _ b (x :: h ++ text_lit)) as [[r gs]|] eqn:E;
    [exfalso|reflexivity].
  apply rmatch_literal_end in E. destruct E as (tl & rest & E & Hlen & Hend).
  apply lower_length in Hlow.
  assert (Hrest : rest <> []).
  { intros ->. apply (f_equal (@length ascii)) in E.
    rewrite app_nil_r in E. cbn [length] in E. rewrite length_app in E. lia. }
  apply at_end_cases in Hend. destruct Hend as [->| ->]; [congruence|].
  rewrite E in Hone. unfold one_line in Hone.
  rewrite forallb_app in Hone. apply andb_true_iff in Hone.
  destruct Hone as [_ Hone]. discriminate.
Qed.

Lemma reluctant_until (k : str -> bool -> str -> mres) (t : str)
    (r : str * list str) : forall h acc b,
  one_line h = true ->
  (forall h1 x h2 b', h = h1 ++ x :: h2 ->
                      k (acc ++ h1) b' (x :: h2 ++ t) = None) ->
  (forall b', k (acc ++ h) b' t = Some r) ->
  reluctant dot k acc b (h ++ t) = Some r.
Proof.
  induction h as [|x h IH]; intros acc b Hone Hnone Hsome.
  - cbn [app]. rewrite app_nil_r in Hsome.
    destruct t; cbn [reluctant]; rewrite Hsome; reflexivity.
  - cbn [one_line forallb] in Hone. apply andb_true_iff in Hone.
    destruct Hone as [Hx Hone].
    cbn [app reluctant].
    pose proof (Hnone [] x h b eq_refl) as H0. rewrite app_nil_r in H0.
    rewrite H0. unfold dot at 1, other_than. rewrite Hx.
    apply IH.
    + exact Hone.
    + intros h1 y h2 b' E. rewrite <- app_assoc.
      apply (Hnone (x :: h1) y h2 b'). rewrite E. reflexivity.
    + intros b'. rewrite <- app_assoc. apply Hsome.
Qed.

Lemma rmatch_group_between (lit2 text2 value : str) (b : bool) :
  lower text2 = lower lit2 -> value <> [] ->
  one_line (value ++ text2) = true ->
  rmatch (Cls dot LazyPlus true :: word_ci lit2 ++ [Eol]) b (value ++ text2)
  = Some ([], [value]).
Proof.
  intros Hlow Hv Hone. destruct value as [|c v]; [congruence|].
  assert (Hone' := Hone).
  cbn [app one_line forallb] in Hone. apply andb_true_iff in Hone.
  destruct Hone as [Hc Hone].
  unfold one_line in Hone. rewrite forallb_app in Hone.
  apply andb_true_iff in Hone. destruct Hone as [Hv1 Ht1].
  cbn [app rmatch quantified]. unfold dot at 1, other_than. rewrite Hc.
  apply reluctant_until.
  - exact Hv1.
  - intros h1 x h2 b' E. cbn beta.
    rewrite (@rmatch_literal_end_late lit2 text2 b' x h2 Hlow); [reflexivity|].
    rewrite E, forallb_app in Hv1. apply andb_true_iff in Hv1.
    destruct Hv1 as [_ Hv1]. cbn [forallb] in Hv1.
    apply andb_true_iff in Hv1. destruct Hv1 as [Hx Hh2].
    unfold one_line. cbn [forallb]. rewrite forallb_app, Hx, Hh2, Ht1.
    reflexivity.
  - intros b'. cbn beta.
    rewrite <- (app_nil_r text2).
    rewrite (@rmatch_word_ci [Eol] [] lit2 text2 b' Hlow). reflexivity.
Qed.

Lemma match_text_between (lit1 name lit2 text1 value text2 : str) :
  plain_literal lit1 = true -> plain_literal lit2 = true ->
  name <> [] -> no_brace name = true ->
  lower text1 = lower lit1 -> lower text2 = lower lit2 ->
  value <> [] -> one_line (value ++ text2) = true ->
  match_text (_template_to_regex (lit1 ++ "{" ++ name ++ "}" ++ lit2))
             (text1 ++ value ++ text2)
  = Ok (Some [value]).
Proof.
  intros Hl1 Hl2 Hn Hb Hlow1 Hlow2 Hv Hone.
  rewrite (@template_to_regex_between lit1 name lit2 Hl1 Hl2 Hn Hb).
  unfold match_text. rewrite re_compile_bol.
  rewrite (@re_compile_escaped ("(.+?)" ++ re_escape lit2 ++ "$")
             (Cls dot LazyPlus true :: word_ci lit2 ++ [Eol])).
  - cbn [option_map]. unfold re_match. cbn [rmatch].
    rewrite (@rmatch_word_ci _ (value ++ text2) lit1 text1 true Hlow1).
    rewrite (@rmatch_group_between lit2 text2 value _ Hlow2 Hv Hone).
    reflexivity.
  - rewrite re_compile_group.
    rewrite (@re_compile_escaped "$" [Eol]); reflexivity.
  - reflexivity.
Qed.

Lemma rmatch_placeholder_name_post (b : bool) (name post : str) :
  name <> [] -> no_brace name = true ->
  rmatch re_placeholder_name b (("{" ++ name ++ "}") ++ post)
  = Some (post, [name]).
Proof.
  intros Hne Hnb. destruct name as [|c name]; [contradiction|].
  cbn [no_brace forallb] in Hnb. apply andb_true_iff in Hnb.
  destruct Hnb as [Hc Hnb].
  unfold re_placeholder_name. cbn [app]. rewrite rmatch_chr_step.
  rewrite rmatch_plus_cons. unfold other_than at 1. rewrite Hc.
  rewrite <- app_assoc. cbn [app].
  apply greedy_longest; [exact Hnb|reflexivity|].
  rewrite rmatch_chr_step. cbn [rmatch app]. destruct name; reflexivity.
Qed.

Lemma placeholders_between (lit1 name lit2 : str) :
  plain_literal lit1 = true -> plain_literal lit2 = true ->
  name <> [] -> no_brace name = true ->
  placeholders (lit1 ++ "{" ++ name ++ "}" ++ lit2) = [name].
Proof.
  intros Hl1 Hl2 Hn Hb. unfold placeholders, re_findall1.
  replace (lit1 ++ "{" ++ name ++ "}" ++ lit2)
    with (lit1 ++ ("{" ++ name ++ "}") ++ lit2)
    by (rewrite <- !app_assoc; reflexivity).
  destruct (@pieces_plain_literal lit1 (("{" ++ name ++ "}") ++ lit2) Hl1 true)
    as (b' & ->).
  rewrite hits_gaps.
  rewrite (@pieces_hit _ b' _ lit2 [name]);
    [|discriminate|apply rmatch_placeholder_name_post; assumption].
  cbn [hits map hd snd].
  destruct (@pieces_plain_literal lit2 [] Hl2 false) as (b2 & E).
  rewrite app_nil_r in E. rewrite E.
  rewrite hits_gaps. destruct lit2; reflexivity.
Qed.

(** X16 ([_template_to_regex], [_try_exact_match],
    [_extract_entities_from_match]): a template that is one placeholder
    between two literal texts (either may be empty) matches every text
    that is the first literal, a value and the second literal, the
    literals in any case, when the value and what follows it are one
    line; the value, trimmed, is the entity of the placeholder.  The
    literals hold no opening brace and no backslash. *)
Theorem exact_match_round_trip (thr : Q) (p : Pattern)
    (lit1 name lit2 text1 value text2 : str) :
  template p = lit1 ++ "{" ++ name ++ "}" ++ lit2 ->
  plain_literal lit1 = true -> plain_literal lit2 = true ->
  name <> [] -> no_brace name = true ->
  lower text1 = lower lit1 -> lower text2 = lower lit2 ->
  value <> [] -> one_line (value ++ text2) = true ->
  _match_pattern thr (text1 ++ value ++ text2) p
  = Ok (Some {| pattern := p; confidence := 1.0;
                entities := [(name, strip value)];
                match_type := "exact" |}).
Proof.
  intros Ht Hl1 Hl2 Hn Hb Hlow1 Hlow2 Hv Hone.
  rewrite (@match_pattern_exact thr (text1 ++ value ++ text2) p [value]).
  - unfold exact_result. rewrite Ht.
    rewrite (@placeholders_between lit1 name lit2 Hl1 Hl2 Hn Hb). reflexivity.
  - rewrite Ht. apply match_text_between; assumption.
Qed.

Lemma exact_match_round_trip_witness :
  _match_pattern (f64 0.7) ([] ++ " Sarah Connor" ++ "'S Meetings") pattern2
  = Ok (Some {| pattern := pattern2; confidence := 1.0;
                entities := [("person", strip " Sarah Connor")];
                match_type := "exact" |}).
Proof.
  apply (@exact_match_round_trip (f64 0.7) pattern2 [] "person" "'s meetings"
           [] " Sarah Connor" "'S Meetings");
    solve [reflexivity | discriminate].
Defined.


Lemma upper_lower_char (c : ascii) : upper_char (lower_char c) = upper_char c.
Proof. destruct c as [[] [] [] [] [] [] [] []]; reflexivity. Qed.

Lemma upper_lower (s : str) : upper (lower s) = upper s.
Proof.
  induction s as [|c s IH]; [reflexivity|].
  unfold lower, upper in *. cbn [map]. rewrite upper_lower_char, IH.
  reflexivity.
Qed.

Lemma where_match_needs (s : str) (f : found) :
  re_search re_where s = Some f ->
  contains "WHERE" (upper s) = true /\ no_brace s = false.
Proof.
  intros H. apply where_match_shape in H.
  destruct H as (keyword & spaces & body & E & Hk & _ & _ & _).
  split.
  - apply contains_infix. exists (upper (before f)). eexists.
    rewrite E, !upper_app, <- (upper_lower keyword), Hk.
    reflexivity.
  - rewrite E, !no_brace_app. cbn [no_brace forallb].
    replace (ceqb "}" "}") with true by reflexivity.
    cbn [negb andb]. rewrite !andb_false_r. reflexivity.
Qed.

(** X21 ([build_query], [_add_graph_clauses]): the graphs of a request
    are dropped without a word when the query has no WHERE clause to put
    them in: for a text without the word WHERE (an ASK query may have
    none and passes the validation), or without a closing brace,
    [build_query] gives what it gives without graphs. *)
Theorem build_query_drops_graphs_without_where (ns : dict) (m : MatchResult)
    (named : option (list str)) (default : option str) :
  contains "WHERE" (upper (prefixed_text ns m)) = false \/
  no_brace (prefixed_text ns m) = true ->
  built_text ns m named default = prefixed_text ns m /\
  build_query ns m named default = build_query ns m None None.
Proof.
  intros H.
  assert (Ht : built_text ns m named default = prefixed_text ns m).
  { unfold built_text.
    destruct (graphs_to_query named default) as [|g gs] eqn:Eg; [reflexivity|].
    unfold _add_graph_clauses. rewrite Eg.
    destruct (re_search re_where (prefixed_text ns m)) as [f|] eqn:Es;
      [|reflexivity].
    apply where_match_needs in Es. destruct Es as [Hw Hb].
    destruct H as [H|H]; congruence. }
  split; [exact Ht|].
  unfold build_query. rewrite Ht. reflexivity.
Qed.

Lemma build_query_drops_graphs_without_where_witness :
  built_text [] ask_match two_graphs None = prefixed_text [] ask_match /\
  build_query [] ask_match two_graphs None = build_query [] ask_match None None.
Proof.
  apply (@build_query_drops_graphs_without_where [] ask_match two_graphs None).
  left. reflexivity.
Defined.

Example ask_query_without_graphs :
  build_query [] ask_match two_graphs None
  = Ok {| query_text := "ASK { ?s foaf:name ?person }"; variables := [];
          estimated_complexity := 1; optimization_applied := false |}.
Proof. reflexivity. Qed.


Lemma ljust_length (w : nat) (s : str) :
  length s <= w -> length (ljust w s) = w.
Proof.
  intros H. unfold ljust. rewrite length_app, repeat_length. lia.
Qed.

Lemma fold_max_ge (A : Type) (f : A -> nat) (l : list A) : forall init,
  init <= fold_left (fun w x => Nat.max w (f x)) l init /\
  forall x, In x l -> f x <= fold_left (fun w x => Nat.max w (f x)) l init.
Proof.
  induction l as [|a l IH]; intros init; cbn [fold_left].
  - split; [lia|intros x []].
  - destruct (IH (Nat.max init (f a))) as [H1 H2]. split; [lia|].
    intros x [->|Hx]; [lia|auto].
Qed.

Lemma col_widths_length (rows : list (list str)) (headers : list str) :
  forall i, length (col_widths_from rows i headers) = length headers.
Proof.
  induction headers as [|h hs IH]; intros i; [reflexivity|].
  cbn [col_widths_from length]. rewrite IH. reflexivity.
Qed.

Lemma col_widths_headers (rows : list (list str)) (headers : list str) :
  forall i, Forall2 (fun c w => length c <= w) headers
                    (col_widths_from rows i headers).
Proof.
  induction headers as [|h hs IH]; intros i; [constructor|].
  cbn [col_widths_from]. constructor; [|apply IH].
  unfold col_width.
  apply (fold_max_ge (fun row => length (nth i row [])) rows (length h)).
Qed.

Lemma skipn_cons_nth (A : Type) (d : A) : forall (l : list A) i c rest,
  skipn i l = c :: rest -> nth i l d = c /\ skipn (S i) l = rest.
Proof.
  induction l as [|x l IH]; intros i c rest H.
  - destruct i; discriminate.
  - destruct i as [|i].
    + cbn in H. injection H as -> ->. split; reflexivity.
    + cbn [skipn] in H. apply IH in H. exact H.
Qed.

Lemma col_widths_row (rows : list (list str)) (row : list str) :
  In row rows ->
  forall headers i cells,
    skipn i row = cells -> length cells = length headers ->
    Forall2 (fun c w => length c <= w) cells (col_widths_from rows i headers).
Proof.
  intros Hrow. induction headers as [|h hs IH]; intros i cells Hc Hlen.
  - destruct cells; [constructor|discriminate].
  - destruct cells as [|c cells]; [discriminate|].
    destruct (skipn_cons_nth [] _ _ Hc) as [Hn Hs].
    cbn [col_widths_from]. constructor.
    + unfold col_width. rewrite <- Hn.
      apply (proj2 (fold_max_ge (fun r => length (nth i r [])) rows (length h))).
      exact Hrow.
    + apply IH; [exact Hs|]. cbn [length] in Hlen. lia.
Qed.

Lemma table_line_length (cells : list str) (col_widths : list nat) :
  Forall2 (fun c w => length c <= w) cells col_widths ->
  length (table_line cells col_widths) = length (table_separator col_widths).
Proof.
  intros H. unfold table_line, table_separator.
  rewrite !length_app. cbn [length]. f_equal. f_equal.
  change (length (join " | " (map (fun hw => ljust (snd hw) (fst hw))
                                  (combine cells col_widths)))
          = length (join "-|-" (map (fun w => repeat "-"%char w) col_widths))).
  assert (H2 : Forall2 (fun a b => length a = length b)
                 (map (fun hw => ljust (snd hw) (fst hw)) (combine cells col_widths))
                 (map (fun w => repeat "-"%char w) col_widths)).
  { induction H as [|c w cs ws Hcw _ IH]; [constructor|].
    cbn [combine map fst snd]. constructor; [|exact IH].
    rewrite (@ljust_length w c Hcw), repeat_length. reflexivity. }
  clear H. induction H2 as [|a b l1 l2 Hab Hl IH]; [reflexivity|].
  destruct Hl as [|a' b' l1' l2' Hab' Hl'].
  - cbn [join]. exact Hab.
  - change (join " | " (a :: a' :: l1'))
      with (a ++ " | " ++ join " | " (a' :: l1')).
    change (join "-|-" (b :: b' :: l2'))
      with (b ++ "-|-" ++ join "-|-" (b' :: l2')).
    rewrite !length_app, Hab, IH. reflexivity.
Qed.

(** X22 ([TableFormatter.format]): the table is straight.  All its lines,
    the separators, the line of the headers and the line of every
    binding, have one and the same length, whatever the values, the
    headers and [max_width] are. *)
Theorem table_lines_have_one_length (Value : Type) (py_str : Value -> str)
    (max_width : option Z) (first : list (str * Value))
    (others : list (list (str * Value))) :
  forall line1 line2,
    In line1 (table_lines py_str max_width first others) ->
    In line2 (table_lines py_str max_width first others) ->
    length line1 = length line2.
Proof.
  assert (H : forall line,
             In line (table_lines py_str max_width first others) ->
             length line
             = length (table_separator
                         (col_widths_from
                            (table_rows py_str max_width (first :: others)
                                        (map fst first))
                            0 (map fst first)))).
  { intros line Hin. unfold table_lines in Hin.
    cbn [app In] in Hin.
    destruct Hin as [<-|[<-|[<-|Hin]]]; [reflexivity| |reflexivity|].
    - apply table_line_length, col_widths_headers.
    - apply in_app_or in Hin. destruct Hin as [Hin|[<-|[]]]; [|reflexivity].
      apply in_map_iff in Hin. destruct Hin as (row & <- & Hrow).
      apply table_line_length.
      apply (@col_widths_row _ row Hrow); [reflexivity|].
      unfold table_rows in Hrow. apply in_map_iff in Hrow.
      destruct Hrow as (b & <- & _). apply length_map. }
  intros l1 l2 H1 H2. rewrite (H l1 H1), (H l2 H2). reflexivity.
Qed.

Lemma table_lines_have_one_length_witness :
  length ("|-------|---|" : str) = length ("| Jo... | 1 |" : str).
Proof.
  apply (@table_lines_have_one_length str (fun v : str => v) (Some 5%Z)
           [("name", "John Smith"); ("n", "1")] [[("name", "Al")]]).
  - left. reflexivity.
  - right. right. right. left. reflexivity.
Defined.

Lemma slice_to_length (k : Z) (s : str) :
  (0 <= k)%Z -> length (slice_to k s) <= Z.to_nat k.
Proof.
  intros Hk. unfold slice_to.
  replace (0 <=? k)%Z with true by (symmetry; apply Z.leb_le; exact Hk).
  apply firstn_le_length.
Qed.

Lemma table_cell_length (Value : Type) (py_str : Value -> str)
    (w : Z) (binding : list (str * Value)) (header : str) :
  (3 <= w)%Z ->
  (Z.of_nat (length (table_cell py_str (Some w) binding header)) <= w)%Z.
Proof.
  intros Hw. unfold table_cell.
  set (value := match binding_get binding header with
                | Some v => py_str v
                | None => []
                end).
  replace (w =? 0)%Z with false by (symmetry; apply Z.eqb_neq; lia).
  cbn [negb andb].
  destruct (w <? Z.of_nat (length value))%Z eqn:E.
  - rewrite length_app. cbn [length].
    pose proof (@slice_to_length (w - 3) value ltac:(lia)). lia.
  - apply Z.ltb_ge in E. exact E.
Qed.

Lemma fold_max_le (A : Type) (f : A -> nat) (bound : nat) (l : list A) :
  (forall x, In x l -> f x <= bound) ->
  forall init, init <= bound ->
  fold_left (fun w x => Nat.max w (f x)) l init <= bound.
Proof.
  induction l as [|a l IH]; intros Hl init Hi; cbn [fold_left]; [exact Hi|].
  apply IH.
  - intros x Hx. apply Hl. right. exact Hx.
  - pose proof (Hl a (or_introl eq_refl)). lia.
Qed.

Lemma col_widths_bound (rows : list (list str)) (bound : nat) :
  Forall (Forall (fun cell => length cell <= bound)) rows ->
  forall headers i,
    Forall2 (fun header width =>
               length header <= width <= Nat.max (length header) bound)
            headers (col_widths_from rows i headers).
Proof.
  intros Hrows. induction headers as [|h hs IH]; intros i; [constructor|].
  cbn [col_widths_from]. constructor; [|apply IH].
  unfold col_width. split.
  - apply (fold_max_ge (fun row => length (nth i row [])) rows (length h)).
  - apply fold_max_le; [|lia].
    intros row Hrow. rewrite Forall_forall in Hrows.
    specialize (Hrows row Hrow). rewrite Forall_forall in Hrows.
    destruct (nth_in_or_default i row []) as [Hin | ->].
    + specialize (Hrows _ Hin). lia.
    + cbn [length]. lia.
Qed.

(** X23 ([TableFormatter.format]): with a [max_width] of three or more no
    value in the rows of the bindings is wider than [max_width].  The
    headers are never cut: a column is as wide as its header at least,
    and wider than [max_width] only when its header is. *)
Theorem table_values_within_max_width (Value : Type) (py_str : Value -> str)
    (w : Z) (first : list (str * Value)) (others : list (list (str * Value))) :
  (3 <= w)%Z ->
  let headers := map fst first in
  let rows := table_rows py_str (Some w) (first :: others) headers in
  Forall (Forall (fun cell => (Z.of_nat (length cell) <= w)%Z)) rows /\
  Forall2 (fun header width =>
             length header <= width /\
             (Z.of_nat width <= Z.max (Z.of_nat (length header)) w)%Z)
          headers (col_widths_from rows 0 headers).
Proof.
  intros Hw headers rows.
  assert (Hcells : Forall (Forall (fun cell => (Z.of_nat (length cell) <= w)%Z))
                     rows).
  { unfold rows, table_rows. apply Forall_forall. intros row Hrow.
    apply in_map_iff in Hrow. destruct Hrow as (binding & <- & _).
    apply Forall_forall. intros cell Hcell.
    apply in_map_iff in Hcell. destruct Hcell as (header & <- & _).
    apply table_cell_length. exact Hw. }
  split; [exact Hcells|].
  assert (Hnat : Forall (Forall (fun cell => length cell <= Z.to_nat w)) rows).
  { eapply Forall_impl; [|exact Hcells]. intros row Hrow.
    eapply Forall_impl; [|exact Hrow]. intros cell Hcell. cbn beta in *. lia. }
  eapply Forall2_impl; [|exact (@col_widths_bound rows (Z.to_nat w) Hnat headers 0)].
  intros header width [H1 H2]. split; [exact H1|]. lia.
Qed.

Lemma table_values_within_max_width_witness :
  Forall (Forall (fun cell => (Z.of_nat (length cell) <= 5)%Z))
    (table_rows (fun v : str => v) (Some 5%Z)
       [[("name", "John Smith"); ("n", "1")]; [("name", "Al")]]
       ["name"; "n"]) /\
  Forall2 (fun header width =>
             length header <= width /\
             (Z.of_nat width <= Z.max (Z.of_nat (length header)) 5)%Z)
    ["name"; "n"]
    (col_widths_from
       (table_rows (fun v : str => v) (Some 5%Z)
          [[("name", "John Smith"); ("n", "1")]; [("name", "Al")]]
          ["name"; "n"]) 0 ["name"; "n"]).
Proof.
  apply (@table_values_within_max_width str (fun v => v) 5%Z
           [("name", "John Smith"); ("n", "1")] [[("name", "Al")]]).
  lia.
Defined.

(** A header is not cut. *)
Example table_with_a_long_header :
  table_format (fun v : str => v) (Some 3%Z) [[("description", "x")]]
  = "|-------------|" ++ [nl]
    ++ "| description |" ++ [nl]
    ++ "|-------------|" ++ [nl]
    ++ "| x           |" ++ [nl]
    ++ "|-------------|".
Proof. reflexivity. Qed.

Example table_of_two_bindings :
  table_format (fun v : str => v) (Some 5%Z)
    [[("name", "John Smith"); ("n", "1")]; [("name", "Al")]]
  = "|-------|---|" ++ [nl]
    ++ "| name  | n |" ++ [nl]
    ++ "|-------|---|" ++ [nl]
    ++ "| Jo... | 1 |" ++ [nl]
    ++ "| Al    |   |" ++ [nl]
    ++ "|-------|---|".
Proof. reflexivity. Qed.

Example table_cell_of_small_max_width :
  table_cell (fun v : str => v) (Some 1%Z) [("name", "John Smith")] "name"
  = "John Smi...".
Proof. reflexivity. Qed.


(** ** [optimize_query] twice *)

Lemma classify_lines_in_where (lines : list str) :
  classify_lines true lines
  = (filter is_filter_line lines, filter is_pattern_line lines,
     filter is_other_line lines).
Proof.
  induction lines as [|line lines IH]; [reflexivity|].
  cbn [classify_lines filter]. rewrite IH.
  unfold is_other_line, is_pattern_line, is_filter_line, is_where_line.
  destruct (contains "WHERE" (strip line)); cbn [negb andb]; [reflexivity|].
  destruct (startswith "FILTER" (strip line)); cbn [negb andb]; [reflexivity|].
  destruct (startswith "?" (strip line) || startswith "<" (strip line));
    reflexivity.
Qed.

Lemma classify_lines_before_where : forall lines,
  (existsb is_where_line lines = false /\
   classify_lines false lines = ([], [], lines))
  \/
  (exists pre w rest,
     lines = pre ++ w :: rest /\ existsb is_where_line pre = false /\
     is_where_line w = true /\
     classify_lines false lines
     = (filter is_filter_line rest, filter is_pattern_line rest,
        pre ++ w :: filter is_other_line rest)).
Proof.
  induction lines as [|line lines IH]; [left; split; reflexivity|].
  cbn [classify_lines existsb]. fold (is_where_line line).
  destruct (is_where_line line) eqn:Ew.
  - right. exists [], line, lines. rewrite classify_lines_in_where.
    repeat split; auto.
  - cbn [andb orb].
    destruct IH as [[Hn ->]|(pre & w & rest & -> & Hpre & Hw & ->)].
    + left. split; [exact Hn|reflexivity].
    + right. exists (line :: pre), w, rest. cbn [existsb app].
      rewrite Ew, Hpre. repeat split; auto.
Qed.

Lemma contains_lstrip (sub s : str) (c : ascii) :
  isspace c = false ->
  contains (c :: sub) s = true -> contains (c :: sub) (lstrip s) = true.
Proof.
  intros Hc. induction s as [|x s IH]; [auto|].
  cbn [lstrip]. destruct (isspace x) eqn:Ex; [|auto].
  intros H. apply IH. cbn [contains startswith] in H.
  apply orb_true_iff in H. destruct H as [H|H]; [|exact H].
  apply andb_true_iff in H. destruct H as [H _]. apply ceqb_eq in H.
  congruence.
Qed.

Lemma infix_rev (g s : str) : infix g s -> infix (rev g) (rev s).
Proof.
  intros (a & b & ->). exists (rev b), (rev a).
  rewrite !rev_app_distr, <- app_assoc. reflexivity.
Qed.

Lemma contains_where_strip (line : str) :
  contains "WHERE" line = true -> contains "WHERE" (strip line) = true.
Proof.
  intros H. unfold strip, rstrip.
  apply (@contains_lstrip "HERE" line "W" eq_refl) in H.
  apply contains_infix in H. apply infix_rev in H. apply contains_infix in H.
  apply (@contains_lstrip "REHW" (rev (lstrip line)) "E" eq_refl) in H.
  apply contains_infix in H. apply infix_rev in H.
  apply contains_infix. exact H.
Qed.

Lemma where_line_iff (line : str) : contains "WHERE" line = is_where_line line.
Proof.
  unfold is_where_line.
  destruct (contains "WHERE" line) eqn:E.
  - symmetry. apply contains_where_strip, E.
  - destruct (contains "WHERE" (strip line)) eqn:E2; [|reflexivity].
    apply contains_strip in E2. congruence.
Qed.

Lemma where_index_at (pre : list str) (w : str) (rest : list str) :
  existsb is_where_line pre = false -> is_where_line w = true ->
  where_index (pre ++ w :: rest) = Ok (length pre).
Proof.
  intros Hpre Hw. induction pre as [|l pre IH].
  - cbn [app where_index]. rewrite where_line_iff, Hw. reflexivity.
  - cbn [existsb] in Hpre. apply orb_false_iff in Hpre.
    destruct Hpre as [Hl Hpre].
    cbn [app where_index]. rewrite where_line_iff, Hl, (IH Hpre). reflexivity.
Qed.

Lemma skip_blank_or_brace_suffix (l : list str) :
  exists skipped, l = skipped ++ skip_blank_or_brace l.
Proof.
  induction l as [|a l (sk & IH)]; [exists []; reflexivity|].
  cbn [skip_blank_or_brace]. destruct (mem (strip a) [[]; "}"]).
  - exists (a :: sk). cbn [app]. f_equal. exact IH.
  - exists []. reflexivity.
Qed.

Lemma skip_blank_or_brace_idem (l : list str) :
  skip_blank_or_brace (skip_blank_or_brace l) = skip_blank_or_brace l.
Proof.
  induction l as [|a l IH]; [reflexivity|].
  cbn [skip_blank_or_brace]. destruct (mem (strip a) [[]; "}"]) eqn:E; [exact IH|].
  cbn [skip_blank_or_brace]. rewrite E. reflexivity.
Qed.

Lemma filter_exclusive (A : Type) (P Q : A -> bool) (l : list A) :
  (forall x, Q x = true -> P x = false) -> filter P (filter Q l) = [].
Proof.
  intros H. induction l as [|x l IH]; [reflexivity|].
  cbn [filter]. destruct (Q x) eqn:E; [|exact IH].
  cbn [filter]. rewrite (H x E). exact IH.
Qed.

Lemma filter_idem (A : Type) (P : A -> bool) (l : list A) :
  filter P (filter P l) = filter P l.
Proof.
  induction l as [|x l IH]; [reflexivity|].
  cbn [filter]. destruct (P x) eqn:E; [|exact IH].
  cbn [filter]. rewrite E, IH. reflexivity.
Qed.

Lemma filter_all (A : Type) (P : A -> bool) (l : list A) :
  Forall (fun x => P x = true) l -> filter P l = l.
Proof.
  induction 1 as [|x l Hx _ IH]; [reflexivity|].
  cbn [filter]. rewrite Hx, IH. reflexivity.
Qed.

Lemma filter_none (A : Type) (P : A -> bool) (l : list A) :
  Forall (fun x => P x = false) l -> filter P l = [].
Proof.
  induction 1 as [|x l Hx _ IH]; [reflexivity|].
  cbn [filter]. rewrite Hx, IH. reflexivity.
Qed.

Lemma line_kinds (line : str) :
  (is_filter_line line = true -> is_pattern_line line = false) /\
  (is_pattern_line line = true -> is_filter_line line = false) /\
  (is_other_line line = true ->
   is_filter_line line = false /\ is_pattern_line line = false) /\
  (is_filter_line line = true -> is_where_line line = false) /\
  (is_pattern_line line = true -> is_where_line line = false).
Proof.
  unfold is_other_line, is_pattern_line, is_filter_line.
  destruct (is_where_line line), (startswith "FILTER" (strip line)),
    (startswith "?" (strip line) || startswith "<" (strip line));
    cbn; repeat split; congruence.
Qed.

Lemma existsb_none (A : Type) (P : A -> bool) (l : list A) :
  Forall (fun x => P x = false) l -> existsb P l = false.
Proof.
  induction 1 as [|x l Hx _ IH]; [reflexivity|].
  cbn [existsb]. rewrite Hx, IH. reflexivity.
Qed.

Lemma classify_lines_more (pre : list str) (w : str) (rest : list str) :
  existsb is_where_line pre = false -> is_where_line w = true ->
  classify_lines false (pre ++ w :: rest)
  = (filter is_filter_line rest, filter is_pattern_line rest,
     pre ++ w :: filter is_other_line rest).
Proof.
  intros Hpre Hw. induction pre as [|l pre IH].
  - cbn [app classify_lines]. fold (is_where_line w). rewrite Hw.
    rewrite classify_lines_in_where. reflexivity.
  - cbn [existsb] in Hpre. apply orb_false_iff in Hpre.
    destruct Hpre as [Hl Hpre].
    cbn [app classify_lines]. fold (is_where_line l). rewrite Hl.
    cbn [andb]. rewrite (IH Hpre). reflexivity.
Qed.

Lemma firstn_skipn_at (A : Type) (pre : list A) (w : A) (rest : list A) :
  firstn (length pre + 1) (pre ++ w :: rest) = pre ++ [w] /\
  skipn (length pre + 1) (pre ++ w :: rest) = rest.
Proof.
  induction pre as [|x pre [IH1 IH2]]; [split; reflexivity|].
  cbn [length Nat.add app firstn skipn]. rewrite IH1, IH2. split; reflexivity.
Qed.

Lemma filter_holds (A : Type) (P : A -> bool) (l : list A) :
  Forall (fun x => P x = true) (filter P l).
Proof. apply Forall_forall. intros x Hx. apply filter_In in Hx. tauto. Qed.

Lemma optimize_query_lines (pre : list str) (w : str) (rest : list str)
    (sparql : str) :
  split_on nl sparql = pre ++ w :: rest ->
  existsb is_where_line pre = false -> is_where_line w = true ->
  filter is_filter_line rest <> [] -> filter is_pattern_line rest <> [] ->
  optimize_query sparql = Ok (join [nl] (reordered pre w rest)).
Proof.
  intros E Hpre Hw Hf Hp. unfold optimize_query.
  rewrite E, (@classify_lines_more pre w rest Hpre Hw).
  destruct (filter is_filter_line rest) as [|f0 f] eqn:Ef; [congruence|].
  destruct (filter is_pattern_line rest) as [|p0 p] eqn:Ep; [congruence|].
  rewrite (@where_index_at pre w _ Hpre Hw). cbn [bind].
  destruct (firstn_skipn_at pre w (filter is_other_line rest)) as [-> ->].
  unfold reordered. rewrite Ef, Ep, <- !app_assoc. reflexivity.
Qed.

Lemma reordered_again (pre : list str) (w : str) (rest : list str) :
  reordered pre w
    (filter is_pattern_line rest ++ filter is_filter_line rest
     ++ skip_blank_or_brace (filter is_other_line rest))
  = reordered pre w rest.
Proof.
  unfold reordered.
  destruct (skip_blank_or_brace_suffix (filter is_other_line rest))
    as (sk & Esk).
  assert (Hother : Forall (fun x => is_other_line x = true)
                     (skip_blank_or_brace (filter is_other_line rest))).
  { pose proof (filter_holds is_other_line rest) as H.
    rewrite Esk in H. apply Forall_app in H. tauto. }
  set (R := skip_blank_or_brace (filter is_other_line rest)) in *.
  rewrite !filter_app.
  rewrite filter_idem.
  rewrite (@filter_exclusive _ is_pattern_line is_filter_line rest)
    by (intros x; apply line_kinds).
  rewrite (@filter_exclusive _ is_filter_line is_pattern_line rest)
    by (intros x; apply line_kinds).
  rewrite filter_idem.
  rewrite (@filter_exclusive _ is_other_line is_pattern_line rest).
  2:{ intros x Hx. unfold is_other_line. rewrite Hx.
      rewrite andb_false_r. reflexivity. }
  rewrite (@filter_exclusive _ is_other_line is_filter_line rest).
  2:{ intros x Hx. unfold is_other_line. rewrite Hx. reflexivity. }
  rewrite (@filter_none _ is_pattern_line R).
  2:{ eapply Forall_impl; [|exact Hother]. intros x Hx.
      apply (line_kinds x) in Hx. tauto. }
  rewrite (@filter_none _ is_filter_line R).
  2:{ eapply Forall_impl; [|exact Hother]. intros x Hx.
      apply (line_kinds x) in Hx. tauto. }
  rewrite (@filter_all _ is_other_line R Hother).
  cbn [app]. rewrite !app_nil_r.
  subst R. rewrite skip_blank_or_brace_idem. reflexivity.
Qed.

(** X24 ([optimize_query]): what [optimize_query] returns it leaves as it
    is: optimizing twice gives what optimizing once gives. *)
Theorem optimize_query_idempotent (sparql : str) :
  exists result,
    optimize_query sparql = Ok result /\ optimize_query result = Ok result.
Proof.
  destruct (classify_lines_before_where (split_on nl sparql))
    as [[_ Hc]|(pre & w & rest & Elines & Hpre & Hw & Hc)].
  - exists sparql.
    assert (H : optimize_query sparql = Ok sparql).
    { unfold optimize_query. rewrite Hc. reflexivity. }
    auto.
  - destruct (filter is_filter_line rest) as [|f0 f] eqn:Ef.
    { exists sparql.
      assert (H : optimize_query sparql = Ok sparql).
      { unfold optimize_query. rewrite Hc. reflexivity. }
      auto. }
    destruct (filter is_pattern_line rest) as [|p0 p] eqn:Ep.
    { exists sparql.
      assert (H : optimize_query sparql = Ok sparql).
      { unfold optimize_query. rewrite Hc. reflexivity. }
      auto. }
    exists (join [nl] (reordered pre w rest)).
    assert (Hf : filter is_filter_line rest <> []) by (rewrite Ef; discriminate).
    assert (Hp : filter is_pattern_line rest <> []) by (rewrite Ep; discriminate).
    split; [apply (@optimize_query_lines pre w rest); assumption|].
    assert (Hlines : Forall (fun l => one_line l = true) (reordered pre w rest)).
    { pose proof (split_on_lines sparql) as Hall. rewrite Elines in Hall.
      apply Forall_app in Hall. destruct Hall as [H1 H2].
      inversion H2 as [|? ? Hw1 Hrest]; subst.
      unfold reordered. apply Forall_app. split; [exact H1|].
      constructor; [exact Hw1|].
      assert (Hsub : forall P, Forall (fun l => one_line l = true) (filter P rest)).
      { intros P. apply Forall_forall. intros x Hx. apply filter_In in Hx.
        exact (proj1 (Forall_forall _ _) Hrest x (proj1 Hx)). }
      apply Forall_app. split; [apply Hsub|].
      apply Forall_app. split; [apply Hsub|].
      destruct (skip_blank_or_brace_suffix (filter is_other_line rest))
        as (sk & Esk).
      pose proof (Hsub is_other_line) as Ho. rewrite Esk in Ho.
      apply Forall_app in Ho. tauto. }
    rewrite <- (reordered_again pre w rest) at 2.
    apply optimize_query_lines; try assumption.
    + rewrite split_on_join; [reflexivity| |exact Hlines].
      intros Hn. apply (f_equal (@length str)) in Hn.
      unfold reordered in Hn. rewrite length_app in Hn. cbn [length] in Hn. lia.
    + rewrite !filter_app, filter_idem, Ef.
      rewrite (@filter_exclusive _ is_filter_line is_pattern_line rest)
        by (intros x; apply line_kinds).
      discriminate.
    + rewrite !filter_app, filter_idem, Ep. discriminate.
Qed.


Lemma replace_from_skip (old new : str) (t rest : str) :
  replace_from old new (length t) (t ++ rest) = replace_from old new 0 rest.
Proof.
  induction t as [|c t IH]; [reflexivity|]. cbn [length app replace_from].
  exact IH.
Qed.

Lemma replace_plain_prefix (name new x y : str) :
  free_of "{" x = true ->
  replace ("{"%char :: name) new (x ++ y)
  = x ++ replace ("{"%char :: name) new y.
Proof.
  unfold replace. induction x as [|c x IH]; intros H; [reflexivity|].
  unfold free_of in H. cbn [forallb] in H. apply andb_true_iff in H.
  destruct H as [Hc H]. apply negb_true_iff in Hc.
  unfold char_in in Hc. cbn [existsb] in Hc. rewrite orb_false_r in Hc.
  cbn [app]. rewrite replace_from_cons.
  replace (startswith ("{"%char :: name) (c :: x ++ y)) with false.
  - rewrite (IH H). reflexivity.
  - cbn [startswith].
    destruct (ceqb "{" c) eqn:E; [|reflexivity].
    apply ceqb_eq in E. subst c. discriminate.
Qed.

Lemma replace_where_brace (name new y : str) (c : ascii) :
  c <> nl ->
  replace ("{"%char :: c :: name) new ("{"%char :: nl :: y)
  = "{"%char :: nl :: replace ("{"%char :: c :: name) new y.
Proof.
  intros Hc. unfold replace. rewrite replace_from_cons.
  replace (startswith ("{"%char :: c :: name) ("{"%char :: nl :: y)) with false.
  - rewrite replace_from_cons.
    replace (startswith ("{"%char :: c :: name) (nl :: y)) with false
      by reflexivity.
    reflexivity.
  - cbn [startswith].
    destruct (ceqb c nl) eqn:E.
    + apply ceqb_eq in E. contradiction.
    + destruct (ceqb "{" "{"); reflexivity.
Qed.

Lemma replace_here (old new rest : str) :
  old <> [] ->
  replace old new (old ++ rest) = new ++ replace old new rest.
Proof.
  intros Hold. unfold replace. destruct old as [|c old]; [congruence|].
  cbn [app]. rewrite replace_from_cons.
  change (c :: old ++ rest) with ((c :: old) ++ rest).
  rewrite startswith_prefix. cbn [length Nat.sub]. rewrite Nat.sub_0_r.
  rewrite replace_from_skip. reflexivity.
Qed.

Lemma replace_plain (name new x : str) :
  free_of "{" x = true -> replace ("{"%char :: name) new x = x.
Proof.
  intros H. rewrite <- (app_nil_r x) at 1.
  rewrite (@replace_plain_prefix name new x [] H). apply app_nil_r.
Qed.

Lemma free_of_app (chars a b : str) :
  free_of chars (a ++ b) = free_of chars a && free_of chars b.
Proof. apply forallb_app. Qed.

Ltac free_parts :=
  repeat (rewrite free_of_app; apply andb_true_iff; split);
  first [assumption | reflexivity].

Lemma replace_in_template (name new A1 A2 B : str) (c : ascii) (r : str) :
  name = c :: r -> c <> nl ->
  free_of "{" A1 = true -> free_of "{" A2 = true -> free_of "{" B = true ->
  replace ("{" ++ name ++ "}") new
    (A1 ++ "{" ++ [nl] ++ A2 ++ "{" ++ name ++ "}" ++ B)
  = A1 ++ "{" ++ [nl] ++ A2 ++ new ++ B.
Proof.
  intros -> Hc H1 H2 HB.
  change ("{" ++ (c :: r) ++ "}" : str) with ("{"%char :: c :: (r ++ "}")).
  rewrite (@replace_plain_prefix _ new A1 _ H1).
  change ("{" ++ [nl] ++ A2 ++ "{" ++ (c :: r) ++ "}" ++ B : str)
    with ("{"%char :: nl :: (A2 ++ "{" ++ (c :: r) ++ "}" ++ B)).
  rewrite (@replace_where_brace (r ++ "}") new _ c Hc).
  rewrite (@replace_plain_prefix _ new A2 _ H2).
  replace ("{" ++ (c :: r) ++ "}" ++ B : str)
    with (("{"%char :: c :: (r ++ "}")) ++ B)
    by (cbn [app]; rewrite <- app_assoc; reflexivity).
  rewrite replace_here by discriminate.
  rewrite (@replace_plain _ new B HB). reflexivity.
Qed.

(** X25 ([_generate_sparql_template], [_generate_sparql_datatype_template],
    [build_query]): the substitution of [build_query] puts the escaped value
    of the entity in the one place of a generated template that is meant
    for it, between the quotes of the FILTER line, and changes nothing else,
    when the names the template is made of hold no opening brace and the
    name of the placeholder is not empty and holds no line break. *)
Theorem generated_template_takes_the_value
    (template prop_name domain_simple range_simple value : str) :
  free_of "{" prop_name = true ->
  free_of "{" domain_simple = true ->
  free_of "{" range_simple = true ->
  one_line range_simple = true ->
  range_simple <> [] ->
  substitute
    (_generate_sparql_template template prop_name domain_simple range_simple)
    [(range_simple, value)]
  = object_query prop_name domain_simple range_simple
      (_escape_sparql_string value)
  /\ substitute
       (_generate_sparql_datatype_template template prop_name domain_simple
          range_simple)
       [(range_simple, value)]
     = datatype_query prop_name domain_simple range_simple
         (_escape_sparql_string value).
Proof.
  intros Hp Hd Hr Hl Hne.
  destruct range_simple as [|c r] eqn:Er; [congruence|]. rewrite <- Er in *.
  assert (Hc : c <> nl).
  { rewrite Er in Hl. unfold one_line in Hl. cbn [forallb] in Hl.
    apply andb_true_iff in Hl. destruct Hl as [Hl _].
    apply negb_true_iff in Hl. intros ->.
    rewrite (proj2 (ceqb_eq nl nl) eq_refl) in Hl. discriminate. }
  unfold substitute. cbn [fold_left fst snd].
  set (new := _escape_sparql_string value).
  split.
  - unfold _generate_sparql_template, object_query.
    set (A1 := "SELECT ?" ++ domain_simple ++ " ?" ++ range_simple
               ++ "_name" ++ [nl] ++ "WHERE ").
    set (A2 := "  ?" ++ domain_simple ++ " <" ++ prop_name ++ "> ?"
               ++ range_simple ++ " ." ++ [nl]
               ++ "  ?" ++ range_simple
               ++ " <http://xmlns.com/foaf/0.1/name> ?"
               ++ range_simple ++ "_name ." ++ [nl]
               ++ "  FILTER (lcase(str(?" ++ range_simple
               ++ "_name)) = lcase(" ++ [dquote]).
    set (B := [dquote] ++ "))" ++ [nl] ++ "}").
    assert (H1 : free_of "{" A1 = true) by (unfold A1; free_parts).
    assert (H2 : free_of "{" A2 = true) by (unfold A2; free_parts).
    assert (HB : free_of "{" B = true) by reflexivity.
    pose proof (@replace_in_template range_simple new A1 A2 B c r Er Hc
                  H1 H2 HB) as E.
    unfold A1, A2, B in E. repeat rewrite <- app_assoc in E.
    exact E.
  - unfold _generate_sparql_datatype_template, datatype_query.
    set (A1 := "SELECT ?" ++ domain_simple ++ [nl] ++ "WHERE ").
    set (A2 := "  ?" ++ domain_simple ++ " <" ++ prop_name ++ "> ?"
               ++ range_simple ++ " ." ++ [nl]
               ++ "  FILTER (lcase(str(?" ++ range_simple
               ++ ")) = lcase(" ++ [dquote]).
    set (B := [dquote] ++ "))" ++ [nl] ++ "}").
    assert (H1 : free_of "{" A1 = true) by (unfold A1; free_parts).
    assert (H2 : free_of "{" A2 = true) by (unfold A2; free_parts).
    assert (HB : free_of "{" B = true) by reflexivity.
    pose proof (@replace_in_template range_simple new A1 A2 B c r Er Hc
                  H1 H2 HB) as E.
    unfold A1, A2, B in E. repeat rewrite <- app_assoc in E.
    exact E.
Qed.

Lemma generated_template_takes_the_value_witness :
  substitute
    (_generate_sparql_template "meetings with {person}" "kb:hasAttendee"
       "meeting" "person")
    [("person", "John Smith")]
  = object_query "kb:hasAttendee" "meeting" "person" "John Smith".
Proof.
  apply (@generated_template_takes_the_value "meetings with {person}"
           "kb:hasAttendee" "meeting" "person" "John Smith");
    [reflexivity|reflexivity|reflexivity|reflexivity|discriminate].
Defined.


(** ** Entities the template has no placeholder for *)




